(** * coreinit alarms (src/modules/coreinit/coreinit_alarm.cpp)

    A shallow embedding of the alarm facility of the coreinit module and
    the properties its specification states about it.

    The embedding is sequential: every function of the file is a
    computation over one [World] value (guest memory holding the alarm
    records, the per-core alarm queues, the alarm spin lock, the
    interrupt timers of the processor, the clock, the scheduler's ready
    list).  Calls that leave the file (queue templates, scheduler,
    processor, clock) are recorded in a trace so that statements can
    speak about what was requested from the collaborators. *)

From Stdlib Require Import ZArith Lia.
From stdpp Require Import base option list gmap.

Local Open Scope Z_scope.

(** ** Data model *)

(** [OSAlarmState]: the enumerators [None], [Set] and [Cancelled] of the
    source.  The enumeration is declared in coreinit_alarm.h; [None] is
    its zero value, which is what a zero-filled record holds. *)
Inductive OSAlarmState := AlarmNone | AlarmSet | AlarmCancelled.

#[global] Instance OSAlarmState_eq_dec : EqDecision OSAlarmState.
Proof. solve_decision. Defined.

(** One alarm record.  Pointers of the guest are addresses ([nat], the
    null pointer being [0]) or, where the source only tests them against
    null, options.  The intrusive [link] of the record is represented by
    the position of the alarm in the member list of its queue. *)
Record OSAlarm := mkAlarm {
  tag : Z;
  name : option nat;
  callback : option nat;
  alarmTag : Z;
  context : option nat;
  nextFire : Z;
  period : Z;
  state : OSAlarmState;
  threadQueue : list nat;
  alarmQueue : option nat;
  userData : nat
}.

Definition set_tag (v : Z) (a : OSAlarm) : OSAlarm :=
  mkAlarm v (name a) (callback a) (alarmTag a) (context a) (nextFire a)
          (period a) (state a) (threadQueue a) (alarmQueue a) (userData a).
Definition set_name (v : option nat) (a : OSAlarm) : OSAlarm :=
  mkAlarm (tag a) v (callback a) (alarmTag a) (context a) (nextFire a)
          (period a) (state a) (threadQueue a) (alarmQueue a) (userData a).
Definition set_callback (v : option nat) (a : OSAlarm) : OSAlarm :=
  mkAlarm (tag a) (name a) v (alarmTag a) (context a) (nextFire a)
          (period a) (state a) (threadQueue a) (alarmQueue a) (userData a).
Definition set_alarmTag (v : Z) (a : OSAlarm) : OSAlarm :=
  mkAlarm (tag a) (name a) (callback a) v (context a) (nextFire a)
          (period a) (state a) (threadQueue a) (alarmQueue a) (userData a).
Definition set_context (v : option nat) (a : OSAlarm) : OSAlarm :=
  mkAlarm (tag a) (name a) (callback a) (alarmTag a) v (nextFire a)
          (period a) (state a) (threadQueue a) (alarmQueue a) (userData a).
Definition set_nextFire (v : Z) (a : OSAlarm) : OSAlarm :=
  mkAlarm (tag a) (name a) (callback a) (alarmTag a) (context a) v
          (period a) (state a) (threadQueue a) (alarmQueue a) (userData a).
Definition set_period (v : Z) (a : OSAlarm) : OSAlarm :=
  mkAlarm (tag a) (name a) (callback a) (alarmTag a) (context a) (nextFire a)
          v (state a) (threadQueue a) (alarmQueue a) (userData a).
Definition set_state (v : OSAlarmState) (a : OSAlarm) : OSAlarm :=
  mkAlarm (tag a) (name a) (callback a) (alarmTag a) (context a) (nextFire a)
          (period a) v (threadQueue a) (alarmQueue a) (userData a).
Definition set_threadQueue (v : list nat) (a : OSAlarm) : OSAlarm :=
  mkAlarm (tag a) (name a) (callback a) (alarmTag a) (context a) (nextFire a)
          (period a) (state a) v (alarmQueue a) (userData a).
Definition set_alarmQueue (v : option nat) (a : OSAlarm) : OSAlarm :=
  mkAlarm (tag a) (name a) (callback a) (alarmTag a) (context a) (nextFire a)
          (period a) (state a) (threadQueue a) v (userData a).
Definition set_userData (v : nat) (a : OSAlarm) : OSAlarm :=
  mkAlarm (tag a) (name a) (callback a) (alarmTag a) (context a) (nextFire a)
          (period a) (state a) (threadQueue a) (alarmQueue a) v.

(** [memset(alarm, 0, sizeof(OSAlarm))]. *)
Definition zero_alarm : OSAlarm :=
  mkAlarm 0 None None 0 None 0 0 AlarmNone [] None 0%nat.

(** [OSTime] is a signed 64-bit tick count; sums wrap. *)
Definition wrap64 (z : Z) : Z := (z + 2 ^ 63) mod 2 ^ 64 - 2 ^ 63.
Definition OSTime_add (a b : Z) : Z := wrap64 (a + b).

(** Modelled from the spec: the host time points handed to the interrupt
    controller and [OSTimeToChrono] are declared outside this file.  The
    conversion is taken to keep the order of kernel times, and
    [time_point::max()], the value the spec calls "never", lies above
    every converted time. *)
Inductive time_point := TimeAt (t : Z) | TimeMax.

Definition OSTimeToChrono (t : Z) : time_point := TimeAt t.

Definition time_lt (a b : time_point) : bool :=
  match a, b with
  | TimeAt x, TimeAt y => bool_decide (x < y)
  | TimeAt _, TimeMax => true
  | TimeMax, _ => false
  end.

(** Calls to the collaborators of the file, in program order. *)
Inductive Event :=
| EvLockScheduler
| EvUnlockScheduler
| EvAcquire
| EvRelease
| EvEraseFromQueue (queue alarm : nat)
| EvAppendQueue (queue alarm : nat)
| EvSleepThread (alarm thread : nat)
| EvWakeupThread (alarm : nat) (threads : list nat)
| EvReschedule
| EvCallback (cb alarm : nat) (ctx : option nat)
| EvSetInterruptTimer (core : nat) (t : time_point).

(** The state all functions of the file run on.
    - [mem]: the alarm records of guest memory, by address;
    - [gAlarmQueue]: the array of per-core queues, each given by its
      linked members from head to tail (a queue pointer is identified
      with the index of its core; the [tag] of a queue is written once
      by [OSInitAlarmQueue] and never read, it is not kept);
    - [gAlarmLock]: whether the alarm spin lock is held;
    - [timers]: the interrupt timer last requested for each core;
    - [clock], [ticks]: the readings [OSGetTime] returns, and how many
      were taken;
    - [core_id], [current_thread]: where the running call executes;
    - [ready]: threads the scheduler was asked to resume;
    - [trace]: calls to collaborators so far;
    - [unguarded]: ghost state, the alarm records that were read or
      written while [gAlarmLock] was not held. *)
Record World := mkWorld {
  mem : gmap nat OSAlarm;
  gAlarmQueue : list (list nat);
  gAlarmLock : bool;
  timers : gmap nat time_point;
  clock : nat → Z;
  ticks : nat;
  core_id : nat;
  current_thread : nat;
  ready : list nat;
  trace : list Event;
  unguarded : list nat
}.

Definition with_mem (m : gmap nat OSAlarm) (w : World) : World :=
  mkWorld m (gAlarmQueue w) (gAlarmLock w) (timers w) (clock w) (ticks w)
          (core_id w) (current_thread w) (ready w) (trace w) (unguarded w).
Definition with_queues (q : list (list nat)) (w : World) : World :=
  mkWorld (mem w) q (gAlarmLock w) (timers w) (clock w) (ticks w)
          (core_id w) (current_thread w) (ready w) (trace w) (unguarded w).
Definition with_lock (b : bool) (w : World) : World :=
  mkWorld (mem w) (gAlarmQueue w) b (timers w) (clock w) (ticks w)
          (core_id w) (current_thread w) (ready w) (trace w) (unguarded w).
Definition with_timers (t : gmap nat time_point) (w : World) : World :=
  mkWorld (mem w) (gAlarmQueue w) (gAlarmLock w) t (clock w) (ticks w)
          (core_id w) (current_thread w) (ready w) (trace w) (unguarded w).
Definition with_ticks (n : nat) (w : World) : World :=
  mkWorld (mem w) (gAlarmQueue w) (gAlarmLock w) (timers w) (clock w) n
          (core_id w) (current_thread w) (ready w) (trace w) (unguarded w).
Definition with_core (c : nat) (w : World) : World :=
  mkWorld (mem w) (gAlarmQueue w) (gAlarmLock w) (timers w) (clock w) (ticks w)
          c (current_thread w) (ready w) (trace w) (unguarded w).
Definition with_ready (r : list nat) (w : World) : World :=
  mkWorld (mem w) (gAlarmQueue w) (gAlarmLock w) (timers w) (clock w) (ticks w)
          (core_id w) (current_thread w) r (trace w) (unguarded w).
Definition with_trace (t : list Event) (w : World) : World :=
  mkWorld (mem w) (gAlarmQueue w) (gAlarmLock w) (timers w) (clock w) (ticks w)
          (core_id w) (current_thread w) (ready w) t (unguarded w).
Definition with_unguarded (u : list nat) (w : World) : World :=
  mkWorld (mem w) (gAlarmQueue w) (gAlarmLock w) (timers w) (clock w) (ticks w)
          (core_id w) (current_thread w) (ready w) (trace w) u.

(** ** Computations *)

(** A call either returns a value and the next world, or stops: on a
    failed [assert], on a dereference of an address that holds no
    record, or on an index outside [gAlarmQueue]. *)
Inductive Error := AssertionFailed | InvalidPointer | OutOfBounds.

Inductive Result (A : Type) :=
| Ok (a : A) (w : World)
| Err (e : Error).
Arguments Ok {A} a w.
Arguments Err {A} e.

Definition M (A : Type) : Type := World → Result A.

#[global] Instance M_ret : MRet M := λ A a w, Ok a w.
#[global] Instance M_bind : MBind M := λ A B f m w,
  match m w with
  | Ok a w' => f a w'
  | Err e => Err e
  end.

Definition fault {A} (e : Error) : M A := λ _, Err e.
Definition update (f : World → World) : M unit := λ w, Ok tt (f w).
Definition log (e : Event) : M unit :=
  update (λ w, with_trace (trace w ++ [e]) w).

(** [assert(c)], in a build that keeps assertions. *)
Definition assert (c : Prop) `{Decision c} : M unit :=
  if decide c then mret tt else fault AssertionFailed.

(** Ghost bookkeeping of an access to the record at [p]. *)
Definition touch (p : nat) (w : World) : World :=
  with_unguarded
    (if gAlarmLock w then unguarded w else unguarded w ++ [p]) w.

(** [alarm->field] as an rvalue: the whole record is returned and the
    caller projects the field. *)
Definition load (p : nat) : M OSAlarm := λ w,
  match mem w !! p with
  | Some a => Ok a (touch p w)
  | None => Err InvalidPointer
  end.

(** [alarm->field = v], with [f] one of the setters above. *)
Definition store (p : nat) (f : OSAlarm → OSAlarm) : M unit := λ w,
  match mem w !! p with
  | Some a => Ok tt (with_mem (<[p := f a]> (mem w)) (touch p w))
  | None => Err InvalidPointer
  end.

(** The members of a queue that are still reached from its head once
    the links of [alarm] are zeroed: those up to and including
    [alarm]. *)
Fixpoint cut_behind (alarm : nat) (members : list nat) : list nat :=
  match members with
  | [] => []
  | x :: rest =>
      if decide (x = alarm) then [x] else x :: cut_behind alarm rest
  end.

(** [memset(alarm, 0, sizeof(OSAlarm))]: whatever the storage held
    before, it holds the zero record afterwards.  The record includes
    [alarm->link], the links that [OSCancelAlarms] and [OSCheckAlarms]
    follow: when the alarm is linked into a queue, the queue keeps its
    head and the members in front of the alarm keep their links, so
    the walk from the head ends at the alarm and the members behind it
    are no longer reached.  The tail pointer of such a queue stays
    behind the cut, so what [OSAppendQueue] does to it afterwards is
    not what it does to the list of members kept here: the examples
    that create a linked alarm append nothing after it, and the
    properties of runs are stated for runs that create no linked alarm
    ([create_unlinked]). *)
Definition memset_alarm (p : nat) : M unit := λ w,
  if decide (p = 0%nat) then Err InvalidPointer
  else Ok tt (with_queues (cut_behind p <$> gAlarmQueue w)
                (with_mem (<[p := zero_alarm]> (mem w)) (touch p w))).

(** [OSUninterruptibleSpinLock_Acquire(gAlarmLock)] and its release; a
    [ScopedSpinLock] is the pair of them around the function body. *)
Definition acquire : M unit :=
  update (with_lock true);; log EvAcquire.
Definition release : M unit :=
  update (with_lock false);; log EvRelease.

Definition OSLockScheduler : M unit := log EvLockScheduler.
Definition OSUnlockScheduler : M unit := log EvUnlockScheduler.

(** [OSGetTime()]: the next reading of the clock. *)
Definition OSGetTime : M Z := λ w,
  Ok (clock w (ticks w)) (with_ticks (S (ticks w)) w).

(** [OSGetCoreId()] *)
Definition OSGetCoreId : M nat := λ w, Ok (core_id w) w.

(** [gAlarmQueue[i]]: a pointer to the queue of core [i]. *)
Definition gAlarmQueue_at (i : nat) : M nat := λ w,
  match gAlarmQueue w !! i with
  | Some _ => Ok i w
  | None => Err OutOfBounds
  end.

(** The alarms reachable from [queue->head] through [link.next]. *)
Definition queue_members (queue : nat) : M (list nat) := λ w,
  match gAlarmQueue w !! queue with
  | Some l => Ok l w
  | None => Err InvalidPointer
  end.

(** Modelled from the spec: [OSAppendQueue] of coreinit_queue.h links
    the item at the tail of the queue (the queue is insertion
    ordered). *)
Definition OSAppendQueue (queue alarm : nat) : M unit := λ w,
  match gAlarmQueue w !! queue with
  | Some l =>
      Ok tt (with_trace (trace w ++ [EvAppendQueue queue alarm])
              (with_queues (<[queue := l ++ [alarm]]> (gAlarmQueue w)) w))
  | None => Err InvalidPointer
  end.

(** Modelled from the spec: [OSEraseFromQueue] of coreinit_queue.h
    unlinks the item from the queue; the other members keep their
    order. *)
Definition OSEraseFromQueue (queue alarm : nat) : M unit := λ w,
  match gAlarmQueue w !! queue with
  | Some l =>
      Ok tt (with_trace (trace w ++ [EvEraseFromQueue queue alarm])
              (with_queues
                 (<[queue := filter (λ x, x ≠ alarm) l]> (gAlarmQueue w)) w))
  | None => Err InvalidPointer
  end.

(** [OSEraseFromQueue(alarm->alarmQueue, alarm)] without a null test. *)
Definition erase_from (q : option nat) (alarm : nat) : M unit :=
  match q with
  | Some queue => OSEraseFromQueue queue alarm
  | None => fault InvalidPointer
  end.

(** [if (alarm->alarmQueue) OSEraseFromQueue(alarm->alarmQueue, alarm)] *)
Definition erase_if_linked (q : option nat) (alarm : nat) : M unit :=
  match q with
  | Some queue => OSEraseFromQueue queue alarm
  | None => mret tt
  end.

(** Modelled from the spec: [OSWakeupThreadNoLock(&alarm->threadQueue)]
    of the scheduler resumes every thread of the wait set, which is
    empty afterwards (a broadcast to all current waiters). *)
Definition OSWakeupThreadNoLock (alarm : nat) : M unit :=
  a ← load alarm;
  update (λ w, with_ready (ready w ++ threadQueue a) w);;
  store alarm (set_threadQueue []);;
  log (EvWakeupThread alarm (threadQueue a)).

(** Modelled from the spec: [OSWakeupThread] is [OSWakeupThreadNoLock]
    under the scheduler lock. *)
Definition OSWakeupThread (alarm : nat) : M unit :=
  OSLockScheduler;;
  OSWakeupThreadNoLock alarm;;
  OSUnlockScheduler.

(** Modelled from the spec: [OSSleepThreadNoLock(&alarm->threadQueue)]
    suspends the calling thread onto the wait set. *)
Definition OSSleepThreadNoLock (alarm : nat) : M unit := λ w,
  (store alarm (λ a, set_threadQueue (threadQueue a ++ [current_thread w]) a);;
   log (EvSleepThread alarm (current_thread w))) w.

(** Modelled from the spec: [gProcessor.setInterruptTimer(core, t)]
    schedules the next interrupt of [core]. *)
Definition setInterruptTimer (core : nat) (t : time_point) : M unit :=
  update (λ w, with_timers (<[core := t]> (timers w)) w);;
  log (EvSetInterruptTimer core t).

(** [for (alarm = queue->head; alarm; alarm = next)] where
    [next = alarm->link.next] is read before the body runs on [alarm]:
    unlinking the visited alarm does not disturb the walk.  The walk is
    given by the members linked when the loop starts, visited in queue
    order, with an accumulator threaded through.  This is the walk of
    the source as long as the body links nothing and unlinks nothing
    but the visited alarm; that is so in [OSCancelAlarms], and in
    [OSCheckAlarms] when the callbacks leave the queues alone
    ([callbacks_frame] below).  A callback that arms or cancels alarms
    makes the source go on from the alarm that was next when the body
    started, along the links as [OSAppendQueue] and [OSEraseFromQueue]
    left them, which this file does not determine; only when the
    visited alarm is the last member is [next] null, and the walk over
    whatever the callback does.  So the properties that depend on
    which alarms a scan visits are stated under [callbacks_frame], the
    examples with other callbacks scan queues of one member, and the
    invariant of the queues is proved for any alarms a scan may visit
    ([OSCheckAlarms_along], [runs]). *)
Fixpoint for_each {S : Type}
    (body : nat → S → M S) (members : list nat) (acc : S) : M S :=
  match members with
  | [] => mret acc
  | alarm :: next => acc' ← body alarm acc; for_each body next acc'
  end.

(** ** The functions of coreinit_alarm.cpp *)

Section Alarm.

(** [OSAlarm::Tag], declared in coreinit_alarm.h. *)
Variable OSAlarm_Tag : Z.

(** The guest code behind an [AlarmCallback] value: what running
    [callback(alarm, context)] does to the world. *)
Variable run_callback : nat → nat → option nat → World → World.

(** What the rest of the system does between the moment the calling
    thread is descheduled in [OSRescheduleNoLock] and the moment it
    runs again. *)
Variable run_others : World → World.

Definition call (cb alarm : nat) (ctx : option nat) : M unit :=
  log (EvCallback cb alarm ctx);;
  update (run_callback cb alarm ctx).

(** [alarm->callback(alarm, context)]: the call goes through the field,
    which is read for it. *)
Definition call_field (alarm : nat) (ctx : option nat) : M unit :=
  a ← load alarm;
  match callback a with
  | Some cb => call cb alarm ctx
  | None => fault InvalidPointer
  end.

Definition OSRescheduleNoLock : M unit :=
  log EvReschedule;;
  update run_others.

Definition OSCancelAlarmNoLock (alarm : nat) : M bool :=
  a ← load alarm;
  if decide (state a ≠ AlarmSet) then mret false
  else
    store alarm (set_state AlarmCancelled);;
    store alarm (set_nextFire 0);;
    store alarm (set_period 0);;
    a ← load alarm;
    erase_if_linked (alarmQueue a) alarm;;
    OSWakeupThread alarm;;
    mret true.

Definition OSCancelAlarm (alarm : nat) : M bool :=
  acquire;;
  r ← OSCancelAlarmNoLock alarm;
  release;;
  mret r.

(** The body of the inner loop of [OSCancelAlarms]. *)
Definition OSCancelAlarms_visit (alarmTag' : Z) (alarm : nat) (_ : unit)
    : M unit :=
  a ← load alarm;
  if decide (alarmTag a = alarmTag') then
    OSCancelAlarmNoLock alarm;; mret tt
  else mret tt.

(** The body of the outer loop of [OSCancelAlarms]. *)
Definition OSCancelAlarms_core (alarmTag' : Z) (i : nat) : M unit :=
  queue ← gAlarmQueue_at i;
  members ← queue_members queue;
  for_each (OSCancelAlarms_visit alarmTag') members tt.

Definition OSCancelAlarms (alarmTag' : Z) : M unit :=
  acquire;;
  OSCancelAlarms_core alarmTag' 0%nat;;
  OSCancelAlarms_core alarmTag' 1%nat;;
  OSCancelAlarms_core alarmTag' 2%nat;;
  release.

Definition OSCreateAlarmEx (alarm : nat) (name' : option nat) : M unit :=
  memset_alarm alarm;;
  store alarm (set_tag OSAlarm_Tag);;
  store alarm (set_name name');;
  (* OSInitThreadQueueEx(&alarm->threadQueue, alarm) *)
  store alarm (set_threadQueue []).

Definition OSCreateAlarm (alarm : nat) : M unit :=
  OSCreateAlarmEx alarm None.

Definition OSGetAlarmUserData (alarm : nat) : M nat :=
  a ← load alarm;
  mret (userData a).

(** [OSInitAlarmQueue]: a zero-filled queue has no members. *)
Definition OSInitAlarmQueue : list nat := [].

Definition OSSetPeriodicAlarm (alarm : nat) (start interval : Z)
    (callback' : option nat) : M bool :=
  acquire;;
  store alarm (set_nextFire start);;
  store alarm (set_callback callback');;
  store alarm (set_period interval);;
  store alarm (set_context None);;
  store alarm (set_state AlarmSet);;
  a ← load alarm;
  erase_if_linked (alarmQueue a) alarm;;
  core ← OSGetCoreId;
  queue ← gAlarmQueue_at core;
  store alarm (set_alarmQueue (Some queue));;
  OSAppendQueue queue alarm;;
  a ← load alarm;
  setInterruptTimer core (OSTimeToChrono (nextFire a));;
  release;;
  mret true.

Definition OSSetAlarm (alarm : nat) (time : Z) (callback' : option nat)
    : M bool :=
  now ← OSGetTime;
  OSSetPeriodicAlarm alarm (OSTime_add now time) 0 callback'.

Definition OSSetAlarmTag (alarm : nat) (alarmTag' : Z) : M unit :=
  acquire;;
  store alarm (set_alarmTag alarmTag');;
  release.

Definition OSSetAlarmUserData (alarm : nat) (data : nat) : M unit :=
  acquire;;
  store alarm (set_userData data);;
  release.

Definition OSWaitAlarm (alarm : nat) : M bool :=
  OSLockScheduler;;
  acquire;;
  assert (alarm ≠ 0%nat);;
  a ← load alarm;
  assert (tag a = OSAlarm_Tag);;
  a ← load alarm;
  if decide (state a ≠ AlarmSet) then
    release;;
    OSUnlockScheduler;;
    mret false
  else
    OSSleepThreadNoLock alarm;;
    release;;
    OSRescheduleNoLock;;
    acquire;;
    a ← load alarm;
    let result := bool_decide (state a ≠ AlarmCancelled) in
    release;;
    OSUnlockScheduler;;
    mret result.

Definition OSTriggerAlarmNoLock (alarm : nat) (context' : option nat)
    : M unit :=
  store alarm (set_context context');;
  a ← load alarm;
  (if decide (period a ≠ 0) then
     now ← OSGetTime;
     a ← load alarm;
     store alarm (set_nextFire (OSTime_add now (period a)));;
     store alarm (set_state AlarmSet)
   else
     store alarm (set_nextFire 0);;
     store alarm (set_state AlarmNone);;
     a ← load alarm;
     erase_from (alarmQueue a) alarm);;
  a ← load alarm;
  match callback a with
  | Some _ =>
      release;;
      call_field alarm context';;
      acquire
  | None => mret tt
  end;;
  OSWakeupThreadNoLock alarm.

(** The body of the loop of [OSCheckAlarms]; [next] is the earliest
    time point seen so far. *)
Definition OSCheckAlarms_visit (now : Z) (context' : option nat)
    (alarm : nat) (next : time_point) : M time_point :=
  a ← load alarm;
  (if decide (nextFire a ≤ now ∧ state a ≠ AlarmCancelled) then
     OSTriggerAlarmNoLock alarm context'
   else mret tt);;
  a ← load alarm;
  if decide (state a = AlarmSet ∧ nextFire a ≠ 0) then
    let nextFire' := OSTimeToChrono (nextFire a) in
    if time_lt nextFire' next then mret nextFire' else mret next
  else mret next.

Definition OSCheckAlarms (core : nat) (context' : option nat) : M unit :=
  queue ← gAlarmQueue_at core;
  now ← OSGetTime;
  OSLockScheduler;;
  acquire;;
  members ← queue_members queue;
  next ← for_each (OSCheckAlarms_visit now context') members TimeMax;
  release;;
  OSUnlockScheduler;;
  setInterruptTimer core next.

(** [OSCheckAlarms] when the walk of the links visits the alarms
    [visited]: the code around the loop and the body of the loop are
    those of the source, the walk itself is left open. *)
Definition OSCheckAlarms_along (visited : list nat) (core : nat)
    (context' : option nat) : M unit :=
  queue ← gAlarmQueue_at core;
  now ← OSGetTime;
  OSLockScheduler;;
  acquire;;
  next ← for_each (OSCheckAlarms_visit now context') visited TimeMax;
  release;;
  OSUnlockScheduler;;
  setInterruptTimer core next.

End Alarm.

(** [CoreInit::initialiseAlarm]: the lock is free and each of the
    [CoreCount] cores gets an empty queue.  [CoreCount] is declared in
    coreinit_core.h and is a parameter here; nothing else of the world
    is touched. *)
Definition initialiseAlarm (CoreCount : nat) (w : World) : World :=
  with_lock false (with_queues (replicate CoreCount OSInitAlarmQueue) w).

(** ** Vocabulary of the properties *)

(** [alarm] is a member of the queue of core [queue]. *)
Definition linked (w : World) (alarm queue : nat) : Prop :=
  ∃ members, gAlarmQueue w !! queue = Some members ∧ alarm ∈ members.

(** The record of an alarm after a successful cancel. *)
Definition cancelled (a : OSAlarm) : OSAlarm :=
  set_threadQueue []
    (set_period 0 (set_nextFire 0 (set_state AlarmCancelled a))).

(** The record of an alarm after it was armed on the core owning
    [queue]. *)
Definition armed (start interval : Z) (cb : option nat) (queue : nat)
    (a : OSAlarm) : OSAlarm :=
  set_alarmQueue (Some queue)
    (set_state AlarmSet
       (set_context None
          (set_period interval (set_callback cb (set_nextFire start a))))).

(** The record of an alarm after it fired with context [ctx], [t] being
    the clock reading taken while it fired. *)
Definition fired (ctx : option nat) (t : Z) (a : OSAlarm) : OSAlarm :=
  set_threadQueue []
    (if decide (period a ≠ 0)
     then set_state AlarmSet
            (set_nextFire (OSTime_add t (period a)) (set_context ctx a))
     else set_state AlarmNone (set_nextFire 0 (set_context ctx a))).

(** The due test of [OSCheckAlarms]. *)
Definition due (now : Z) (a : OSAlarm) : Prop :=
  nextFire a ≤ now ∧ state a ≠ AlarmCancelled.

(** The queues after [alarm] was unlinked from the queue [q] points
    to. *)
Definition unlinked_from (q : option nat) (alarm : nat)
    (queues : list (list nat)) : list (list nat) :=
  match q with
  | Some queue =>
      match queues !! queue with
      | Some l => <[queue := filter (λ x, x ≠ alarm) l]> queues
      | None => queues
      end
  | None => queues
  end.

(** The queues after [alarm] was linked at the tail of [queue]. *)
Definition linked_into (queue alarm : nat) (queues : list (list nat))
    : list (list nat) :=
  match queues !! queue with
  | Some l => <[queue := l ++ [alarm]]> queues
  | None => queues
  end.

(** [alarm] is armed in [w] with fire time [t]. *)
Definition pending (w : World) (alarm : nat) (t : Z) : Prop :=
  ∃ a, mem w !! alarm = Some a ∧ state a = AlarmSet ∧ nextFire a = t.

(** [T] is the earliest fire time among the armed alarms of [members]
    whose fire time satisfies [counted], and [TimeMax] when there is
    none. *)
Definition earliest (w : World) (members : list nat) (counted : Z → Prop)
    (T : time_point) : Prop :=
  match T with
  | TimeAt t =>
      counted t ∧ (∃ p, p ∈ members ∧ pending w p t) ∧
      ∀ p t', p ∈ members → pending w p t' → counted t' → t ≤ t'
  | TimeMax => ∀ p t, p ∈ members → pending w p t → ¬ counted t
  end.

(** The events of [evs] leave the alarm lock alone. *)
Definition lock_untouched (evs : list Event) : Prop :=
  ¬ (EvAcquire ∈ evs) ∧ ¬ (EvRelease ∈ evs).

(** The structural invariant of the facility: queue members are armed
    alarms that point back to their queue, armed alarms are members of
    the queue they point to, back pointers are queue pointers, no queue
    holds an alarm twice, and the fire time of an alarm that is not
    armed is zero. *)
Record wf (w : World) : Prop := mk_wf {
  wf_member : ∀ q l p, gAlarmQueue w !! q = Some l → p ∈ l →
      ∃ a, mem w !! p = Some a ∧ state a = AlarmSet ∧ alarmQueue a = Some q;
  wf_armed : ∀ p a, mem w !! p = Some a → state a = AlarmSet →
      ∃ q, alarmQueue a = Some q ∧ linked w p q;
  wf_owner : ∀ p a q, mem w !! p = Some a → alarmQueue a = Some q →
      (q < length (gAlarmQueue w))%nat;
  wf_nodup : ∀ q l, gAlarmQueue w !! q = Some l → NoDup l;
  wf_idle : ∀ p a, mem w !! p = Some a → state a ≠ AlarmSet → nextFire a = 0
}.

(** The invariant as the specification words it: an alarm is armed iff
    it is linked into exactly one queue. *)
Definition armed_iff_linked (w : World) : Prop :=
  ∀ p a, mem w !! p = Some a →
    (state a = AlarmSet ↔
     ∃ q, linked w p q ∧ ∀ q', linked w p q' → q' = q).

(** The fire time of an alarm that is not armed holds no value: it is
    cleared. *)
Definition idle_time_cleared (w : World) : Prop :=
  ∀ p a, mem w !! p = Some a → state a ≠ AlarmSet → nextFire a = 0.

(** ** Sequences of operations *)

(** The entry points of the facility together with the core they are
    called on. *)
Inductive Op :=
| OpCreateAlarm (alarm : nat)
| OpCreateAlarmEx (alarm : nat) (name' : option nat)
| OpSetAlarm (core alarm : nat) (time : Z) (cb : option nat)
| OpSetPeriodicAlarm (core alarm : nat) (start interval : Z) (cb : option nat)
| OpCancelAlarm (alarm : nat)
| OpCancelAlarms (alarmTag' : Z)
| OpCheckAlarms (core : nat) (ctx : option nat)
| OpSetAlarmTag (alarm : nat) (alarmTag' : Z)
| OpSetAlarmUserData (alarm : nat) (data : nat).

Definition on_core {A} (core : nat) (m : M A) : M A :=
  update (with_core core);; m.

Definition discard {A} (m : M A) : M unit := m;; mret tt.

Section Operations.

Variable OSAlarm_Tag : Z.
Variable run_callback : nat → nat → option nat → World → World.

Definition run_op (op : Op) : M unit :=
  match op with
  | OpCreateAlarm alarm => OSCreateAlarm OSAlarm_Tag alarm
  | OpCreateAlarmEx alarm name' => OSCreateAlarmEx OSAlarm_Tag alarm name'
  | OpSetAlarm core alarm time cb =>
      discard (on_core core (OSSetAlarm alarm time cb))
  | OpSetPeriodicAlarm core alarm start interval cb =>
      discard (on_core core (OSSetPeriodicAlarm alarm start interval cb))
  | OpCancelAlarm alarm => discard (OSCancelAlarm alarm)
  | OpCancelAlarms alarmTag' => OSCancelAlarms alarmTag'
  | OpCheckAlarms core ctx => OSCheckAlarms run_callback core ctx
  | OpSetAlarmTag alarm alarmTag' => OSSetAlarmTag alarm alarmTag'
  | OpSetAlarmUserData alarm data => OSSetAlarmUserData alarm data
  end.

(** Operations one after the other. *)
Fixpoint run_ops (ops : list Op) : M unit :=
  match ops with
  | [] => mret tt
  | op :: rest => run_op op;; run_ops rest
  end.

(** Worlds reached from [w] by operations that all satisfy [allow]. *)
Inductive steps (allow : World → Op → Prop) (w : World) : World → Prop :=
| steps_refl : steps allow w w
| steps_step w1 op w2 :
    steps allow w w1 → allow w1 op → run_op op w1 = Ok tt w2 →
    steps allow w w2.

(** Worlds reached from [w] by operations that all satisfy [allow],
    where the scans of the trigger engine may visit any alarms: the
    runs of the source, whatever its walk of the links does when
    callbacks arm and cancel alarms. *)
Inductive runs (allow : World → Op → Prop) (w : World) : World → Prop :=
| runs_refl : runs allow w w
| runs_step w1 op w2 :
    runs allow w w1 → allow w1 op → run_op op w1 = Ok tt w2 →
    runs allow w w2
| runs_scan w1 visited core ctx w2 :
    runs allow w w1 →
    OSCheckAlarms_along run_callback visited core ctx w1 = Ok tt w2 →
    runs allow w w2.

(** No restriction on the operations. *)
Definition any_op (_ : World) (_ : Op) : Prop := True.

(** [OSCreateAlarm] and [OSCreateAlarmEx] are applied to storage that
    is not linked into a queue. *)
Definition create_unlinked (w : World) (op : Op) : Prop :=
  match op with
  | OpCreateAlarm alarm | OpCreateAlarmEx alarm _ => ∀ q, ¬ linked w alarm q
  | _ => True
  end.

(** The addresses [op] uses are valid in [w]: the alarm is not null
    (create) or holds a record (the others), the core has a queue, and
    [OSCancelAlarms] finds the three queues it walks. *)
Definition addressed (w : World) (op : Op) : Prop :=
  match op with
  | OpCreateAlarm alarm | OpCreateAlarmEx alarm _ => alarm ≠ 0%nat
  | OpSetAlarm core alarm _ _ | OpSetPeriodicAlarm core alarm _ _ _ =>
      is_Some (mem w !! alarm) ∧ (core < length (gAlarmQueue w))%nat
  | OpCancelAlarm alarm | OpSetAlarmTag alarm _ | OpSetAlarmUserData alarm _ =>
      is_Some (mem w !! alarm)
  | OpCancelAlarms _ => (3 ≤ length (gAlarmQueue w))%nat
  | OpCheckAlarms core _ => (core < length (gAlarmQueue w))%nat
  end.

(** [op] arms the alarm at [p]. *)
Definition arms (p : nat) (op : Op) : Prop :=
  match op with
  | OpSetAlarm _ alarm _ _ | OpSetPeriodicAlarm _ alarm _ _ _ => alarm = p
  | _ => False
  end.

(** Operations that respect [create_unlinked] and do not arm [p]. *)
Definition leaves_idle (p : nat) (w : World) (op : Op) : Prop :=
  create_unlinked w op ∧ ¬ arms p op.

End Operations.

(** The world after [CoreInit::initialiseAlarm] on a machine whose
    memory holds no alarm record yet. *)
Definition boot (CoreCount : nat) (clock' : nat → Z) : World :=
  initialiseAlarm CoreCount (mkWorld ∅ [] false ∅ clock' 0 0 0 [] [] []).

(** The period of an alarm that is not armed is zero, as create,
    cancel and a one-shot fire leave it. *)
Definition idle_period_cleared (w : World) : Prop :=
  ∀ p a, mem w !! p = Some a → state a ≠ AlarmSet → period a = 0.

(** The invariant of the records and the queues. *)
Definition consistent (w : World) : Prop := wf w ∧ idle_period_cleared w.

(** Callbacks that call back into the facility: whatever they do to the
    alarms, they leave the records and the queues consistent, as the
    operations of the facility do. *)
Definition callbacks_reenter
    (run_callback : nat → nat → option nat → World → World) : Prop :=
  ∀ cb alarm ctx w, consistent w → consistent (run_callback cb alarm ctx w).

(** A callback leaves the alarm records and the queues as they are: it
    does not call back into the facility. *)
Definition callbacks_frame
    (run_callback : nat → nat → option nat → World → World) : Prop :=
  ∀ cb alarm ctx w,
    mem (run_callback cb alarm ctx w) = mem w ∧
    gAlarmQueue (run_callback cb alarm ctx w) = gAlarmQueue w.

(** A callback that returns at once. *)
Definition idle_callback (_ _ : nat) (_ : option nat) (w : World) : World := w.

(** The operations [ops], run one after the other from [w], apply
    [OSCreateAlarm] and [OSCreateAlarmEx] to unlinked storage only. *)
Fixpoint admissible (OSAlarm_Tag : Z) (ops : list Op) (w : World) : Prop :=
  match ops with
  | [] => True
  | op :: rest =>
      create_unlinked w op ∧
      ∀ w', run_op OSAlarm_Tag idle_callback op w = Ok tt w' →
            admissible OSAlarm_Tag rest w'
  end.

(** The callback that runs the operations [script] names for it; it
    has no effect if one of them stops. *)
Definition calls (OSAlarm_Tag : Z)
    (script : nat → nat → option nat → World → list Op)
    (cb alarm : nat) (ctx : option nat) (w : World) : World :=
  match run_ops OSAlarm_Tag idle_callback (script cb alarm ctx w) w with
  | Ok _ w' => w'
  | Err _ => w
  end.

(** ** Vocabulary of the proofs *)

(** The call to [OSEraseFromQueue] made for an alarm whose back pointer
    is [q]. *)
Definition erase_events (q : option nat) (p : nat) : list Event :=
  match q with
  | Some queue => [EvEraseFromQueue queue p]
  | None => []
  end.

(** The world in which the caller of [OSWaitAlarm] is descheduled: it
    sits in the wait set of the alarm and the lock is released. *)
Definition suspended (alarm : nat) (a : OSAlarm) (w : World) : World :=
  with_lock false
    (with_trace (trace w ++ [EvLockScheduler; EvAcquire;
                             EvSleepThread alarm (current_thread w);
                             EvRelease; EvReschedule])
       (with_mem
          (<[alarm := set_threadQueue (threadQueue a ++ [current_thread w]) a]>
             (mem w)) w)).

(** [next] after the loop body of [OSCheckAlarms] looked at record
    [a]. *)
Definition earlier (a : OSAlarm) (next : time_point) : time_point :=
  if decide (state a = AlarmSet ∧ nextFire a ≠ 0) then
    if time_lt (TimeAt (nextFire a)) next then TimeAt (nextFire a) else next
  else next.

(** The fire times [OSCheckAlarms] takes into account. *)
Definition nonzero (t : Z) : Prop := t ≠ 0.

(** The loop invariant of [OSCheckAlarms] on the queue of [core], whose
    members were [l0] in world [w0] when the loop started; [rest] is
    still to be visited. *)
Definition scanning (core : nat) (l0 : list nat) (w0 : World)
    (rest : list nat) (next : time_point) (w : World) : Prop :=
  wf w ∧ gAlarmLock w = true ∧
  (∃ done, l0 = done ++ rest ∧ earliest w done nonzero next) ∧
  NoDup l0 ∧
  (∀ p, p ∈ rest → linked w p core) ∧
  (∀ p, linked w p core → p ∈ l0) ∧
  (∀ p a, p ∈ l0 → mem w !! p = Some a → alarmQueue a = Some core) ∧
  (∀ p, p ∉ l0 → mem w !! p = mem w0 !! p) ∧
  (∀ q, q ≠ core → gAlarmQueue w !! q = gAlarmQueue w0 !! q) ∧
  is_Some (gAlarmQueue w !! core) ∧
  length (gAlarmQueue w) = length (gAlarmQueue w0).

(** Every member of queue [i] with tag [t] is in [rest]. *)
Definition clean (t : Z) (w : World) (i : nat) (rest : list nat) : Prop :=
  ∀ p a, linked w p i → mem w !! p = Some a → p ∈ rest ∨ alarmTag a ≠ t.

(** The loop invariant of [OSCancelAlarms], [w0] being the world in
    which the lock was taken: every alarm is as it was or was cancelled
    for its tag, and the links are those of the alarms still armed. *)
Definition cancelling (t : Z) (w0 w : World) : Prop :=
  wf w ∧ gAlarmLock w = true ∧
  length (gAlarmQueue w) = length (gAlarmQueue w0) ∧
  (∀ p, mem w0 !! p = None → mem w !! p = None) ∧
  (∀ p a, mem w0 !! p = Some a →
     mem w !! p = Some a ∨
     (state a = AlarmSet ∧ alarmTag a = t ∧
      mem w !! p = Some (cancelled a) ∧
      ∀ th, th ∈ threadQueue a → th ∈ ready w)) ∧
  (∀ p q, linked w p q ↔
          linked w0 p q ∧ ∃ a, mem w !! p = Some a ∧ state a = AlarmSet) ∧
  (∃ r, ready w = ready w0 ++ r) ∧
  (∃ evs, trace w = trace w0 ++ evs ∧ lock_untouched evs).

(** ** Vocabulary of the further properties *)

(** What a scan whose clock reading was [now] makes of the record [a]
    of a member of the scanned queue: a due alarm fired, [t] being the
    clock reading taken while it fired, and any other is as it was. *)
Definition scan_outcome (now : Z) (ctx : option nat) (a a' : OSAlarm)
    : Prop :=
  (due now a → ∃ t, a' = fired ctx t a) ∧ (¬ due now a → a' = a).

(** The records during the loop of [OSCheckAlarms]: the members still
    to be visited are as they were when the loop started in [w0], the
    members visited show the outcome of the scan. *)
Definition outcomes (now : Z) (ctx : option nat) (l0 : list nat)
    (w0 : World) (rest : list nat) (w : World) : Prop :=
  (∀ p, p ∈ rest → mem w !! p = mem w0 !! p) ∧
  (∀ p a, p ∈ l0 → p ∉ rest → mem w0 !! p = Some a →
     ∃ a', mem w !! p = Some a' ∧ scan_outcome now ctx a a').

(** The record of an alarm when its callback is called: rescheduled or
    retired, its wait set not yet woken. *)
Definition triggered (ctx : option nat) (t : Z) (a : OSAlarm) : OSAlarm :=
  if decide (period a ≠ 0)
  then set_state AlarmSet
         (set_nextFire (OSTime_add t (period a)) (set_context ctx a))
  else set_state AlarmNone (set_nextFire 0 (set_context ctx a)).

(** The ways in which an operation changes the record [a] of the alarm
    at [p] into [a']: create, arm, set the tag and set the user data
    when they name the alarm, cancel when it names the alarm and the
    alarm is armed, cancel by tag when the alarm is armed with that
    tag, and a scan of the core whose queue the alarm is armed in. *)
Definition record_step (OSAlarm_Tag : Z) (p : nat) (op : Op)
    (a a' : OSAlarm) : Prop :=
  match op with
  | OpCreateAlarm alarm =>
      alarm = p ∧ a' = set_name None (set_tag OSAlarm_Tag zero_alarm)
  | OpCreateAlarmEx alarm name' =>
      alarm = p ∧ a' = set_name name' (set_tag OSAlarm_Tag zero_alarm)
  | OpSetAlarm core alarm _ cb =>
      alarm = p ∧ ∃ start, a' = armed start 0 cb core a
  | OpSetPeriodicAlarm core alarm start interval cb =>
      alarm = p ∧ a' = armed start interval cb core a
  | OpCancelAlarm alarm =>
      alarm = p ∧ state a = AlarmSet ∧ a' = cancelled a
  | OpCancelAlarms alarmTag' =>
      alarmTag a = alarmTag' ∧ state a = AlarmSet ∧ a' = cancelled a
  | OpCheckAlarms core ctx =>
      alarmQueue a = Some core ∧ state a = AlarmSet ∧
      ∃ t, a' = fired ctx t a
  | OpSetAlarmTag alarm alarmTag' => alarm = p ∧ a' = set_alarmTag alarmTag' a
  | OpSetAlarmUserData alarm data => alarm = p ∧ a' = set_userData data a
  end.

(** [op] can change the record [a] of the alarm at [p]: it names the
    alarm, or cancels the tag of the armed alarm, or scans the core in
    whose queue the alarm is armed. *)
Definition concerns (p : nat) (a : OSAlarm) (op : Op) : Prop :=
  match op with
  | OpCreateAlarm alarm | OpCreateAlarmEx alarm _ | OpSetAlarm _ alarm _ _
  | OpSetPeriodicAlarm _ alarm _ _ _ | OpCancelAlarm alarm
  | OpSetAlarmTag alarm _ | OpSetAlarmUserData alarm _ => alarm = p
  | OpCancelAlarms alarmTag' => alarmTag a = alarmTag' ∧ state a = AlarmSet
  | OpCheckAlarms core _ => alarmQueue a = Some core ∧ state a = AlarmSet
  end.

(** Operations that respect [create_unlinked] and neither create the
    alarm at [p] nor set its user data. *)
Definition keeps_user_data (p : nat) (w : World) (op : Op) : Prop :=
  create_unlinked w op ∧
  match op with
  | OpCreateAlarm alarm | OpCreateAlarmEx alarm _
  | OpSetAlarmUserData alarm _ => alarm ≠ p
  | _ => True
  end.

(** Operations that respect [create_unlinked] and neither create, arm
    or cancel the alarm at [p] nor cancel the tag it carries. *)
Definition lets_run (p : nat) (w : World) (op : Op) : Prop :=
  create_unlinked w op ∧
  match op with
  | OpCreateAlarm alarm | OpCreateAlarmEx alarm _ | OpSetAlarm _ alarm _ _
  | OpSetPeriodicAlarm _ alarm _ _ _ | OpCancelAlarm alarm => alarm ≠ p
  | OpCancelAlarms alarmTag' =>
      ∀ a, mem w !! p = Some a → alarmTag a ≠ alarmTag'
  | _ => True
  end.

(** A computation entered with the alarm lock in state [P] leaves it
    in state [Q] when it returns, and makes no access to an alarm
    record without holding the lock. *)
Definition guarded {A} (P : bool) (m : M A) (Q : bool) : Prop :=
  ∀ w r w', gAlarmLock w = P → m w = Ok r w' →
    gAlarmLock w' = Q ∧ unguarded w' = unguarded w.

(** Guest code that makes no access to an alarm record without holding
    the lock. *)
Definition quiet (f : World → World) : Prop :=
  ∀ w, unguarded (f w) = unguarded w.

Definition callbacks_quiet
    (run_callback : nat → nat → option nat → World → World) : Prop :=
  ∀ cb alarm ctx, quiet (run_callback cb alarm ctx).

(** A computation entered with the alarm lock in state [P] leaves it
    in state [Q] when it returns, and the accesses it makes without the
    lock are to alarms of [L], in the order of [L] and at most as often
    as they occur in it. *)
Definition guarded_within {A} (L : list nat) (P : bool) (m : M A)
    (Q : bool) : Prop :=
  ∀ w r w', gAlarmLock w = P → m w = Ok r w' →
    gAlarmLock w' = Q ∧ ∃ l, unguarded w' = unguarded w ++ l ∧ sublist l L.

(** The accesses that an operation other than a scan makes without the
    lock: [OSCreateAlarm] and [OSCreateAlarmEx] write the record four
    times. *)
Definition unlocked_writes (op : Op) : list nat :=
  match op with
  | OpCreateAlarm alarm | OpCreateAlarmEx alarm _ => [alarm; alarm; alarm; alarm]
  | _ => []
  end.

(** ** Example worlds *)

(** A value for [OSAlarm::Tag] in the examples. *)
Definition demo_tag : Z := 1632399949.

(** A clock that advances by seven ticks between two readings, and one
    that stands still. *)
Definition ticking (n : nat) : Z := 100 + 7 * Z.of_nat n.
Definition steady (_ : nat) : Z := 100.

(** The world a computation leaves, the given one if it stops. *)
Definition after {A} (m : M A) (w : World) : World :=
  match m w with
  | Ok _ w' => w'
  | Err _ => w
  end.

(** Three armed alarms on a machine of three cores: on core 0 a
    periodic one with one waiter and a one-shot one, on core 1 a
    one-shot one with a callback and two waiters; the first and the
    third carry the tag 7, the second the tag 9. *)
Definition demo_alarm1 : OSAlarm :=
  mkAlarm demo_tag None None 7 None 50 10 AlarmSet [11%nat] (Some 0%nat) 0%nat.
Definition demo_alarm2 : OSAlarm :=
  mkAlarm demo_tag None None 9 None 80 0 AlarmSet [] (Some 0%nat) 0%nat.
Definition demo_alarm3 : OSAlarm :=
  mkAlarm demo_tag None (Some 5%nat) 7 None 500 0 AlarmSet [12%nat; 13%nat]
          (Some 1%nat) 0%nat.

Definition demo_world : World :=
  mkWorld (<[1%nat := demo_alarm1]>
             (<[2%nat := demo_alarm2]> (<[3%nat := demo_alarm3]> ∅)))
          [[1%nat; 2%nat]; [3%nat]; []] false ∅ ticking 0 0 20 [] [] [].



(** Armed storage that was never initialised: its tag is not
    [demo_tag]. *)
Definition foreign_alarm : OSAlarm :=
  mkAlarm 0 None None 0 None 50 0 AlarmSet [] (Some 0%nat) 0%nat.

Definition foreign_world : World :=
  mkWorld (<[1%nat := foreign_alarm]> ∅) [[1%nat]; []; []] false ∅ steady
          0 0 20 [] [] [].

(** A machine of four cores with one alarm, armed on the fourth core
    and carrying the tag 7. *)
Definition fourth_core_alarm : OSAlarm :=
  mkAlarm demo_tag None None 7 None 50 0 AlarmSet [] (Some 3%nat) 0%nat.

Definition four_core_world : World :=
  mkWorld (<[1%nat := fourth_core_alarm]> ∅) [[]; []; []; [1%nat]] false ∅
          steady 0 0 20 [] [] [].

(** The machine after [OSCreateAlarm] was applied to an alarm that is
    armed on core 0: create, arm, create. *)
Definition recreated_world : World :=
  after (run_ops demo_tag idle_callback
           [OpCreateAlarm 1; OpSetAlarm 0 1 100 None; OpCreateAlarm 1])
        (boot 3 ticking).

(** Callbacks that call back into the facility: callback 5 arms the
    alarm at address 4 to fire 900 ticks later, callback 6 arms its own
    alarm again in the same way; the others return at once. *)
Definition reentrant_script (cb alarm : nat) (_ : option nat) (w : World)
    : list Op :=
  match cb with
  | 5%nat => [OpSetAlarm (core_id w) 4 900 None]
  | 6%nat => [OpSetAlarm (core_id w) alarm 900 None]
  | _ => []
  end.

Definition reentrant_callback : nat → nat → option nat → World → World :=
  calls demo_tag reentrant_script.

(** A callback that creates its alarm anew. *)
Definition recreating_callback (_ alarm : nat) (_ : option nat) (w : World)
    : World :=
  after (OSCreateAlarmEx demo_tag alarm None) w.

(** A one-shot alarm with the callback [cb] and two waiters, armed on
    core 0 and due, next to an alarm that was created and never armed;
    the clock stands at 100. *)
Definition callback_alarm (cb : nat) : OSAlarm :=
  mkAlarm demo_tag None (Some cb) 0 None 50 0 AlarmSet [12%nat; 13%nat]
          (Some 0%nat) 0%nat.

Definition created_alarm : OSAlarm :=
  mkAlarm demo_tag None None 0 None 0 0 AlarmNone [] None 0%nat.

Definition callback_world (cb : nat) : World :=
  mkWorld (<[1%nat := callback_alarm cb]> (<[4%nat := created_alarm]> ∅))
          [[1%nat]; []; []] false ∅ steady 0 0 20 [] [] [].

(** The machine after [OSCreateAlarm] was applied to the first of two
    alarms armed on core 0: create both, arm both, create the first
    again. *)
Definition recreated_head_world : World :=
  after (run_ops demo_tag idle_callback
           [OpCreateAlarm 1; OpCreateAlarm 2; OpSetAlarm 0 1 100 None;
            OpSetAlarm 0 2 100 None; OpCreateAlarm 1])
        (boot 3 ticking).
(** ** Symbolic execution *)

Ltac munfold :=
  unfold OSWakeupThread, OSWakeupThreadNoLock, OSSleepThreadNoLock,
    setInterruptTimer, erase_if_linked, erase_from, OSLockScheduler,
    OSUnlockScheduler, acquire, release, call_field, call, OSRescheduleNoLock,
    OSGetTime, OSGetCoreId, gAlarmQueue_at, queue_members, OSAppendQueue,
    OSEraseFromQueue, assert, log, update, fault, load, store, memset_alarm,
    on_core, discard, mbind, M_bind, mret, M_ret in *.

Ltac mside := cbn in *; first [ done | congruence | lia | tauto ].

(** Updates and projections of a world whose fields are named. *)
Ltac wsimp :=
  cbv beta iota delta
    [with_mem with_queues with_lock with_timers with_ticks with_core
     with_ready with_trace with_unguarded touch
     mem gAlarmQueue gAlarmLock timers clock ticks core_id current_thread
     ready trace unguarded].

Ltac wsimp_in H :=
  cbv beta iota delta
    [with_mem with_queues with_lock with_timers with_ticks with_core
     with_ready with_trace with_unguarded touch
     mem gAlarmQueue gAlarmLock timers clock ticks core_id current_thread
     ready trace unguarded] in H.

(** Name the fields of the world, so that updates of it compute. *)
Ltac wopen w :=
  destruct w as [?wm ?wq ?wl ?wt ?wc ?wk ?wi ?wh ?wr ?we ?wu];
  cbn in *; subst.

Ltac mrun :=
  repeat first
    [ progress wsimp
    | progress cbn -[filter]
    | rewrite lookup_insert_eq
    | rewrite insert_insert_eq
    | rewrite decide_True by mside
    | rewrite decide_False by mside
    | rewrite bool_decide_eq_true_2 by mside
    | rewrite bool_decide_eq_false_2 by mside
    | match goal with
      | H : _ !! _ = Some _ |- _ => rewrite H
      | H : _ !! _ = None |- _ => rewrite H
      | H : alarmQueue _ = _ |- _ => rewrite H
      | H : callback _ = _ |- _ => rewrite H
      end ].

Ltac wdone := rewrite <- ?app_assoc; reflexivity.

(** Name the fields of the world a callback returns; by the frame
    condition its records and queues are those it was given. *)
Ltac wcallback Hf :=
  match goal with
  | |- context [?f ?cb ?p ?ctx (mkWorld ?m ?q ?l ?t ?c ?k ?i ?h ?r ?e ?u)] =>
      let Hm := fresh "Hm" in
      let Hq := fresh "Hq" in
      destruct (Hf cb p ctx (mkWorld m q l t c k i h r e u)) as [Hm Hq];
      destruct (f cb p ctx (mkWorld m q l t c k i h r e u))
        as [?wm ?wq ?wl ?wt ?wc ?wk ?wi ?wh ?wr ?we ?wu];
      cbn in Hm, Hq; subst
  end.

(** ** Queue facts *)

Lemma linked_ext w1 w2 p q :
  gAlarmQueue w1 = gAlarmQueue w2 → linked w1 p q ↔ linked w2 p q.
Proof. unfold linked. by intros ->. Qed.

Lemma elem_of_unlink (p x : nat) (l : list nat) :
  x ∈ filter (λ y, y ≠ p) l ↔ x ∈ l ∧ x ≠ p.
Proof. rewrite list_elem_of_filter. tauto. Qed.

Lemma unlink_absent (p : nat) (l : list nat) :
  p ∉ l → filter (λ y, y ≠ p) l = l.
Proof.
  induction l as [|x l IH]; [done|].
  intros Hp. rewrite filter_cons_True.
  - f_equal. apply IH. set_solver.
  - set_solver.
Qed.

Lemma cut_behind_absent (p : nat) (l : list nat) :
  p ∉ l → cut_behind p l = l.
Proof.
  induction l as [|x l IH]; [done|]. intros Hp. cbn.
  rewrite decide_False by (intros ->; apply Hp; by left).
  f_equal. apply IH. intros H. apply Hp. by right.
Qed.

Lemma cut_behind_unlinked w p :
  (∀ q, ¬ linked w p q) → cut_behind p <$> gAlarmQueue w = gAlarmQueue w.
Proof.
  intros Hp. apply list_eq. intros i. rewrite list_lookup_fmap.
  destruct (gAlarmQueue w !! i) as [l|] eqn:Hl; [|done].
  cbn. f_equal. apply cut_behind_absent. intros Hin. apply (Hp i).
  by exists l.
Qed.

Lemma NoDup_unlink (p : nat) (l : list nat) :
  NoDup l → NoDup (filter (λ y, y ≠ p) l).
Proof. apply NoDup_filter. Qed.

Lemma length_linked_into c p (Q : list (list nat)) :
  length (linked_into c p Q) = length Q.
Proof.
  unfold linked_into. destruct (Q !! c); by rewrite ?length_insert.
Qed.

Lemma length_unlinked_from q p (Q : list (list nat)) :
  length (unlinked_from q p Q) = length Q.
Proof.
  unfold unlinked_from. destruct q as [q|]; [|done].
  destruct (Q !! q); by rewrite ?length_insert.
Qed.

(** ** The wait set *)

Lemma OSWakeupThreadNoLock_run w p a :
  gAlarmLock w = true → mem w !! p = Some a →
  OSWakeupThreadNoLock p w =
  Ok tt (with_trace (trace w ++ [EvWakeupThread p (threadQueue a)])
          (with_ready (ready w ++ threadQueue a)
             (with_mem (<[p := set_threadQueue [] a]> (mem w)) w))).
Proof.
  intros Hl Hm. wopen w. munfold. by mrun.
Qed.

(** ** Cancel *)

Lemma touch_locked p w : gAlarmLock w = true → touch p w = w.
Proof. intros H. destruct w; cbn in *; subst. reflexivity. Qed.

Lemma OSCancelAlarmNoLock_idle w p a :
  gAlarmLock w = true → mem w !! p = Some a → state a ≠ AlarmSet →
  OSCancelAlarmNoLock p w = Ok false w.
Proof.
  intros Hl Hm Hs. wopen w. unfold OSCancelAlarmNoLock. munfold. by mrun.
Qed.

Lemma OSCancelAlarmNoLock_armed w p a :
  gAlarmLock w = true → mem w !! p = Some a → state a = AlarmSet →
  (∀ q, alarmQueue a = Some q → is_Some (gAlarmQueue w !! q)) →
  OSCancelAlarmNoLock p w =
  Ok true
    (with_trace (trace w ++ erase_events (alarmQueue a) p ++
                   [EvLockScheduler; EvWakeupThread p (threadQueue a);
                    EvUnlockScheduler])
       (with_ready (ready w ++ threadQueue a)
          (with_queues (unlinked_from (alarmQueue a) p (gAlarmQueue w))
             (with_mem (<[p := cancelled a]> (mem w)) w)))).
Proof.
  intros Hl Hm Hs Hq. wopen w. unfold OSCancelAlarmNoLock. munfold. mrun.
  destruct (alarmQueue a) as [q|] eqn:Eq.
  - destruct (Hq q eq_refl) as [l Hlq]. mrun. wdone.
  - mrun. wdone.
Qed.

Lemma OSCancelAlarm_idle w p a :
  mem w !! p = Some a → state a ≠ AlarmSet →
  OSCancelAlarm p w =
  Ok false (with_lock false
              (with_trace (trace w ++ [EvAcquire; EvRelease]) w)).
Proof.
  intros Hm Hs. wopen w. unfold OSCancelAlarm, OSCancelAlarmNoLock.
  munfold. mrun. wdone.
Qed.

Lemma OSCancelAlarm_armed w p a :
  mem w !! p = Some a → state a = AlarmSet →
  (∀ q, alarmQueue a = Some q → is_Some (gAlarmQueue w !! q)) →
  OSCancelAlarm p w =
  Ok true
    (with_lock false
       (with_trace (trace w ++ EvAcquire :: erase_events (alarmQueue a) p ++
                      [EvLockScheduler; EvWakeupThread p (threadQueue a);
                       EvUnlockScheduler; EvRelease])
          (with_ready (ready w ++ threadQueue a)
             (with_queues (unlinked_from (alarmQueue a) p (gAlarmQueue w))
                (with_mem (<[p := cancelled a]> (mem w)) w))))).
Proof.
  intros Hm Hs Hq. wopen w. unfold OSCancelAlarm, OSCancelAlarmNoLock.
  munfold. mrun.
  destruct (alarmQueue a) as [q|] eqn:Eq.
  - destruct (Hq q eq_refl) as [l Hlq]. mrun. wdone.
  - mrun. wdone.
Qed.

(** ** Arm *)

Lemma OSSetPeriodicAlarm_run w p a start interval cb members :
  mem w !! p = Some a →
  (∀ q, alarmQueue a = Some q → is_Some (gAlarmQueue w !! q)) →
  gAlarmQueue w !! core_id w = Some members →
  OSSetPeriodicAlarm p start interval cb w =
  Ok true
    (with_lock false
       (with_trace (trace w ++ EvAcquire :: erase_events (alarmQueue a) p ++
                      [EvAppendQueue (core_id w) p;
                       EvSetInterruptTimer (core_id w) (TimeAt start);
                       EvRelease])
          (with_timers (<[core_id w := TimeAt start]> (timers w))
             (with_queues
                (linked_into (core_id w) p
                   (unlinked_from (alarmQueue a) p (gAlarmQueue w)))
                (with_mem
                   (<[p := armed start interval cb (core_id w) a]> (mem w))
                   w))))).
Proof.
  intros Hm Hq Hc. wopen w. unfold OSSetPeriodicAlarm. munfold. mrun.
  destruct (alarmQueue a) as [q|] eqn:Eq.
  - destruct (Hq q eq_refl) as [l Hlq]. mrun.
    assert (Hc' : is_Some (<[q:=filter (λ x, x ≠ p) l]> wq !! wi)).
    { apply lookup_lt_is_Some. rewrite length_insert.
      eapply lookup_lt_Some; eauto. }
    destruct Hc' as [l' Hl']. unfold linked_into. rewrite !Hl'. mrun.
    wdone.
  - unfold linked_into. mrun. wdone.
Qed.

Lemma OSSetAlarm_unfold p time cb w :
  OSSetAlarm p time cb w =
  OSSetPeriodicAlarm p (OSTime_add (clock w (ticks w)) time) 0 cb
    (with_ticks (S (ticks w)) w).
Proof. reflexivity. Qed.

(** ** Create and the accessors *)

Lemma OSCreateAlarmEx_run Tag w p name' :
  p ≠ 0%nat →
  OSCreateAlarmEx Tag p name' w =
  Ok tt (with_unguarded
           (if gAlarmLock w then unguarded w
            else unguarded w ++ [p; p; p; p])
           (with_queues (cut_behind p <$> gAlarmQueue w)
              (with_mem
                 (<[p := set_name name' (set_tag Tag zero_alarm)]> (mem w))
                 w))).
Proof.
  intros Hp. wopen w. unfold OSCreateAlarmEx. munfold. mrun.
  destruct wl; mrun; wdone.
Qed.

(** Create on storage that is not linked into a queue. *)
Lemma OSCreateAlarmEx_fresh Tag w p name' :
  p ≠ 0%nat → (∀ q, ¬ linked w p q) →
  OSCreateAlarmEx Tag p name' w =
  Ok tt (with_unguarded
           (if gAlarmLock w then unguarded w
            else unguarded w ++ [p; p; p; p])
           (with_mem (<[p := set_name name' (set_tag Tag zero_alarm)]> (mem w))
              w)).
Proof.
  intros Hp Hun. rewrite OSCreateAlarmEx_run by done.
  rewrite (cut_behind_unlinked w p Hun). by destruct w.
Qed.

Lemma OSSetAlarmTag_run w p a t :
  mem w !! p = Some a →
  OSSetAlarmTag p t w =
  Ok tt (with_lock false
           (with_trace (trace w ++ [EvAcquire; EvRelease])
              (with_mem (<[p := set_alarmTag t a]> (mem w)) w))).
Proof. intros Hm. wopen w. unfold OSSetAlarmTag. munfold. mrun. wdone. Qed.

Lemma OSSetAlarmUserData_run w p a d :
  mem w !! p = Some a →
  OSSetAlarmUserData p d w =
  Ok tt (with_lock false
           (with_trace (trace w ++ [EvAcquire; EvRelease])
              (with_mem (<[p := set_userData d a]> (mem w)) w))).
Proof.
  intros Hm. wopen w. unfold OSSetAlarmUserData. munfold. mrun. wdone.
Qed.

Lemma OSGetAlarmUserData_run w p a :
  mem w !! p = Some a →
  OSGetAlarmUserData p w = Ok (userData a) (touch p w).
Proof.
  intros Hm. wopen w. unfold OSGetAlarmUserData. munfold. mrun. wdone.
Qed.

(** ** Wait *)

Lemma OSWaitAlarm_idle Tag others w p a :
  p ≠ 0%nat → mem w !! p = Some a → tag a = Tag → state a ≠ AlarmSet →
  OSWaitAlarm Tag others p w =
  Ok false (with_lock false
              (with_trace (trace w ++ [EvLockScheduler; EvAcquire; EvRelease;
                                       EvUnlockScheduler]) w)).
Proof.
  intros Hp Hm Ht Hs. wopen w. unfold OSWaitAlarm. munfold. mrun. wdone.
Qed.

Lemma OSWaitAlarm_armed Tag others w p a a' :
  p ≠ 0%nat → mem w !! p = Some a → tag a = Tag → state a = AlarmSet →
  mem (others (suspended p a w)) !! p = Some a' →
  OSWaitAlarm Tag others p w =
  Ok (bool_decide (state a' ≠ AlarmCancelled))
     (with_lock false
        (with_trace (trace (others (suspended p a w)) ++
                       [EvAcquire; EvRelease; EvUnlockScheduler])
           (others (suspended p a w)))).
Proof.
  intros Hp Hm Ht Hs. unfold suspended. wopen w.
  unfold OSWaitAlarm. munfold. mrun. rewrite <- !app_assoc. cbn.
  match goal with |- context [others ?W] => generalize (others W) end.
  intros W' Hm'. wopen W'. mrun. wdone.
Qed.

Lemma OSWaitAlarm_null Tag others w :
  OSWaitAlarm Tag others 0%nat w = Err AssertionFailed.
Proof. wopen w. unfold OSWaitAlarm. munfold. by mrun. Qed.

Lemma OSWaitAlarm_bad_tag Tag others w p a :
  p ≠ 0%nat → mem w !! p = Some a → tag a ≠ Tag →
  OSWaitAlarm Tag others p w = Err AssertionFailed.
Proof. intros Hp Hm Ht. wopen w. unfold OSWaitAlarm. munfold. by mrun. Qed.


(** ** The structural invariant *)

Lemma wf_ext w1 w2 :
  mem w1 = mem w2 → gAlarmQueue w1 = gAlarmQueue w2 → wf w1 → wf w2.
Proof.
  intros Hm Hq [H1 H2 H3 H4 H5].
  split; unfold linked in *; rewrite <- ?Hm, <- ?Hq; eauto.
Qed.

(** In a well-formed world, removing an alarm from the queue it points
    to removes it from every queue. *)
Lemma unlinked_from_everywhere w p a :
  wf w → mem w !! p = Some a →
  unlinked_from (alarmQueue a) p (gAlarmQueue w) =
  filter (λ x, x ≠ p) <$> gAlarmQueue w.
Proof.
  intros Hwf Hm. apply list_eq. intros i.
  rewrite list_lookup_fmap. unfold unlinked_from.
  assert (Hother : ∀ l, gAlarmQueue w !! i = Some l →
                        alarmQueue a ≠ Some i → filter (λ x, x ≠ p) l = l).
  { intros l Hl Hne. apply unlink_absent. intros Hin.
    destruct (wf_member w Hwf i l p Hl Hin) as (a' & Ha' & _ & Hq').
    congruence. }
  destruct (alarmQueue a) as [q|] eqn:Eq.
  - destruct (gAlarmQueue w !! q) as [l|] eqn:Hl.
    + destruct (decide (i = q)) as [->|Hne].
      * rewrite list_lookup_insert_eq by (eapply lookup_lt_Some; eauto).
        by rewrite Hl.
      * rewrite list_lookup_insert_ne by done.
        destruct (gAlarmQueue w !! i) as [l'|] eqn:Hl'; [|done].
        cbn. f_equal. symmetry. apply Hother; congruence.
    + destruct (gAlarmQueue w !! i) as [l'|] eqn:Hl'; [|done].
      cbn. f_equal. symmetry. apply Hother; congruence.
  - destruct (gAlarmQueue w !! i) as [l'|] eqn:Hl'; [|done].
    cbn. f_equal. symmetry. apply Hother; congruence.
Qed.

Lemma linked_after_removal w w' p x q :
  gAlarmQueue w' = filter (λ y, y ≠ p) <$> gAlarmQueue w →
  linked w' x q ↔ linked w x q ∧ x ≠ p.
Proof.
  intros Hq. unfold linked. rewrite Hq. split.
  - intros (l & Hl & Hin). rewrite list_lookup_fmap in Hl.
    destruct (gAlarmQueue w !! q) as [l0|] eqn:E; [|done].
    cbn in Hl. injection Hl as <-. apply elem_of_unlink in Hin as [Hin Hne].
    eauto.
  - intros [(l & Hl & Hin) Hne]. exists (filter (λ y, y ≠ p) l).
    rewrite list_lookup_fmap, Hl. split; [done|].
    by apply elem_of_unlink.
Qed.

(** The alarm at [p] becomes idle and leaves the queues. *)
Lemma wf_remove w w' p a' :
  wf w → state a' ≠ AlarmSet → nextFire a' = 0 →
  (∀ q, alarmQueue a' = Some q → (q < length (gAlarmQueue w))%nat) →
  mem w' = <[p := a']> (mem w) →
  gAlarmQueue w' = filter (λ y, y ≠ p) <$> gAlarmQueue w →
  wf w'.
Proof.
  intros Hwf Hs Hn Ho Hm Hq. split.
  - intros q l x Hl Hin.
    assert (Hlk : linked w' x q) by (exists l; eauto).
    apply (linked_after_removal w w' p x q Hq) in Hlk as [(l0 & Hl0 & Hin0) Hne].
    destruct (wf_member w Hwf q l0 x Hl0 Hin0) as (a & Ha & Hst & Hqa).
    exists a. rewrite Hm, lookup_insert_ne by done. eauto.
  - intros x a Ha Hst. rewrite Hm in Ha.
    destruct (decide (x = p)) as [->|Hne].
    + rewrite lookup_insert_eq in Ha. congruence.
    + rewrite lookup_insert_ne in Ha by done.
      destruct (wf_armed w Hwf x a Ha Hst) as (q & Hqa & Hlk).
      exists q. split; [done|].
      by apply (linked_after_removal w w' p x q Hq).
  - intros x a q Ha Hqa. rewrite Hq, length_fmap. rewrite Hm in Ha.
    destruct (decide (x = p)) as [->|Hne].
    + rewrite lookup_insert_eq in Ha. injection Ha as <-. eauto.
    + rewrite lookup_insert_ne in Ha by done. eapply wf_owner; eauto.
  - intros q l Hl. rewrite Hq, list_lookup_fmap in Hl.
    destruct (gAlarmQueue w !! q) as [l0|] eqn:E; [|done].
    cbn in Hl. injection Hl as <-. apply NoDup_unlink.
    eapply wf_nodup; eauto.
  - intros x a Ha Hst. rewrite Hm in Ha.
    destruct (decide (x = p)) as [->|Hne].
    + rewrite lookup_insert_eq in Ha. congruence.
    + rewrite lookup_insert_ne in Ha by done. eapply wf_idle; eauto.
Qed.

(** The alarm at [p] changes in fields the invariant does not read. *)
Lemma wf_keep w w' p a a' :
  wf w → mem w !! p = Some a →
  state a' = state a → alarmQueue a' = alarmQueue a →
  (state a ≠ AlarmSet → nextFire a' = 0) →
  mem w' = <[p := a']> (mem w) → gAlarmQueue w' = gAlarmQueue w →
  wf w'.
Proof.
  intros Hwf Ha Hs Hqa Hn Hm Hq. split.
  - intros q l x Hl Hin. rewrite Hq in Hl.
    destruct (wf_member w Hwf q l x Hl Hin) as (ax & Hax & Hst & Hqx).
    destruct (decide (x = p)) as [->|Hne].
    + exists a'. rewrite Hm, lookup_insert_eq.
      assert (ax = a) by congruence. subst ax.
      repeat split; congruence.
    + exists ax. rewrite Hm, lookup_insert_ne by done. eauto.
  - intros x ax Hax Hst. rewrite Hm in Hax.
    setoid_rewrite (linked_ext w' w x _ Hq).
    destruct (decide (x = p)) as [->|Hne].
    + rewrite lookup_insert_eq in Hax. injection Hax as <-.
      rewrite Hqa. eapply wf_armed; eauto. congruence.
    + rewrite lookup_insert_ne in Hax by done. eapply wf_armed; eauto.
  - intros x ax q Hax Hqx. rewrite Hq. rewrite Hm in Hax.
    destruct (decide (x = p)) as [->|Hne].
    + rewrite lookup_insert_eq in Hax. injection Hax as <-.
      eapply wf_owner; eauto. congruence.
    + rewrite lookup_insert_ne in Hax by done. eapply wf_owner; eauto.
  - intros q l Hl. rewrite Hq in Hl. eapply wf_nodup; eauto.
  - intros x ax Hax Hst. rewrite Hm in Hax.
    destruct (decide (x = p)) as [->|Hne].
    + rewrite lookup_insert_eq in Hax. injection Hax as <-.
      apply Hn. congruence.
    + rewrite lookup_insert_ne in Hax by done. eapply wf_idle; eauto.
Qed.

(** The alarm at [p] becomes armed and moves to the tail of queue
    [c]. *)
Lemma wf_insert w w' p a' c :
  wf w → (c < length (gAlarmQueue w))%nat →
  state a' = AlarmSet → alarmQueue a' = Some c →
  mem w' = <[p := a']> (mem w) →
  gAlarmQueue w' =
    linked_into c p (filter (λ y, y ≠ p) <$> gAlarmQueue w) →
  wf w'.
Proof.
  intros Hwf Hc Hs Hqa Hm Hq.
  destruct (lookup_lt_is_Some_2 _ _ Hc) as [lc Hlc].
  assert (Hmid : (filter (λ y, y ≠ p) <$> gAlarmQueue w) !! c
                 = Some (filter (λ y, y ≠ p) lc))
    by (by rewrite list_lookup_fmap, Hlc).
  unfold linked_into in Hq. rewrite Hmid in Hq.
  assert (Hlook : ∀ q l, gAlarmQueue w' !! q = Some l →
            ∃ l0, gAlarmQueue w !! q = Some l0 ∧
                  ((q = c ∧ l = filter (λ y, y ≠ p) l0 ++ [p]) ∨
                   (q ≠ c ∧ l = filter (λ y, y ≠ p) l0))).
  { intros q l Hl. rewrite Hq in Hl.
    destruct (decide (q = c)) as [->|Hne].
    - rewrite list_lookup_insert_eq in Hl by (by rewrite length_fmap).
      injection Hl as <-. eauto.
    - rewrite list_lookup_insert_ne, list_lookup_fmap in Hl by done.
      destruct (gAlarmQueue w !! q) as [l0|] eqn:E; [|done].
      cbn in Hl. injection Hl as <-. eauto. }
  assert (Hkeep : ∀ x q, x ≠ p → linked w x q → linked w' x q).
  { intros x q Hne (l & Hl & Hin). unfold linked. rewrite Hq.
    destruct (decide (q = c)) as [->|Hqc].
    - rewrite list_lookup_insert_eq by (by rewrite length_fmap).
      eexists. split; [done|]. apply elem_of_app. left.
      apply elem_of_unlink. split; [|done]. congruence.
    - rewrite list_lookup_insert_ne, list_lookup_fmap, Hl by done.
      eexists. split; [done|]. by apply elem_of_unlink. }
  split.
  - intros q l x Hl Hin.
    destruct (Hlook q l Hl) as (l0 & Hl0 & [[-> ->]|[Hne ->]]).
    + apply elem_of_app in Hin as [Hin|Hin].
      * apply elem_of_unlink in Hin as [Hin Hxp].
        destruct (wf_member w Hwf c l0 x Hl0 Hin) as (a & Ha & Hst & Hq0).
        exists a. rewrite Hm, lookup_insert_ne by done. eauto.
      * apply list_elem_of_singleton in Hin as ->.
        exists a'. rewrite Hm, lookup_insert_eq. eauto.
    + apply elem_of_unlink in Hin as [Hin Hxp].
      destruct (wf_member w Hwf q l0 x Hl0 Hin) as (a & Ha & Hst & Hq0).
      exists a. rewrite Hm, lookup_insert_ne by done. eauto.
  - intros x a Ha Hst. rewrite Hm in Ha.
    destruct (decide (x = p)) as [->|Hne].
    + rewrite lookup_insert_eq in Ha. injection Ha as <-.
      exists c. split; [done|]. unfold linked. rewrite Hq.
      rewrite list_lookup_insert_eq by (by rewrite length_fmap).
      eexists. split; [done|]. apply elem_of_app. right.
      by apply list_elem_of_singleton.
    + rewrite lookup_insert_ne in Ha by done.
      destruct (wf_armed w Hwf x a Ha Hst) as (q & Hq0 & Hlk). eauto.
  - intros x a q Ha Hq0. rewrite Hq, length_insert, length_fmap.
    rewrite Hm in Ha.
    destruct (decide (x = p)) as [->|Hne].
    + rewrite lookup_insert_eq in Ha. injection Ha as <-. congruence.
    + rewrite lookup_insert_ne in Ha by done. eapply wf_owner; eauto.
  - intros q l Hl.
    destruct (Hlook q l Hl) as (l0 & Hl0 & [[-> ->]|[Hne ->]]).
    + apply NoDup_app. split; [|split].
      * apply NoDup_unlink. eapply wf_nodup; eauto.
      * intros x Hx Hx'. apply list_elem_of_singleton in Hx'.
        apply elem_of_unlink in Hx. tauto.
      * apply NoDup_singleton.
    + apply NoDup_unlink. eapply wf_nodup; eauto.
  - intros x a Ha Hst. rewrite Hm in Ha.
    destruct (decide (x = p)) as [->|Hne].
    + rewrite lookup_insert_eq in Ha. congruence.
    + rewrite lookup_insert_ne in Ha by done. eapply wf_idle; eauto.
Qed.

(** ** Sequencing and loops *)

Lemma bind_run {A B} (m : M A) (f : A → M B) w a w1 :
  m w = Ok a w1 → (m ≫= f) w = f a w1.
Proof. intros H. unfold mbind, M_bind. by rewrite H. Qed.

Lemma load_run w p a :
  gAlarmLock w = true → mem w !! p = Some a → load p w = Ok a w.
Proof. intros Hl Hm. unfold load. by rewrite Hm, touch_locked. Qed.

Lemma for_each_inv {S} (body : nat → S → M S)
    (I : list nat → S → World → Prop) l acc w :
  I l acc w →
  (∀ p rest acc w, I (p :: rest) acc w →
     ∃ acc' w', body p acc w = Ok acc' w' ∧ I rest acc' w') →
  ∃ acc' w', for_each body l acc w = Ok acc' w' ∧ I [] acc' w'.
Proof.
  intros HI Hstep. revert acc w HI.
  induction l as [|p rest IH]; intros acc w HI.
  - exists acc, w. done.
  - destruct (Hstep p rest acc w HI) as (acc1 & w1 & Hb & HI1).
    destruct (IH acc1 w1 HI1) as (acc2 & w2 & Hf & HI2).
    exists acc2, w2. split; [|done].
    cbn. by erewrite bind_run by exact Hb.
Qed.


(** ** The earliest pending fire time *)

Lemma pending_frame w w' p a' x t :
  mem w' = <[p := a']> (mem w) → x ≠ p → pending w' x t ↔ pending w x t.
Proof. intros Hm Hne. unfold pending. by rewrite Hm, lookup_insert_ne. Qed.

Lemma earliest_frame w w' p a' done P T :
  mem w' = <[p := a']> (mem w) → p ∉ done →
  earliest w done P T → earliest w' done P T.
Proof.
  intros Hm Hp. unfold earliest.
  assert (Hiff : ∀ x t, x ∈ done → pending w' x t ↔ pending w x t).
  { intros x t Hx. eapply pending_frame; [done|]. intros ->. done. }
  destruct T as [t|].
  - intros (Hc & (x & Hx & Hpx) & Hmin). split; [done|]. split.
    + exists x. split; [done|]. by apply Hiff.
    + intros y t' Hy Hpy. apply (Hmin y t' Hy). by apply Hiff.
  - intros Hnone x t Hx Hpx. apply (Hnone x t Hx). by apply Hiff.
Qed.

Lemma earliest_snoc w done p a T :
  mem w !! p = Some a →
  earliest w done nonzero T →
  earliest w (done ++ [p]) nonzero (earlier a T).
Proof.
  intros Hm HT.
  assert (Hp : ∀ t, pending w p t → state a = AlarmSet ∧ nextFire a = t).
  { intros t (a0 & Ha0 & Hs & Hn). by simplify_eq. }
  unfold earlier, earliest in *.
  destruct (decide (state a = AlarmSet ∧ nextFire a ≠ 0)) as [[Hs Hn]|Hno].
  - assert (Hpp : pending w p (nextFire a)) by (exists a; done).
    destruct T as [t|]; cbn.
    + destruct HT as (Hc & (x & Hx & Hpx) & Hmin).
      case_bool_decide as Hlt.
      * split; [done|]. split.
        { exists p. split; [|done]. apply elem_of_app. right.
          by apply list_elem_of_singleton. }
        intros y t' Hy Hpy Hcy. apply elem_of_app in Hy as [Hy|Hy].
        -- specialize (Hmin y t' Hy Hpy Hcy). lia.
        -- apply list_elem_of_singleton in Hy as ->.
           destruct (Hp t' Hpy). lia.
      * split; [done|]. split.
        { exists x. split; [|done]. apply elem_of_app. by left. }
        intros y t' Hy Hpy Hcy. apply elem_of_app in Hy as [Hy|Hy].
        -- by apply (Hmin y t' Hy Hpy Hcy).
        -- apply list_elem_of_singleton in Hy as ->.
           destruct (Hp t' Hpy). lia.
    + split; [done|]. split.
      { exists p. split; [|done]. apply elem_of_app. right.
        by apply list_elem_of_singleton. }
      intros y t' Hy Hpy Hcy. apply elem_of_app in Hy as [Hy|Hy].
      * by destruct (HT y t' Hy Hpy).
      * apply list_elem_of_singleton in Hy as ->.
        destruct (Hp t' Hpy). lia.
  - assert (Hnp : ∀ t, pending w p t → ¬ nonzero t).
    { intros t Hpt Hc. destruct (Hp t Hpt) as [? <-]. by apply Hno. }
    destruct T as [t|].
    + destruct HT as (Hc & (x & Hx & Hpx) & Hmin).
      split; [done|]. split.
      { exists x. split; [|done]. apply elem_of_app. by left. }
      intros y t' Hy Hpy Hcy. apply elem_of_app in Hy as [Hy|Hy].
      * by apply (Hmin y t' Hy Hpy Hcy).
      * apply list_elem_of_singleton in Hy as ->.
        by destruct (Hnp t' Hpy).
    + intros y t' Hy Hpy. apply elem_of_app in Hy as [Hy|Hy].
      * by apply (HT y t' Hy Hpy).
      * apply list_elem_of_singleton in Hy as ->. by apply Hnp.
Qed.

Lemma earliest_members w l l' P T :
  (∀ p, p ∈ l' → p ∈ l) →
  (∀ p t, p ∈ l → pending w p t → p ∈ l') →
  earliest w l P T → earliest w l' P T.
Proof.
  intros Hsub Hsup. unfold earliest. destruct T as [t|].
  - intros (Hc & (x & Hx & Hpx) & Hmin). split; [done|]. split.
    + exists x. split; [|done]. by apply (Hsup x t).
    + intros y t' Hy. apply Hmin. by apply Hsub.
  - intros Hnone y t Hy. apply Hnone. by apply Hsub.
Qed.


(** ** The record of a fired alarm *)
Lemma fired_state_periodic ctx t a :
  period a ≠ 0 → state (fired ctx t a) = AlarmSet.
Proof. intros H. unfold fired. by rewrite decide_True. Qed.

Lemma fired_oneshot ctx t a :
  period a = 0 →
  state (fired ctx t a) = AlarmNone ∧ nextFire (fired ctx t a) = 0.
Proof. intros H. unfold fired. rewrite decide_False by lia. done. Qed.

Lemma fired_alarmQueue ctx t a : alarmQueue (fired ctx t a) = alarmQueue a.
Proof. unfold fired. by destruct (decide _). Qed.

Lemma scanning_start core l w :
  wf w → gAlarmLock w = true → gAlarmQueue w !! core = Some l →
  scanning core l w l TimeMax w.
Proof.
  intros Hwf Hl Hq.
  split; [done|split; [done|split; [|split; [|split; [|split; [|split;
    [|split; [|split]]]]]]]].
  - exists []. split; [done|]. intros p t Hp. by apply not_elem_of_nil in Hp.
  - eapply wf_nodup; eauto.
  - intros p Hp. by exists l.
  - intros p (l' & Hl' & Hp). congruence.
  - intros p a Hp Ha.
    destruct (wf_member w Hwf core l p Hq Hp) as (a' & Ha' & _ & Hqa).
    congruence.
  - done.
  - done.
  - done.
Qed.

Lemma scanning_end core l0 w0 next w l' :
  scanning core l0 w0 [] next w → gAlarmQueue w !! core = Some l' →
  earliest w l' nonzero next.
Proof.
  intros (Hwf & _ & (done & Hl0 & He) & _ & _ & Hin & Hown & _) Hq.
  rewrite app_nil_r in Hl0. subst done.
  eapply earliest_members; [| |exact He].
  - intros p Hp. apply Hin. by exists l'.
  - intros p t Hp (a & Ha & Hs & _).
    destruct (wf_armed w Hwf p a Ha Hs) as (q & Hqa & l & Hl & Hpl).
    assert (q = core) by (specialize (Hown p a Hp Ha); congruence).
    congruence.
Qed.

(** ** The trigger engine *)

Section TriggerEngine.

Variable run_callback : nat → nat → option nat → World → World.
Hypothesis callbacks_leave_alarms : callbacks_frame run_callback.

Lemma OSTriggerAlarmNoLock_spec w p a ctx :
  gAlarmLock w = true → mem w !! p = Some a →
  (period a = 0 → ∃ q, alarmQueue a = Some q ∧ is_Some (gAlarmQueue w !! q)) →
  ∃ w',
    OSTriggerAlarmNoLock run_callback p ctx w = Ok tt w' ∧
    gAlarmLock w' = true ∧
    mem w' = <[p := fired ctx (clock w (ticks w)) a]> (mem w) ∧
    gAlarmQueue w' =
      (if decide (period a ≠ 0) then gAlarmQueue w
       else unlinked_from (alarmQueue a) p (gAlarmQueue w)) ∧
    (∃ r, ready w' = r ++ threadQueue a) ∧
    (∃ tr, trace w' = tr ++ [EvWakeupThread p (threadQueue a)]).
Proof.
  intros Hl Hm Hq. wopen w. unfold OSTriggerAlarmNoLock, fired.
  munfold. mrun.
  destruct (decide (period a ≠ 0)) as [Hp|Hp].
  - mrun. destruct (callback a) as [cb|] eqn:Ecb; mrun.
    + wcallback callbacks_leave_alarms. mrun.
      eexists. split; [reflexivity|]. mrun. repeat split; eauto.
    + eexists. split; [reflexivity|]. mrun. repeat split; eauto.
  - assert (period a = 0) as Hp0 by lia.
    destruct (Hq Hp0) as (q & Eq & l & Hlq). mrun.
    destruct (callback a) as [cb|] eqn:Ecb; mrun.
    + wcallback callbacks_leave_alarms. mrun.
      eexists. split; [reflexivity|]. mrun. repeat split; eauto.
    + eexists. split; [reflexivity|]. mrun. repeat split; eauto.
Qed.


Lemma OSCheckAlarms_visit_skip now ctx p next w a :
  gAlarmLock w = true → mem w !! p = Some a → ¬ due now a →
  OSCheckAlarms_visit run_callback now ctx p next w = Ok (earlier a next) w.
Proof.
  intros Hl Hm Hd. unfold OSCheckAlarms_visit, due in *.
  erewrite bind_run by (by apply load_run).
  rewrite decide_False by done.
  erewrite bind_run by reflexivity.
  erewrite bind_run by (by apply load_run).
  unfold earlier, OSTimeToChrono.
  destruct (decide (state a = AlarmSet ∧ nextFire a ≠ 0)); [|done].
  by destruct (time_lt _ _).
Qed.

Lemma OSCheckAlarms_visit_due now ctx p next w a :
  gAlarmLock w = true → mem w !! p = Some a → due now a →
  (period a = 0 → ∃ q, alarmQueue a = Some q ∧ is_Some (gAlarmQueue w !! q)) →
  ∃ w',
    OSCheckAlarms_visit run_callback now ctx p next w =
      Ok (earlier (fired ctx (clock w (ticks w)) a) next) w' ∧
    gAlarmLock w' = true ∧
    mem w' = <[p := fired ctx (clock w (ticks w)) a]> (mem w) ∧
    gAlarmQueue w' =
      (if decide (period a ≠ 0) then gAlarmQueue w
       else unlinked_from (alarmQueue a) p (gAlarmQueue w)) ∧
    (∃ r, ready w' = r ++ threadQueue a) ∧
    (∃ tr, trace w' = tr ++ [EvWakeupThread p (threadQueue a)]).
Proof.
  intros Hl Hm Hd Hq.
  destruct (OSTriggerAlarmNoLock_spec w p a ctx Hl Hm Hq)
    as (w' & Hrun & Hl' & Hm' & Hq' & Hr & Ht).
  exists w'. split; [|done].
  unfold OSCheckAlarms_visit, due in *.
  erewrite bind_run by (by apply load_run).
  rewrite decide_True by done.
  erewrite bind_run by exact Hrun.
  erewrite bind_run
    by (apply load_run; [done | by rewrite Hm', lookup_insert_eq]).
  unfold earlier, OSTimeToChrono.
  destruct (decide (_ ∧ _)); [|done].
  by destruct (time_lt _ _).
Qed.

Lemma scanning_step now ctx core l0 w0 p rest next w :
  scanning core l0 w0 (p :: rest) next w →
  ∃ next' w',
    OSCheckAlarms_visit run_callback now ctx p next w = Ok next' w' ∧
    scanning core l0 w0 rest next' w'.
Proof.
  intros (Hwf & Hl & (done & Hl0 & He) & Hnd & Hrest & Hin & Hown & Hout
              & Hoq & Hcq & Hlen).
  destruct (Hrest p) as (l & Hlq & Hpl); [set_solver|].
  destruct (wf_member w Hwf core l p Hlq Hpl) as (a & Ha & Hs & Hqa).
  assert (Hpd : p ∉ done).
  { intros Hd. rewrite Hl0 in Hnd. apply NoDup_app in Hnd as (_ & Hdis & _).
    apply (Hdis p Hd). set_solver. }
  assert (Hpr : p ∉ rest).
  { rewrite Hl0 in Hnd. apply NoDup_app in Hnd as (_ & _ & Hnd).
    by apply NoDup_cons in Hnd as [? _]. }
  assert (Hl0' : l0 = (done ++ [p]) ++ rest) by (by rewrite <- app_assoc).
  destruct (decide (due now a)) as [Hd|Hd].
  - destruct (OSCheckAlarms_visit_due now ctx p next w a Hl Ha Hd)
      as (w' & Hrun & Hl' & Hm' & Hq' & _ & _).
    { intros _. exists core. split; [done|]. by exists l. }
    set (a' := fired ctx (clock w (ticks w)) a) in *.
    assert (Hqa' : alarmQueue a' = Some core)
      by (unfold a'; by rewrite fired_alarmQueue).
    assert (Hlk : ∀ x q, linked w' x q → linked w x q).
    { intros x q. destruct (decide (period a ≠ 0)).
      - by rewrite (linked_ext w' w x q Hq').
      - rewrite (unlinked_from_everywhere w p a Hwf Ha) in Hq'.
        rewrite (linked_after_removal w w' p x q Hq'). tauto. }
    assert (Hlk' : ∀ x q, x ≠ p → linked w x q → linked w' x q).
    { intros x q Hne. destruct (decide (period a ≠ 0)).
      - by rewrite (linked_ext w' w x q Hq').
      - rewrite (unlinked_from_everywhere w p a Hwf Ha) in Hq'.
        rewrite (linked_after_removal w w' p x q Hq'). tauto. }
    exists (earlier a' next), w'. split; [done|].
    split; [|split; [done|split; [|split; [done|split; [|split; [|split;
      [|split; [|split; [|split]]]]]]]]].
    + destruct (decide (period a ≠ 0)) as [Hp|Hp].
      * eapply (wf_keep w w' p a a'); eauto.
        -- unfold a'. rewrite fired_state_periodic; done.
        -- by rewrite Hqa'.
        -- congruence.
      * assert (period a = 0) as Hp0 by lia.
        destruct (fired_oneshot ctx (clock w (ticks w)) a Hp0) as [Hs' Hn'].
        eapply (wf_remove w w' p a'); eauto.
        -- unfold a'. congruence.
        -- intros q Hq0. eapply (wf_owner w Hwf p a); [done|]. congruence.
        -- by rewrite <- (unlinked_from_everywhere w p a Hwf Ha).
    + exists (done ++ [p]). split; [done|].
      apply earliest_snoc. { by rewrite Hm', lookup_insert_eq. }
      by eapply earliest_frame.
    + intros x Hx. apply Hlk'; [set_solver|]. apply Hrest. set_solver.
    + intros x Hx. apply Hin. by apply Hlk.
    + intros x ax Hx Hax. rewrite Hm' in Hax.
      destruct (decide (x = p)) as [->|Hne].
      * rewrite lookup_insert_eq in Hax. congruence.
      * rewrite lookup_insert_ne in Hax by done. eauto.
    + intros x Hx. rewrite Hm', lookup_insert_ne; [by apply Hout|].
      intros <-. apply Hx. rewrite Hl0. set_solver.
    + intros q Hq. rewrite <- (Hoq q Hq). rewrite Hq'.
      destruct (decide (period a ≠ 0)); [done|].
      rewrite Hqa. unfold unlinked_from. rewrite Hlq.
      by rewrite list_lookup_insert_ne.
    + rewrite Hq'. destruct (decide (period a ≠ 0)); [done|].
      rewrite Hqa. unfold unlinked_from. rewrite Hlq.
      apply lookup_lt_is_Some. rewrite length_insert.
      by eapply lookup_lt_Some.
    + rewrite Hq'. destruct (decide (period a ≠ 0)); [done|].
      by rewrite length_unlinked_from.
  - rewrite (OSCheckAlarms_visit_skip now ctx p next w a Hl Ha Hd).
    exists (earlier a next), w. split; [done|].
    split; [done|split; [done|split; [|split; [done|split; [|done]]]]].
    + exists (done ++ [p]). split; [done|]. by apply earliest_snoc.
    + intros x Hx. apply Hrest. set_solver.
Qed.

(** The trigger engine on a well-formed world. *)
Lemma OSCheckAlarms_spec core ctx w l :
  wf w →
  gAlarmQueue w !! core = Some l →
  ∃ w' T l',
    OSCheckAlarms run_callback core ctx w = Ok tt w' ∧
    wf w' ∧
    timers w' !! core = Some T ∧
    (∃ tr, trace w' = tr ++ [EvSetInterruptTimer core T]) ∧
    gAlarmQueue w' !! core = Some l' ∧
    earliest w' l' nonzero T ∧
    (∀ p, p ∉ l → mem w' !! p = mem w !! p) ∧
    (∀ q, q ≠ core → gAlarmQueue w' !! q = gAlarmQueue w !! q) ∧
    length (gAlarmQueue w') = length (gAlarmQueue w).
Proof.
  intros Hwf Hq.
  set (w1 := with_trace (trace w ++ [EvLockScheduler; EvAcquire])
               (with_lock true (with_ticks (S (ticks w)) w))).
  assert (Hwf1 : wf w1) by (by apply (wf_ext w w1)).
  destruct (for_each_inv
              (OSCheckAlarms_visit run_callback (clock w (ticks w)) ctx)
              (scanning core l w1) l TimeMax w1)
    as (T & w2 & Hrun & Hend).
  { by apply scanning_start. }
  { intros p rest acc w' HI. by eapply scanning_step. }
  pose proof Hend as (Hwf2 & _ & _ & _ & _ & _ & _ & Hout & Hoq & [l' Hq2]
                      & Hlen).
  pose proof (scanning_end core l w1 T w2 l' Hend Hq2) as He.
  exists (with_trace (trace w2 ++ [EvRelease; EvUnlockScheduler;
                                   EvSetInterruptTimer core T])
            (with_timers (<[core := T]> (timers w2)) (with_lock false w2))),
    T, l'.
  split; [|split; [|split; [|split; [|split; [|split; [|split; [|split]]]]]]].
  - unfold OSCheckAlarms, w1 in *. clear He Hend Hwf2 Hwf1 Hout Hoq Hwf Hlen.
    wopen w. wsimp_in Hrun. munfold. mrun. rewrite <- app_assoc. cbn.
    rewrite Hrun.
    wopen w2. mrun. wdone.
  - by apply (wf_ext w2).
  - cbn. by rewrite lookup_insert_eq.
  - cbn. exists (trace w2 ++ [EvRelease; EvUnlockScheduler]).
    by rewrite <- app_assoc.
  - done.
  - done.
  - done.
  - done.
  - done.
Qed.

End TriggerEngine.

(** ** Firing with any callback *)

(** [OSTriggerAlarmNoLock] up to the call of the callback: the world the
    callback is called in, and what is left to do when it returns. *)
Lemma OSTriggerAlarmNoLock_calls run_callback w p a ctx cb :
  gAlarmLock w = true → mem w !! p = Some a → callback a = Some cb →
  (period a = 0 → ∃ q, alarmQueue a = Some q ∧ is_Some (gAlarmQueue w !! q)) →
  ∃ w_cb,
    OSTriggerAlarmNoLock run_callback p ctx w =
      (acquire;; OSWakeupThreadNoLock p) (run_callback cb p ctx w_cb) ∧
    gAlarmLock w_cb = false ∧
    mem w_cb = <[p := triggered ctx (clock w (ticks w)) a]> (mem w) ∧
    gAlarmQueue w_cb =
      (if decide (period a ≠ 0) then gAlarmQueue w
       else unlinked_from (alarmQueue a) p (gAlarmQueue w)) ∧
    ready w_cb = ready w ∧
    trace w_cb =
      trace w ++
      (if decide (period a ≠ 0) then [] else erase_events (alarmQueue a) p) ++
      [EvRelease; EvCallback cb p ctx] ∧
    unguarded w_cb = unguarded w ++ [p].
Proof.
  intros Hl Hm Hcb Hq. wopen w. unfold OSTriggerAlarmNoLock, triggered.
  munfold. mrun.
  destruct (decide (period a ≠ 0)) as [Hp|Hp].
  - mrun. eexists. split; [reflexivity|]. mrun. repeat split; try done.
    by rewrite <- app_assoc.
  - assert (period a = 0) as Hp0 by lia.
    destruct (Hq Hp0) as (q & Eq & l & Hlq). mrun.
    eexists. split; [reflexivity|]. mrun. repeat split; try done.
    by rewrite <- !app_assoc.
Qed.

(** [OSTriggerAlarmNoLock] on an alarm without callback. *)
Lemma OSTriggerAlarmNoLock_plain run_callback w p a ctx :
  gAlarmLock w = true → mem w !! p = Some a → callback a = None →
  (period a = 0 → ∃ q, alarmQueue a = Some q ∧ is_Some (gAlarmQueue w !! q)) →
  ∃ w',
    OSTriggerAlarmNoLock run_callback p ctx w = Ok tt w' ∧
    gAlarmLock w' = true ∧
    mem w' = <[p := fired ctx (clock w (ticks w)) a]> (mem w) ∧
    gAlarmQueue w' =
      (if decide (period a ≠ 0) then gAlarmQueue w
       else unlinked_from (alarmQueue a) p (gAlarmQueue w)) ∧
    ready w' = ready w ++ threadQueue a ∧
    trace w' =
      trace w ++
      (if decide (period a ≠ 0) then [] else erase_events (alarmQueue a) p) ++
      [EvWakeupThread p (threadQueue a)] ∧
    unguarded w' = unguarded w.
Proof.
  intros Hl Hm Hcb Hq. wopen w. unfold OSTriggerAlarmNoLock, fired.
  munfold. mrun.
  destruct (decide (period a ≠ 0)) as [Hp|Hp].
  - mrun. eexists. split; [reflexivity|]. mrun. repeat split; try done.
  - assert (period a = 0) as Hp0 by lia.
    destruct (Hq Hp0) as (q & Eq & l & Hlq). mrun.
    eexists. split; [reflexivity|]. mrun. repeat split; try done.
    by rewrite <- !app_assoc.
Qed.

(** What is left of [OSTriggerAlarmNoLock] when the callback has
    returned: the lock is taken and the wait set of the record, as the
    callback left it, is woken. *)
Lemma wake_after_callback w p a :
  mem w !! p = Some a →
  (acquire;; OSWakeupThreadNoLock p) w =
  Ok tt (with_trace (trace w ++ [EvAcquire; EvWakeupThread p (threadQueue a)])
           (with_ready (ready w ++ threadQueue a)
              (with_mem (<[p := set_threadQueue [] a]> (mem w))
                 (with_lock true w)))).
Proof. intros Hm. wopen w. munfold. mrun. wdone. Qed.

(** The loop body of [OSCheckAlarms] on a due alarm, given what
    [OSTriggerAlarmNoLock] returns. *)
Lemma OSCheckAlarms_visit_after run_callback now ctx p next w a w' a' :
  gAlarmLock w = true → mem w !! p = Some a → due now a →
  OSTriggerAlarmNoLock run_callback p ctx w = Ok tt w' →
  gAlarmLock w' = true → mem w' !! p = Some a' →
  OSCheckAlarms_visit run_callback now ctx p next w = Ok (earlier a' next) w'.
Proof.
  intros Hl Hm Hd Hrun Hl' Hm'. unfold OSCheckAlarms_visit, due in *.
  erewrite bind_run by (by apply load_run).
  rewrite decide_True by done.
  erewrite bind_run by exact Hrun.
  erewrite bind_run by (by apply load_run).
  unfold earlier, OSTimeToChrono.
  destruct (decide (_ ∧ _)); [|done].
  by destruct (time_lt _ _).
Qed.

(** [OSTriggerAlarmNoLock] stops on a one-shot alarm whose back-pointer
    is null or names no queue. *)
Lemma OSTriggerAlarmNoLock_stuck run_callback w p a ctx :
  gAlarmLock w = true → mem w !! p = Some a → period a = 0 →
  ¬ (∃ q, alarmQueue a = Some q ∧ is_Some (gAlarmQueue w !! q)) →
  ∃ e, OSTriggerAlarmNoLock run_callback p ctx w = Err e.
Proof.
  intros Hl Hm Hp Hq. wopen w. unfold OSTriggerAlarmNoLock.
  destruct (alarmQueue a) as [q|] eqn:Eq.
  - destruct (wq !! q) as [l|] eqn:El.
    { destruct Hq. exists q. split; [done|]. by exists l. }
    munfold. mrun. by eexists.
  - munfold. mrun. by eexists.
Qed.

(** When [OSTriggerAlarmNoLock] returns on a one-shot alarm, the
    back-pointer of the alarm names a queue. *)
Lemma OSTriggerAlarmNoLock_returns run_callback w p a ctx w' :
  gAlarmLock w = true → mem w !! p = Some a →
  OSTriggerAlarmNoLock run_callback p ctx w = Ok tt w' →
  period a = 0 → ∃ q, alarmQueue a = Some q ∧ is_Some (gAlarmQueue w !! q).
Proof.
  intros Hl Hm Hrun Hp. destruct (alarmQueue a) as [q|] eqn:Eq.
  - destruct (gAlarmQueue w !! q) as [l|] eqn:El.
    { exists q. split; [done|]. by exists l. }
    destruct (OSTriggerAlarmNoLock_stuck run_callback w p a ctx Hl Hm Hp)
      as [e He]; [|congruence].
    intros (q' & Eq' & [l Hl']). congruence.
  - destruct (OSTriggerAlarmNoLock_stuck run_callback w p a ctx Hl Hm Hp)
      as [e He]; [|congruence].
    intros (q' & Eq' & _). congruence.
Qed.

Lemma wake_fails w p :
  mem w !! p = None →
  (acquire;; OSWakeupThreadNoLock p) w = Err InvalidPointer.
Proof. intros Hm. wopen w. munfold. by mrun. Qed.

(** ** Cancelling by tag *)

Lemma OSCancelAlarms_visit_other t p w a :
  gAlarmLock w = true → mem w !! p = Some a →
  ¬ (alarmTag a = t ∧ state a = AlarmSet) →
  OSCancelAlarms_visit t p tt w = Ok tt w.
Proof.
  intros Hl Hm Hno. unfold OSCancelAlarms_visit.
  erewrite bind_run by (by apply load_run).
  destruct (decide (alarmTag a = t)) as [Ht|Ht]; [|done].
  erewrite bind_run by (apply (OSCancelAlarmNoLock_idle w p a); tauto).
  done.
Qed.

Lemma OSCancelAlarms_visit_match t p w a :
  gAlarmLock w = true → mem w !! p = Some a →
  alarmTag a = t → state a = AlarmSet →
  (∀ q, alarmQueue a = Some q → is_Some (gAlarmQueue w !! q)) →
  OSCancelAlarms_visit t p tt w =
  Ok tt
    (with_trace (trace w ++ erase_events (alarmQueue a) p ++
                   [EvLockScheduler; EvWakeupThread p (threadQueue a);
                    EvUnlockScheduler])
       (with_ready (ready w ++ threadQueue a)
          (with_queues (unlinked_from (alarmQueue a) p (gAlarmQueue w))
             (with_mem (<[p := cancelled a]> (mem w)) w)))).
Proof.
  intros Hl Hm Ht Hs Hq. unfold OSCancelAlarms_visit.
  erewrite bind_run by (by apply load_run).
  rewrite decide_True by done.
  erewrite bind_run by (by apply (OSCancelAlarmNoLock_armed w p a)).
  done.
Qed.

Lemma lock_untouched_app evs evs' :
  lock_untouched evs → lock_untouched evs' → lock_untouched (evs ++ evs').
Proof.
  unfold lock_untouched. intros [H1 H2] [H3 H4].
  split; rewrite elem_of_app; tauto.
Qed.

Lemma lock_untouched_cancel q p ths :
  lock_untouched (erase_events q p ++
                    [EvLockScheduler; EvWakeupThread p ths; EvUnlockScheduler]).
Proof.
  unfold lock_untouched. destruct q; cbn;
    rewrite !elem_of_cons, !elem_of_nil;
    split; intros H; repeat destruct H as [H|H]; done.
Qed.

Lemma cancelling_refl t w : wf w → gAlarmLock w = true → cancelling t w w.
Proof.
  intros Hwf Hl.
  split; [done|split; [done|split; [done|split; [done|split;
    [|split; [|split]]]]]].
  - intros p a Ha. by left.
  - intros p q. split.
    + intros Hlk. split; [done|]. destruct Hlk as (l & Hq & Hp).
      destruct (wf_member w Hwf q l p Hq Hp) as (a & Ha & Hs & _). eauto.
    + tauto.
  - exists []. by rewrite app_nil_r.
  - exists []. rewrite app_nil_r. split; [done|].
    split; apply not_elem_of_nil.
Qed.

Lemma cancelling_step t w0 w p i :
  cancelling t w0 w → linked w p i →
  ∃ w',
    OSCancelAlarms_visit t p tt w = Ok tt w' ∧
    cancelling t w0 w' ∧
    (∀ x q, x ≠ p → linked w x q → linked w' x q) ∧
    (∀ j R, clean t w j R → clean t w' j (filter (λ y, y ≠ p) R)).
Proof.
  intros (Hwf & Hl & Hlen & Hnone & Hrec & Hlk & [r Hr] & (evs & Htr & Hevs))
         (l & Hq & Hp).
  destruct (wf_member w Hwf i l p Hq Hp) as (a & Ha & Hs & Hqa).
  destruct (decide (alarmTag a = t)) as [Ht|Ht].
  - eexists. split.
    { apply (OSCancelAlarms_visit_match t p w a); try done.
      intros q Hq0. apply lookup_lt_is_Some. by eapply wf_owner. }
    set (w' := with_trace _ _).
    assert (Hm' : mem w' = <[p := cancelled a]> (mem w)) by done.
    assert (Hq' : gAlarmQueue w' = filter (λ y, y ≠ p) <$> gAlarmQueue w).
    { unfold w'. cbn. by apply unlinked_from_everywhere. }
    assert (Hwf' : wf w').
    { eapply (wf_remove w w' p (cancelled a)); eauto.
      intros q Hq0. by eapply (wf_owner w Hwf p a). }
    assert (Hp0 : mem w0 !! p = Some a).
    { destruct (mem w0 !! p) as [a0|] eqn:E.
      - destruct (Hrec p a0 E) as [H|(_ & _ & H & _)]; [congruence|].
        rewrite Ha in H. injection H as ->. done.
      - rewrite (Hnone p E) in Ha. done. }
    split; [|split].
    + split; [done|split; [done|split; [|split; [|split; [|split;
        [|split]]]]]].
      * by rewrite Hq', length_fmap.
      * intros x Hx. rewrite Hm'.
        destruct (decide (x = p)) as [->|Hne]; [congruence|].
        rewrite lookup_insert_ne by done. by apply Hnone.
      * intros x ax Hax. rewrite Hm'.
        destruct (decide (x = p)) as [->|Hne].
        -- right. rewrite lookup_insert_eq.
           assert (ax = a) by congruence. subst ax.
           repeat split; try done.
           intros th Hth. unfold w'. cbn. apply elem_of_app. by right.
        -- rewrite lookup_insert_ne by done.
           destruct (Hrec x ax Hax) as [H|(H1 & H2 & H3 & H4)]; [by left|].
           right. repeat split; try done.
           intros th Hth. unfold w'. cbn. apply elem_of_app. left. by apply H4.
      * intros x q. rewrite (linked_after_removal w w' p x q Hq'), Hlk, Hm'.
        split.
        -- intros [[H0 (ax & Hax & Hsx)] Hne]. split; [done|].
           exists ax. by rewrite lookup_insert_ne.
        -- intros [H0 (ax & Hax & Hsx)].
           destruct (decide (x = p)) as [->|Hne].
           { rewrite lookup_insert_eq in Hax. injection Hax as <-. done. }
           rewrite lookup_insert_ne in Hax by done. eauto.
      * exists (r ++ threadQueue a). unfold w'. cbn.
        by rewrite Hr, app_assoc.
      * exists (evs ++ erase_events (alarmQueue a) p ++
                 [EvLockScheduler; EvWakeupThread p (threadQueue a);
                  EvUnlockScheduler]).
        split.
        -- unfold w'. cbn. by rewrite Htr, <- app_assoc.
        -- apply lock_untouched_app; [done|apply lock_untouched_cancel].
    + intros x q Hne Hx.
      rewrite (linked_after_removal w w' p x q Hq'). done.
    + intros j R Hc x ax Hx Hax.
      apply (linked_after_removal w w' p x j Hq') in Hx as [Hx Hne].
      rewrite Hm', lookup_insert_ne in Hax by done.
      destruct (Hc x ax Hx Hax) as [HR|HT]; [left|by right].
      by apply elem_of_unlink.
  - exists w. split.
    { apply (OSCancelAlarms_visit_other t p w a); tauto. }
    split; [|split; [done|]].
    + split; [done|split; [done|split; [done|split; [done|split;
        [done|split; [done|split]]]]]]; eauto.
    + intros j R Hc x ax Hx Hax.
      destruct (Hc x ax Hx Hax) as [HR|HT]; [|by right].
      destruct (decide (x = p)) as [->|Hne].
      * right. congruence.
      * left. by apply elem_of_unlink.
Qed.

Lemma unlink_head (p : nat) (rest : list nat) :
  p ∉ rest → filter (λ y, y ≠ p) (p :: rest) = rest.
Proof.
  intros Hp. rewrite filter_cons_False by (intros H; by apply H).
  by apply unlink_absent.
Qed.

(** The scan of the queue of one core. *)
Lemma OSCancelAlarms_core_spec t w0 w i cleaned :
  cancelling t w0 w →
  (∀ j, j ∈ cleaned → clean t w j []) →
  (i < length (gAlarmQueue w))%nat →
  ∃ w',
    OSCancelAlarms_core t i w = Ok tt w' ∧
    cancelling t w0 w' ∧
    ∀ j, j ∈ i :: cleaned → clean t w' j [].
Proof.
  intros Hc Hcl Hi.
  destruct (lookup_lt_is_Some_2 _ _ Hi) as [l Hl].
  destruct (for_each_inv (OSCancelAlarms_visit t)
              (λ rest _ w', cancelling t w0 w' ∧
                 (∀ j, j ∈ cleaned → clean t w' j []) ∧
                 clean t w' i rest ∧ NoDup rest ∧
                 ∀ p, p ∈ rest → linked w' p i) l tt w)
    as ([] & w' & Hrun & Hc' & Hcl' & Hi' & _).
  { split; [done|split; [done|split; [|split]]].
    - intros p a (l' & Hl' & Hp) _. left. congruence.
    - destruct Hc as (Hwf & _). by eapply wf_nodup.
    - intros p Hp. by exists l. }
  { intros p rest [] w1 (Hc1 & Hcl1 & Hi1 & Hnd & Hlk).
    apply NoDup_cons in Hnd as [Hp Hnd].
    destruct (cancelling_step t w0 w1 p i Hc1) as (w2 & Hrun & Hc2 & Hk & Hcl2).
    { apply Hlk. set_solver. }
    exists tt, w2. split; [done|].
    split; [done|split; [|split; [|split; [done|]]]].
    - intros j Hj. apply (Hcl2 j []). by apply Hcl1.
    - specialize (Hcl2 i (p :: rest) Hi1). by rewrite unlink_head in Hcl2.
    - intros x Hx. apply Hk; [set_solver|]. apply Hlk. set_solver. }
  exists w'. split; [|split; [done|]].
  - unfold OSCancelAlarms_core, gAlarmQueue_at, queue_members.
    unfold mbind, M_bind. rewrite Hl. cbn. rewrite Hl. exact Hrun.
  - intros j Hj. apply elem_of_cons in Hj as [->|Hj]; eauto.
Qed.

(** [OSCancelAlarms] on a well-formed world of at least three cores. *)
Lemma OSCancelAlarms_spec t w :
  wf w → (3 ≤ length (gAlarmQueue w))%nat →
  ∃ w',
    OSCancelAlarms t w = Ok tt w' ∧
    wf w' ∧ gAlarmLock w' = false ∧
    length (gAlarmQueue w') = length (gAlarmQueue w) ∧
    (∀ p, mem w !! p = None → mem w' !! p = None) ∧
    (∀ p a, mem w !! p = Some a → state a = AlarmSet → alarmTag a = t →
       (∀ q, linked w p q → (q < 3)%nat) →
       mem w' !! p = Some (cancelled a) ∧ (∀ q, ¬ linked w' p q) ∧
       ∀ th, th ∈ threadQueue a → th ∈ ready w') ∧
    (∀ p a, mem w !! p = Some a → ¬ (state a = AlarmSet ∧ alarmTag a = t) →
       mem w' !! p = Some a ∧ ∀ q, linked w' p q ↔ linked w p q) ∧
    (∃ r, ready w' = ready w ++ r) ∧
    (∃ evs, trace w' = trace w ++ [EvAcquire] ++ evs ++ [EvRelease] ∧
            lock_untouched evs).
Proof.
  intros Hwf Hlen.
  set (w0 := with_trace (trace w ++ [EvAcquire]) (with_lock true w)).
  assert (Hc0 : cancelling t w0 w0).
  { apply cancelling_refl; [|done]. by apply (wf_ext w w0). }
  assert (Hlen' : ∀ w1, cancelling t w0 w1 → ∀ i, (i < 3)%nat →
                        (i < length (gAlarmQueue w1))%nat).
  { intros w1 (_ & _ & Hl1 & _) i Hi. rewrite Hl1. cbn. lia. }
  destruct (OSCancelAlarms_core_spec t w0 w0 0 [] Hc0) as (w1 & R1 & Hc1 & Hcl1).
  { intros j Hj. by apply not_elem_of_nil in Hj. }
  { apply Hlen'; [done|lia]. }
  destruct (OSCancelAlarms_core_spec t w0 w1 1 [0%nat] Hc1 Hcl1)
    as (w2 & R2 & Hc2 & Hcl2).
  { apply Hlen'; [done|lia]. }
  destruct (OSCancelAlarms_core_spec t w0 w2 2 [1%nat; 0%nat] Hc2 Hcl2)
    as (w3 & R3 & Hc3 & Hcl3).
  { apply Hlen'; [done|lia]. }
  exists (with_trace (trace w3 ++ [EvRelease]) (with_lock false w3)).
  destruct Hc3 as (Hwf3 & Hl3 & Hlen3 & Hnone & Hrec & Hlk & Hr
                   & (evs & Htr & Hevs)).
  assert (Hclean : ∀ p a q, (q < 3)%nat → linked w3 p q →
                            mem w3 !! p = Some a → alarmTag a ≠ t).
  { intros p a q Hq3 Hq Ha.
    assert (Hin : q ∈ [2%nat; 1%nat; 0%nat])
      by (rewrite !elem_of_cons; lia).
    destruct (Hcl3 q Hin p a Hq Ha) as [H|H]; [|done].
    by apply not_elem_of_nil in H. }
  split; [|split; [|split; [|split; [|split; [|split; [|split; [|split]]]]]]].
  - unfold OSCancelAlarms.
    unfold acquire at 1. munfold.
    replace (with_trace (trace (with_lock true w) ++ [EvAcquire])
               (with_lock true w)) with w0 by done.
    rewrite R1, R2, R3. done.
  - by apply (wf_ext w3).
  - done.
  - done.
  - intros p Hp. by apply Hnone.
  - intros p a Ha Hs Ht Hq3. cbn -[linked].
    destruct (Hrec p a Ha) as [Hsame|(_ & _ & Hcan & Hth)].
    + destruct (wf_armed w3 Hwf3 p a Hsame Hs) as (q & _ & Hq).
      destruct (Hclean p a q) ; try done.
      apply Hq3. apply Hlk in Hq. tauto.
    + split; [done|]. split; [|done].
      intros q Hq. change (linked w3 p q) in Hq.
      apply Hlk in Hq as (_ & a' & Ha' & Hs').
      rewrite Hcan in Ha'. by injection Ha' as <-.
  - intros p a Ha Hno. cbn -[linked].
    destruct (Hrec p a Ha) as [Hsame|(? & ? & _)]; [|tauto].
    split; [done|]. intros q.
    change (linked w3 p q ↔ linked w0 p q). rewrite Hlk.
    split; [tauto|]. intros Hq. split; [done|].
    destruct Hq as (l & Hl & Hp).
    destruct (wf_member w Hwf q l p Hl Hp) as (a' & Ha' & Hs' & _).
    exists a. split; [done|]. congruence.
  - done.
  - exists evs. split; [|done]. cbn. rewrite Htr. cbn.
    by rewrite <- !app_assoc.
Qed.

(** ** Every operation keeps the structural invariant *)

Lemma unlinked_everywhere_id w p :
  (∀ q, ¬ linked w p q) →
  filter (λ y, y ≠ p) <$> gAlarmQueue w = gAlarmQueue w.
Proof.
  intros Hp. apply list_eq. intros i. rewrite list_lookup_fmap.
  destruct (gAlarmQueue w !! i) as [l|] eqn:Hl; [|done].
  cbn. f_equal. apply unlink_absent. intros Hin. apply (Hp i). by exists l.
Qed.

Lemma OSCancelAlarms_core_oob t i w :
  (length (gAlarmQueue w) ≤ i)%nat →
  OSCancelAlarms_core t i w = Err OutOfBounds.
Proof.
  intros Hi. unfold OSCancelAlarms_core, gAlarmQueue_at, mbind, M_bind.
  by rewrite (lookup_ge_None_2 _ _ Hi).
Qed.

Lemma OSCancelAlarms_short t w :
  wf w → (length (gAlarmQueue w) < 3)%nat →
  OSCancelAlarms t w = Err OutOfBounds.
Proof.
  intros Hwf Hlen.
  set (w0 := with_trace (trace w ++ [EvAcquire]) (with_lock true w)).
  assert (Hc0 : cancelling t w0 w0).
  { apply cancelling_refl; [|done]. by apply (wf_ext w w0). }
  assert (Hstart : OSCancelAlarms t w =
            (OSCancelAlarms_core t 0;; OSCancelAlarms_core t 1;;
             OSCancelAlarms_core t 2;; release) w0) by done.
  rewrite Hstart. clear Hstart.
  assert (Hlen0 : length (gAlarmQueue w0) = length (gAlarmQueue w)) by done.
  destruct (decide (length (gAlarmQueue w0) ≤ 0)%nat) as [H0|H0].
  { unfold mbind, M_bind. by rewrite OSCancelAlarms_core_oob. }
  destruct (OSCancelAlarms_core_spec t w0 w0 0 [] Hc0)
    as (w1 & R1 & Hc1 & Hcl1).
  { intros j Hj. by apply not_elem_of_nil in Hj. }
  { lia. }
  erewrite bind_run by exact R1.
  pose proof Hc1 as (_ & _ & Hlen1 & _).
  destruct (decide (length (gAlarmQueue w1) ≤ 1)%nat) as [H1|H1].
  { unfold mbind, M_bind. by rewrite OSCancelAlarms_core_oob. }
  destruct (OSCancelAlarms_core_spec t w0 w1 1 [0%nat] Hc1 Hcl1)
    as (w2 & R2 & Hc2 & Hcl2).
  { lia. }
  erewrite bind_run by exact R2.
  pose proof Hc2 as (_ & _ & Hlen2 & _).
  unfold mbind, M_bind. rewrite OSCancelAlarms_core_oob; [done|lia].
Qed.

Lemma OSSetPeriodicAlarm_fails p start interval cb w :
  mem w !! p = None ∨ gAlarmQueue w !! core_id w = None →
  ∃ e, OSSetPeriodicAlarm p start interval cb w = Err e.
Proof.
  intros H. wopen w. unfold OSSetPeriodicAlarm. munfold.
  destruct (wm !! p) as [a|] eqn:Ha; mrun; [|by eauto].
  destruct H as [H|H]; [done|].
  destruct (alarmQueue a) as [q|] eqn:Eq; mrun.
  - destruct (wq !! q) as [l|] eqn:Hl; mrun; [|by eauto].
    rewrite (lookup_ge_None_2 (<[q:=filter (λ x, x ≠ p) l]> wq) wi).
    + by eauto.
    + rewrite length_insert. by apply lookup_ge_None_1.
  - by eauto.
Qed.

Lemma OSSetPeriodicAlarm_wf p start interval cb w w' r :
  wf w → OSSetPeriodicAlarm p start interval cb w = Ok r w' →
  wf w' ∧ length (gAlarmQueue w') = length (gAlarmQueue w).
Proof.
  intros Hwf Hr.
  destruct (mem w !! p) as [a|] eqn:Ha.
  2:{ destruct (OSSetPeriodicAlarm_fails p start interval cb w) as [e He];
        [by left|congruence]. }
  destruct (gAlarmQueue w !! core_id w) as [l|] eqn:Hl.
  2:{ destruct (OSSetPeriodicAlarm_fails p start interval cb w) as [e He];
        [by right|congruence]. }
  erewrite OSSetPeriodicAlarm_run in Hr; [|done| |done].
  2:{ intros q Hq. apply lookup_lt_is_Some. by eapply wf_owner. }
  injection Hr as _ <-.
  assert (Hc : (core_id w < length (gAlarmQueue w))%nat)
    by (by eapply lookup_lt_Some).
  split.
  - eapply (wf_insert w _ p _ (core_id w)); [done|done| | |reflexivity|].
    + done.
    + done.
    + cbn. by rewrite (unlinked_from_everywhere w p a).
  - cbn. by rewrite length_linked_into, length_unlinked_from.
Qed.

Lemma store_fails p f w : mem w !! p = None → store p f w = Err InvalidPointer.
Proof. intros H. unfold store. by rewrite H. Qed.

Lemma load_fails p w : mem w !! p = None → load p w = Err InvalidPointer.
Proof. intros H. unfold load. by rewrite H. Qed.

Lemma OSSetPeriodicAlarm_Ok p start interval cb w w' r :
  wf w → OSSetPeriodicAlarm p start interval cb w = Ok r w' →
  ∃ a, mem w !! p = Some a ∧
       mem w' = <[p := armed start interval cb (core_id w) a]> (mem w).
Proof.
  intros Hwf Hr.
  destruct (mem w !! p) as [a|] eqn:Ha.
  2:{ destruct (OSSetPeriodicAlarm_fails p start interval cb w) as [e He];
        [by left|congruence]. }
  destruct (gAlarmQueue w !! core_id w) as [l|] eqn:Hl.
  2:{ destruct (OSSetPeriodicAlarm_fails p start interval cb w) as [e He];
        [by right|congruence]. }
  erewrite OSSetPeriodicAlarm_run in Hr; [|done| |done].
  2:{ intros q Hq. apply lookup_lt_is_Some. by eapply wf_owner. }
  injection Hr as _ <-. by exists a.
Qed.

Lemma boot_wf n clock' : wf (boot n clock').
Proof.
  split; cbn.
  - intros q l p Hl Hp. apply lookup_replicate in Hl as [-> _].
    by apply not_elem_of_nil in Hp.
  - intros p a Ha. by rewrite lookup_empty in Ha.
  - intros p a q Ha. by rewrite lookup_empty in Ha.
  - intros q l Hl. apply lookup_replicate in Hl as [-> _]. apply NoDup_nil_2.
  - intros p a Ha. by rewrite lookup_empty in Ha.
Qed.

Lemma wf_armed_iff_linked w : wf w → armed_iff_linked w.
Proof.
  intros Hwf p a Ha. split.
  - intros Hs. destruct (wf_armed w Hwf p a Ha Hs) as (q & Hq & Hlk).
    exists q. split; [done|]. intros q' (l' & Hl' & Hp').
    destruct (wf_member w Hwf q' l' p Hl' Hp') as (a' & Ha' & _ & Hq').
    congruence.
  - intros (q & (l & Hl & Hp) & _).
    destruct (wf_member w Hwf q l p Hl Hp) as (a' & Ha' & Hs' & _).
    congruence.
Qed.

Section Runs.

Variable Tag : Z.
Variable run_callback : nat → nat → option nat → World → World.
Hypothesis callbacks_leave_alarms : callbacks_frame run_callback.

Lemma run_op_wf op w w' :
  wf w → create_unlinked w op →
  run_op Tag run_callback op w = Ok tt w' →
  wf w' ∧ length (gAlarmQueue w') = length (gAlarmQueue w).
Proof.
  intros Hwf Hper Hrun.
  assert (Hcreate : ∀ p name',
            (∀ q, ¬ linked w p q) →
            OSCreateAlarmEx Tag p name' w = Ok tt w' →
            wf w' ∧ length (gAlarmQueue w') = length (gAlarmQueue w)).
  { intros p name' Hp Hr.
    destruct (decide (p = 0%nat)) as [->|Hp0].
    { exfalso. clear -Hr. wopen w. unfold OSCreateAlarmEx in Hr.
      munfold. by mrun. }
    rewrite OSCreateAlarmEx_fresh in Hr by done. injection Hr as <-.
    split; [|done].
    eapply (wf_remove w _ p); [done| | | |reflexivity|]; try done.
    cbn. by rewrite unlinked_everywhere_id. }
  destruct op as [p|p name'|c p time cb|c p start interval cb|p|t|c ctx|p t|p d];
    cbn in Hrun, Hper.
  - by apply (Hcreate p None).
  - by apply (Hcreate p name').
  - unfold discard, on_core in Hrun.
    unfold mbind, M_bind, update in Hrun. rewrite OSSetAlarm_unfold in Hrun.
    destruct (OSSetPeriodicAlarm _ _ _ _ _) as [r w2|] eqn:Hr; [|done].
    cbn in Hrun. injection Hrun as <-.
    apply OSSetPeriodicAlarm_wf in Hr; [done|]. by apply (wf_ext w).
  - unfold discard, on_core in Hrun.
    unfold mbind, M_bind, update in Hrun.
    destruct (OSSetPeriodicAlarm _ _ _ _ _) as [r w2|] eqn:Hr; [|done].
    cbn in Hrun. injection Hrun as <-.
    apply OSSetPeriodicAlarm_wf in Hr; [done|]. by apply (wf_ext w).
  - unfold discard in Hrun. unfold mbind, M_bind in Hrun.
    destruct (mem w !! p) as [a|] eqn:Ha.
    2:{ exfalso. revert Hrun. clear -Ha. wopen w.
        unfold OSCancelAlarm, OSCancelAlarmNoLock. munfold. by mrun. }
    destruct (decide (state a = AlarmSet)) as [Hs|Hs].
    + rewrite (OSCancelAlarm_armed w p a) in Hrun; [|done|done|].
      2:{ intros q Hq. apply lookup_lt_is_Some. by eapply wf_owner. }
      cbn in Hrun. injection Hrun as <-. split.
      * eapply (wf_remove w _ p (cancelled a)); [done| | | |reflexivity|];
          try done.
        -- intros q Hq. by eapply (wf_owner w Hwf p a).
        -- cbn. by apply unlinked_from_everywhere.
      * cbn. by rewrite length_unlinked_from.
    + rewrite (OSCancelAlarm_idle w p a) in Hrun by done.
      cbn in Hrun. injection Hrun as <-. split; [|done].
      by apply (wf_ext w).
  - destruct (decide (3 ≤ length (gAlarmQueue w))%nat) as [Hlen|Hlen].
    + destruct (OSCancelAlarms_spec t w Hwf Hlen) as (w2 & Hr & Hwf2 & _ & Hl2 & _).
      rewrite Hr in Hrun. by injection Hrun as <-.
    + rewrite OSCancelAlarms_short in Hrun; [done|done|lia].
  - destruct (gAlarmQueue w !! c) as [l|] eqn:Hl.
    2:{ exfalso. revert Hrun. unfold OSCheckAlarms, gAlarmQueue_at.
        unfold mbind, M_bind. by rewrite Hl. }
    destruct (OSCheckAlarms_spec run_callback callbacks_leave_alarms
                c ctx w l Hwf Hl)
      as (w2 & T & l' & Hr & Hwf2 & _ & _ & _ & _ & _ & _ & Hlen).
    rewrite Hr in Hrun. by injection Hrun as <-.
  - destruct (mem w !! p) as [a|] eqn:Ha.
    2:{ exfalso. revert Hrun. clear -Ha. wopen w.
        unfold OSSetAlarmTag. munfold. by mrun. }
    rewrite (OSSetAlarmTag_run w p a) in Hrun by done.
    injection Hrun as <-. split; [|done].
    eapply (wf_keep w _ p a (set_alarmTag t a));
      [done|done|done|done| |reflexivity|done].
    intros Hs. cbn. by eapply wf_idle.
  - destruct (mem w !! p) as [a|] eqn:Ha.
    2:{ exfalso. revert Hrun. clear -Ha. wopen w.
        unfold OSSetAlarmUserData. munfold. by mrun. }
    rewrite (OSSetAlarmUserData_run w p a) in Hrun by done.
    injection Hrun as <-. split; [|done].
    eapply (wf_keep w _ p a (set_userData d a));
      [done|done|done|done| |reflexivity|done].
    intros Hs. cbn. by eapply wf_idle.
Qed.

Lemma steps_wf w0 w :
  wf w0 →
  steps Tag run_callback create_unlinked w0 w →
  wf w ∧ length (gAlarmQueue w) = length (gAlarmQueue w0).
Proof.
  intros Hwf0 Hsteps. induction Hsteps as [|w1 op w2 _ [IH1 IH2] Hop Hrun].
  - done.
  - destruct (run_op_wf op w1 w2 IH1 Hop Hrun) as [H1 H2].
    split; [done|congruence].
Qed.

(** An alarm that is not armed stays so until it is armed again. *)
Lemma run_op_keeps_idle op w w' p a :
  wf w → leaves_idle p w op →
  run_op Tag run_callback op w = Ok tt w' →
  mem w !! p = Some a → state a ≠ AlarmSet → tag a = Tag →
  ∃ a', mem w' !! p = Some a' ∧ state a' ≠ AlarmSet ∧ tag a' = Tag.
Proof.
  intros Hwf [Hper Harm] Hrun Ha Hs Ht.
  assert (Hcreate : ∀ x name',
            OSCreateAlarmEx Tag x name' w = Ok tt w' →
            ∃ a', mem w' !! p = Some a' ∧ state a' ≠ AlarmSet ∧ tag a' = Tag).
  { intros x name' Hr.
    destruct (decide (x = 0%nat)) as [->|Hx0].
    { exfalso. clear -Hr. wopen w. unfold OSCreateAlarmEx in Hr.
      munfold. by mrun. }
    rewrite OSCreateAlarmEx_run in Hr by done. injection Hr as <-. cbn.
    destruct (decide (x = p)) as [->|Hne].
    - rewrite lookup_insert_eq. eexists. split; [done|]. done.
    - rewrite lookup_insert_ne by done. eauto. }
  assert (Hset : ∀ x start interval cb w1 r,
            x ≠ p → mem w1 = mem w → gAlarmQueue w1 = gAlarmQueue w →
            OSSetPeriodicAlarm x start interval cb w1 = Ok r w' →
            ∃ a', mem w' !! p = Some a' ∧ state a' ≠ AlarmSet ∧ tag a' = Tag).
  { intros x start interval cb w1 r Hne Hm1 Hq1 Hr.
    apply OSSetPeriodicAlarm_Ok in Hr as (ax & _ & ->);
      [|by apply (wf_ext w)].
    rewrite lookup_insert_ne, Hm1 by done. eauto. }
  destruct op as [x|x name'|c x time cb|c x start interval cb|x|t|c ctx|x t|x d];
    cbn in Hrun, Hper, Harm.
  - by apply (Hcreate x None).
  - by apply (Hcreate x name').
  - unfold discard, on_core in Hrun.
    unfold mbind, M_bind, update in Hrun. rewrite OSSetAlarm_unfold in Hrun.
    destruct (OSSetPeriodicAlarm _ _ _ _ _) as [r w2|] eqn:Hr; [|done].
    cbn in Hrun. injection Hrun as <-. by eapply Hset; [| | |exact Hr].
  - unfold discard, on_core in Hrun.
    unfold mbind, M_bind, update in Hrun.
    destruct (OSSetPeriodicAlarm _ _ _ _ _) as [r w2|] eqn:Hr; [|done].
    cbn in Hrun. injection Hrun as <-. by eapply Hset; [| | |exact Hr].
  - unfold discard in Hrun. unfold mbind, M_bind in Hrun.
    destruct (mem w !! x) as [ax|] eqn:Hax.
    2:{ exfalso. revert Hrun. clear -Hax. wopen w.
        unfold OSCancelAlarm, OSCancelAlarmNoLock. munfold. by mrun. }
    destruct (decide (state ax = AlarmSet)) as [Hsx|Hsx].
    + rewrite (OSCancelAlarm_armed w x ax) in Hrun; [|done|done|].
      2:{ intros q Hq. apply lookup_lt_is_Some. by eapply wf_owner. }
      cbn in Hrun. injection Hrun as <-. cbn.
      rewrite lookup_insert_ne by congruence. eauto.
    + rewrite (OSCancelAlarm_idle w x ax) in Hrun by done.
      cbn in Hrun. injection Hrun as <-. eauto.
  - destruct (decide (3 ≤ length (gAlarmQueue w))%nat) as [Hlen|Hlen].
    + destruct (OSCancelAlarms_spec t w Hwf Hlen)
        as (w2 & Hr & _ & _ & _ & _ & _ & Hsame & _).
      rewrite Hr in Hrun. injection Hrun as <-.
      destruct (Hsame p a Ha) as [Hp _]; [tauto|]. eauto.
    + rewrite OSCancelAlarms_short in Hrun; [done|done|lia].
  - destruct (gAlarmQueue w !! c) as [l|] eqn:Hl.
    2:{ exfalso. revert Hrun. unfold OSCheckAlarms, gAlarmQueue_at.
        unfold mbind, M_bind. by rewrite Hl. }
    destruct (OSCheckAlarms_spec run_callback callbacks_leave_alarms
                c ctx w l Hwf Hl)
      as (w2 & T & l' & Hr & _ & _ & _ & _ & _ & Hout & _).
    rewrite Hr in Hrun. injection Hrun as <-.
    rewrite Hout; [eauto|]. intros Hp.
    destruct (wf_member w Hwf c l p Hl Hp) as (a' & Ha' & Hs' & _).
    congruence.
  - destruct (mem w !! x) as [ax|] eqn:Hax.
    2:{ exfalso. revert Hrun. clear -Hax. wopen w.
        unfold OSSetAlarmTag. munfold. by mrun. }
    rewrite (OSSetAlarmTag_run w x ax) in Hrun by done.
    injection Hrun as <-. cbn.
    destruct (decide (x = p)) as [->|Hne].
    + rewrite lookup_insert_eq. assert (ax = a) by congruence. subst ax.
      eexists. split; [done|]. done.
    + rewrite lookup_insert_ne by done. eauto.
  - destruct (mem w !! x) as [ax|] eqn:Hax.
    2:{ exfalso. revert Hrun. clear -Hax. wopen w.
        unfold OSSetAlarmUserData. munfold. by mrun. }
    rewrite (OSSetAlarmUserData_run w x ax) in Hrun by done.
    injection Hrun as <-. cbn.
    destruct (decide (x = p)) as [->|Hne].
    + rewrite lookup_insert_eq. assert (ax = a) by congruence. subst ax.
      eexists. split; [done|]. done.
    + rewrite lookup_insert_ne by done. eauto.
Qed.

Lemma steps_keep_idle w1 w2 p a :
  wf w1 →
  steps Tag run_callback (leaves_idle p) w1 w2 →
  mem w1 !! p = Some a → state a ≠ AlarmSet → tag a = Tag →
  wf w2 ∧ ∃ a', mem w2 !! p = Some a' ∧ state a' ≠ AlarmSet ∧ tag a' = Tag.
Proof.
  intros Hwf Hsteps Ha Hs Ht.
  induction Hsteps as [|w op w' _ [IHwf (a1 & Ha1 & Hs1 & Ht1)] Hop Hrun].
  - eauto.
  - split.
    + eapply run_op_wf; eauto. by destruct Hop.
    + eapply run_op_keeps_idle; eauto.
Qed.

(** X1.  On a well-formed world an operation whose addresses are valid
    returns. *)
Lemma run_op_total op w :
  wf w → addressed w op → ∃ w', run_op Tag run_callback op w = Ok tt w'.
Proof.
  intros Hwf Hadd.
  assert (Hq : ∀ p a q, mem w !! p = Some a → alarmQueue a = Some q →
                        is_Some (gAlarmQueue w !! q)).
  { intros p a q Ha Hqa. apply lookup_lt_is_Some. by eapply wf_owner. }
  destruct op as [p|p name'|c p time cb|c p start interval cb|p|t|c ctx|p t|p d];
    cbn in Hadd; cbn.
  - eexists. by apply OSCreateAlarmEx_run.
  - eexists. by apply OSCreateAlarmEx_run.
  - destruct Hadd as [[a Ha] Hc].
    destruct (lookup_lt_is_Some_2 _ _ Hc) as [l Hl].
    eexists. unfold discard, on_core, mbind, M_bind, update.
    rewrite OSSetAlarm_unfold.
    erewrite (OSSetPeriodicAlarm_run _ p a); [reflexivity|done| |done].
    intros q. by apply (Hq p a).
  - destruct Hadd as [[a Ha] Hc].
    destruct (lookup_lt_is_Some_2 _ _ Hc) as [l Hl].
    eexists. unfold discard, on_core, mbind, M_bind, update.
    erewrite (OSSetPeriodicAlarm_run _ p a); [reflexivity|done| |done].
    intros q. by apply (Hq p a).
  - destruct Hadd as [a Ha]. unfold discard, mbind, M_bind.
    destruct (decide (state a = AlarmSet)) as [Hs|Hs].
    + eexists. rewrite (OSCancelAlarm_armed w p a); [reflexivity|done..|].
      intros q. by apply (Hq p a).
    + eexists. by rewrite (OSCancelAlarm_idle w p a).
  - destruct (OSCancelAlarms_spec t w Hwf Hadd) as (w' & Hr & _). eauto.
  - destruct (lookup_lt_is_Some_2 _ _ Hadd) as [l Hl].
    destruct (OSCheckAlarms_spec run_callback callbacks_leave_alarms
                c ctx w l Hwf Hl) as (w' & T & l' & Hr & _). eauto.
  - destruct Hadd as [a Ha]. eexists. by apply (OSSetAlarmTag_run w p a).
  - destruct Hadd as [a Ha]. eexists. by apply (OSSetAlarmUserData_run w p a).
Qed.

End Runs.

(** ** The trigger engine, member by member *)

Section ScanOutcome.

Variable run_callback : nat → nat → option nat → World → World.
Hypothesis callbacks_leave_alarms : callbacks_frame run_callback.

Lemma outcomes_step now ctx core l0 w0 p rest next w :
  scanning core l0 w0 (p :: rest) next w →
  outcomes now ctx l0 w0 (p :: rest) w →
  ∃ next' w',
    OSCheckAlarms_visit run_callback now ctx p next w = Ok next' w' ∧
    scanning core l0 w0 rest next' w' ∧
    outcomes now ctx l0 w0 rest w'.
Proof.
  intros Hscan [Hrest Hdone].
  destruct (scanning_step run_callback callbacks_leave_alarms
              now ctx core l0 w0 p rest next w Hscan)
    as (next' & w' & Hrun & Hscan').
  exists next', w'. split; [done|]. split; [done|].
  destruct Hscan as (Hwf & Hl & (done & Hl0 & _) & Hnd & Hlk & _).
  destruct (Hlk p) as (l & Hlq & Hpl); [by left|].
  destruct (wf_member w Hwf core l p Hlq Hpl) as (a & Ha & Hs & Hqa).
  assert (Hpr : p ∉ rest).
  { rewrite Hl0 in Hnd. apply NoDup_app in Hnd as (_ & _ & Hnd).
    by apply NoDup_cons in Hnd as [? _]. }
  assert (Ha0 : mem w0 !! p = Some a) by (rewrite <- Hrest; [done|by left]).
  assert (Hmem : ∃ a', mem w' = <[p := a']> (mem w) ∧
                       scan_outcome now ctx a a').
  { destruct (decide (due now a)) as [Hd|Hd].
    - destruct (OSCheckAlarms_visit_due run_callback callbacks_leave_alarms
                  now ctx p next w a Hl Ha Hd)
        as (w'' & Hrun' & _ & Hm' & _).
      { intros _. exists core. split; [done|]. by exists l. }
      rewrite Hrun in Hrun'. injection Hrun' as _ <-.
      eexists. split; [exact Hm'|]. split; [eauto|done].
    - rewrite (OSCheckAlarms_visit_skip run_callback now ctx p next w a
                 Hl Ha Hd) in Hrun.
      injection Hrun as _ <-. exists a. split.
      + by rewrite insert_id.
      + split; [done|eauto]. }
  destruct Hmem as (a' & Hm' & Ho). split.
  - intros x Hx. rewrite Hm', lookup_insert_ne.
    + apply Hrest. by right.
    + intros <-. done.
  - intros x ax Hx0 Hxr Hax. destruct (decide (x = p)) as [->|Hne].
    + exists a'. rewrite Hm', lookup_insert_eq. split; [done|].
      by replace ax with a by congruence.
    + rewrite Hm', lookup_insert_ne by done. apply Hdone; [done| |done].
      rewrite elem_of_cons. tauto.
Qed.

(** A scan of the queue of [core], whose members are [l]: the world it
    returns, the outcome for every member and the frame. *)
Lemma OSCheckAlarms_outcome core ctx w l :
  wf w →
  gAlarmQueue w !! core = Some l →
  ∃ w',
    OSCheckAlarms run_callback core ctx w = Ok tt w' ∧
    wf w' ∧ gAlarmLock w' = false ∧
    (∀ p a, p ∈ l → mem w !! p = Some a →
       ∃ a', mem w' !! p = Some a' ∧
             scan_outcome (clock w (ticks w)) ctx a a') ∧
    (∀ p, p ∉ l → mem w' !! p = mem w !! p) ∧
    (∀ q, q ≠ core → gAlarmQueue w' !! q = gAlarmQueue w !! q) ∧
    (∀ p, linked w' p core → p ∈ l) ∧
    length (gAlarmQueue w') = length (gAlarmQueue w).
Proof.
  intros Hwf Hq.
  set (w1 := with_trace (trace w ++ [EvLockScheduler; EvAcquire])
               (with_lock true (with_ticks (S (ticks w)) w))).
  assert (Hwf1 : wf w1) by (by apply (wf_ext w w1)).
  set (now := clock w (ticks w)).
  destruct (for_each_inv
              (OSCheckAlarms_visit run_callback now ctx)
              (λ rest next w', scanning core l w1 rest next w' ∧
                               outcomes now ctx l w1 rest w')
              l TimeMax w1)
    as (T & w2 & Hrun & Hend & Hout).
  { split; [by apply scanning_start|]. split; [done|]. intros p a Hp Hn.
    done. }
  { intros p rest acc w' [HI HO].
    destruct (outcomes_step now ctx core l w1 p rest acc w' HI HO)
      as (n' & w'' & ? & ? & ?). eauto. }
  destruct Hend as (Hwf2 & _ & _ & _ & _ & Hin & _ & Hfr & Hoq & _ & Hlen).
  destruct Hout as [_ Hout].
  exists (with_trace (trace w2 ++ [EvRelease; EvUnlockScheduler;
                                   EvSetInterruptTimer core T])
            (with_timers (<[core := T]> (timers w2)) (with_lock false w2))).
  split; [|split; [|split; [|split; [|split; [|split; [|split]]]]]].
  - unfold OSCheckAlarms, w1, now in *.
    clear Hwf2 Hwf1 Hout Hoq Hwf Hlen Hin Hfr.
    wopen w. wsimp_in Hrun. munfold. mrun. rewrite <- app_assoc. cbn.
    rewrite Hrun.
    wopen w2. mrun. wdone.
  - by apply (wf_ext w2).
  - done.
  - intros p a Hp Ha. apply (Hout p a); [done| |done].
    apply not_elem_of_nil.
  - done.
  - done.
  - intros p Hp. apply Hin. by apply (linked_ext w2 _ p core eq_refl).
  - done.
Qed.

End ScanOutcome.

(** A scan over members none of which is due changes nothing. *)
Lemma for_each_skip run_callback now ctx l next w :
  gAlarmLock w = true →
  (∀ p, p ∈ l → ∃ a, mem w !! p = Some a ∧ ¬ due now a) →
  ∃ T, for_each (OSCheckAlarms_visit run_callback now ctx) l next w = Ok T w ∧
       (l = [] → T = next).
Proof.
  intros Hl. revert next. induction l as [|p l IH]; intros next Hmem.
  - by exists next.
  - destruct (Hmem p) as (a & Ha & Hd); [by left|].
    destruct (IH (earlier a next)) as (T & Hrun & _).
    { intros x Hx. apply Hmem. by right. }
    exists T. split; [|done]. cbn.
    erewrite bind_run; [exact Hrun|].
    by apply OSCheckAlarms_visit_skip.
Qed.

(** The loop body on a due one-shot alarm whose back pointer is null. *)
Lemma OSCheckAlarms_visit_null run_callback now ctx p next w a :
  gAlarmLock w = true → mem w !! p = Some a →
  nextFire a ≤ now → state a ≠ AlarmCancelled →
  period a = 0 → alarmQueue a = None →
  OSCheckAlarms_visit run_callback now ctx p next w = Err InvalidPointer.
Proof.
  intros Hl Ha Hn Hs Hp Hqa.
  wopen w. unfold OSCheckAlarms_visit, OSTriggerAlarmNoLock.
  munfold. mrun. reflexivity.
Qed.

(** ** Cancelling by tag, queue by queue *)

Lemma OSCancelAlarms_visit_frame t w0 w p i w' :
  cancelling t w0 w → linked w p i →
  OSCancelAlarms_visit t p tt w = Ok tt w' →
  (∀ q, q ≠ i → gAlarmQueue w' !! q = gAlarmQueue w !! q) ∧
  unguarded w' = unguarded w.
Proof.
  intros (Hwf & Hl & _) (l & Hq & Hp) Hrun.
  destruct (wf_member w Hwf i l p Hq Hp) as (a & Ha & Hs & Hqa).
  destruct (decide (alarmTag a = t)) as [Ht|Ht].
  - rewrite (OSCancelAlarms_visit_match t p w a) in Hrun; try done.
    + injection Hrun as <-. split; [|done]. intros q Hne. cbn.
      rewrite Hqa. unfold unlinked_from. rewrite Hq.
      by rewrite list_lookup_insert_ne.
    + intros q Hq0. apply lookup_lt_is_Some. by eapply wf_owner.
  - rewrite (OSCancelAlarms_visit_other t p w a) in Hrun; [|done|done|tauto].
    by injection Hrun as <-.
Qed.

Lemma OSCancelAlarms_core_frame t w0 w i cleaned :
  cancelling t w0 w →
  (∀ j, j ∈ cleaned → clean t w j []) →
  (i < length (gAlarmQueue w))%nat →
  ∃ w',
    OSCancelAlarms_core t i w = Ok tt w' ∧
    cancelling t w0 w' ∧
    (∀ j, j ∈ i :: cleaned → clean t w' j []) ∧
    (∀ q, q ≠ i → gAlarmQueue w' !! q = gAlarmQueue w !! q) ∧
    unguarded w' = unguarded w.
Proof.
  intros Hc Hcl Hi.
  destruct (OSCancelAlarms_core_spec t w0 w i cleaned Hc Hcl Hi)
    as (w' & Hrun & Hc' & Hcl').
  exists w'. split; [done|]. split; [done|]. split; [done|].
  destruct (lookup_lt_is_Some_2 _ _ Hi) as [l Hl].
  destruct (for_each_inv (OSCancelAlarms_visit t)
              (λ rest _ w1, cancelling t w0 w1 ∧ NoDup rest ∧
                 (∀ p, p ∈ rest → linked w1 p i) ∧
                 (∀ q, q ≠ i → gAlarmQueue w1 !! q = gAlarmQueue w !! q) ∧
                 unguarded w1 = unguarded w) l tt w)
    as ([] & w'' & Hrun' & _ & _ & _ & Hfr & Hu).
  { split; [done|]. split; [|split; [|done]].
    - destruct Hc as (Hwf & _). by eapply wf_nodup.
    - intros p Hp. by exists l. }
  { intros p rest [] w1 (Hc1 & Hnd & Hlk & Hfr & Hu).
    apply NoDup_cons in Hnd as [Hp Hnd].
    assert (Hpi : linked w1 p i) by (apply Hlk; by left).
    destruct (cancelling_step t w0 w1 p i Hc1 Hpi)
      as (w2 & Hrun2 & Hc2 & Hk & _).
    destruct (OSCancelAlarms_visit_frame t w0 w1 p i w2 Hc1 Hpi Hrun2)
      as [Hfr2 Hu2].
    exists tt, w2. split; [done|]. split; [done|]. split; [done|].
    split; [|split].
    - intros x Hx. apply Hk; [by intros ->|]. apply Hlk. by right.
    - intros q Hq. rewrite Hfr2 by done. by apply Hfr.
    - congruence. }
  assert (w'' = w') as ->.
  { revert Hrun. unfold OSCancelAlarms_core, gAlarmQueue_at, queue_members.
    unfold mbind, M_bind. rewrite Hl. cbn. rewrite Hl, Hrun'. congruence. }
  done.
Qed.

(** [OSCancelAlarms] on a well-formed world of at least three cores:
    what becomes of every record and of every link. *)
Lemma OSCancelAlarms_records t w :
  wf w → (3 ≤ length (gAlarmQueue w))%nat →
  ∃ w',
    OSCancelAlarms t w = Ok tt w' ∧
    wf w' ∧
    (∀ q, (3 ≤ q)%nat → gAlarmQueue w' !! q = gAlarmQueue w !! q) ∧
    (∀ p a, mem w !! p = Some a →
       mem w' !! p = Some a ∨
       (state a = AlarmSet ∧ alarmTag a = t ∧
        mem w' !! p = Some (cancelled a))) ∧
    (∀ p q, linked w' p q ↔
       linked w p q ∧ ∃ a, mem w' !! p = Some a ∧ state a = AlarmSet) ∧
    unguarded w' = unguarded w.
Proof.
  intros Hwf Hlen.
  set (w0 := with_trace (trace w ++ [EvAcquire]) (with_lock true w)).
  assert (Hc0 : cancelling t w0 w0).
  { apply cancelling_refl; [|done]. by apply (wf_ext w w0). }
  assert (Hlen' : ∀ w1, cancelling t w0 w1 → ∀ i, (i < 3)%nat →
                        (i < length (gAlarmQueue w1))%nat).
  { intros w1 (_ & _ & Hl1 & _) i Hi. rewrite Hl1. cbn. lia. }
  destruct (OSCancelAlarms_core_frame t w0 w0 0 [] Hc0)
    as (w1 & R1 & Hc1 & Hcl1 & F1 & U1).
  { intros j Hj. by apply not_elem_of_nil in Hj. }
  { apply Hlen'; [done|lia]. }
  destruct (OSCancelAlarms_core_frame t w0 w1 1 [0%nat] Hc1 Hcl1)
    as (w2 & R2 & Hc2 & Hcl2 & F2 & U2).
  { apply Hlen'; [done|lia]. }
  destruct (OSCancelAlarms_core_frame t w0 w2 2 [1%nat; 0%nat] Hc2 Hcl2)
    as (w3 & R3 & Hc3 & Hcl3 & F3 & U3).
  { apply Hlen'; [done|lia]. }
  exists (with_trace (trace w3 ++ [EvRelease]) (with_lock false w3)).
  destruct Hc3 as (Hwf3 & _ & _ & _ & Hrec & Hlk & _).
  split; [|split; [|split; [|split; [|split]]]].
  - unfold OSCancelAlarms.
    unfold acquire at 1. munfold.
    replace (with_trace (trace (with_lock true w) ++ [EvAcquire])
               (with_lock true w)) with w0 by done.
    rewrite R1, R2, R3. done.
  - by apply (wf_ext w3).
  - intros q Hq. cbn. rewrite F3, F2, F1 by lia. done.
  - intros p a Ha. cbn. destruct (Hrec p a Ha) as [H|(H1 & H2 & H3 & _)]; eauto.
  - intros p q. cbn -[linked]. change (linked w3 p q ↔ linked w0 p q ∧
      ∃ a, mem w3 !! p = Some a ∧ state a = AlarmSet). apply Hlk.
  - cbn. by rewrite U3, U2, U1.
Qed.

(** ** What an operation does to a record *)

Lemma OSCreateAlarmEx_null Tag name' w :
  ∃ e, OSCreateAlarmEx Tag 0 name' w = Err e.
Proof. wopen w. unfold OSCreateAlarmEx. munfold. mrun. eauto. Qed.

Lemma OSCancelAlarm_fails p w :
  mem w !! p = None → ∃ e, OSCancelAlarm p w = Err e.
Proof.
  intros Ha. wopen w. unfold OSCancelAlarm, OSCancelAlarmNoLock.
  munfold. mrun. eauto.
Qed.

Lemma OSSetAlarmTag_fails p t w :
  mem w !! p = None → ∃ e, OSSetAlarmTag p t w = Err e.
Proof. intros Ha. wopen w. unfold OSSetAlarmTag. munfold. mrun. eauto. Qed.

Lemma OSSetAlarmUserData_fails p d w :
  mem w !! p = None → ∃ e, OSSetAlarmUserData p d w = Err e.
Proof.
  intros Ha. wopen w. unfold OSSetAlarmUserData. munfold. mrun. eauto.
Qed.

Lemma OSCheckAlarms_oob run_callback core ctx w :
  gAlarmQueue w !! core = None →
  OSCheckAlarms run_callback core ctx w = Err OutOfBounds.
Proof.
  intros Hl. unfold OSCheckAlarms, gAlarmQueue_at, mbind, M_bind.
  by rewrite Hl.
Qed.

Section Records.

Variable Tag : Z.
Variable run_callback : nat → nat → option nat → World → World.
Hypothesis callbacks_leave_alarms : callbacks_frame run_callback.

(** No operation removes a record, and a record changes only in the
    ways of [record_step]. *)
Lemma run_op_record op w w' p a :
  wf w → run_op Tag run_callback op w = Ok tt w' →
  mem w !! p = Some a →
  ∃ a', mem w' !! p = Some a' ∧ (a' = a ∨ record_step Tag p op a a').
Proof.
  intros Hwf Hrun Ha.
  assert (Hcreate : ∀ x name',
            OSCreateAlarmEx Tag x name' w = Ok tt w' →
            ∃ a', mem w' !! p = Some a' ∧
              (a' = a ∨ x = p ∧ a' = set_name name' (set_tag Tag zero_alarm))).
  { intros x name' Hr.
    destruct (decide (x = 0%nat)) as [->|Hx0].
    { destruct (OSCreateAlarmEx_null Tag name' w) as [e He]. congruence. }
    rewrite OSCreateAlarmEx_run in Hr by done. injection Hr as <-. cbn.
    destruct (decide (x = p)) as [->|Hne].
    - rewrite lookup_insert_eq. eauto.
    - rewrite lookup_insert_ne by done. eauto. }
  assert (Hset : ∀ x start interval cb w1 r,
            mem w1 = mem w → gAlarmQueue w1 = gAlarmQueue w →
            OSSetPeriodicAlarm x start interval cb w1 = Ok r w' →
            ∃ a', mem w' !! p = Some a' ∧
              (a' = a ∨ x = p ∧ a' = armed start interval cb (core_id w1) a)).
  { intros x start interval cb w1 r Hm1 Hq1 Hr.
    apply OSSetPeriodicAlarm_Ok in Hr as (ax & Hax & ->);
      [|by apply (wf_ext w)].
    rewrite Hm1 in *. destruct (decide (x = p)) as [->|Hne].
    - rewrite lookup_insert_eq. assert (ax = a) as -> by congruence. eauto.
    - rewrite lookup_insert_ne by done. eauto. }
  destruct op as [x|x name'|c x time cb|c x start interval cb|x|t|c ctx|x t|x d];
    cbn in Hrun; cbn [record_step].
  - by apply (Hcreate x None).
  - by apply (Hcreate x name').
  - unfold discard, on_core in Hrun.
    unfold mbind, M_bind, update in Hrun. rewrite OSSetAlarm_unfold in Hrun.
    destruct (OSSetPeriodicAlarm _ _ _ _ _) as [r w2|] eqn:Hr; [|done].
    cbn in Hrun. injection Hrun as <-.
    apply Hset in Hr; [|done|done].
    destruct Hr as (a' & Ha' & [->|[-> ->]]); eauto 8.
  - unfold discard, on_core in Hrun.
    unfold mbind, M_bind, update in Hrun.
    destruct (OSSetPeriodicAlarm _ _ _ _ _) as [r w2|] eqn:Hr; [|done].
    cbn in Hrun. injection Hrun as <-.
    by apply Hset in Hr.
  - unfold discard in Hrun. unfold mbind, M_bind in Hrun.
    destruct (mem w !! x) as [ax|] eqn:Hax.
    2:{ destruct (OSCancelAlarm_fails x w Hax) as [e He].
        by rewrite He in Hrun. }
    destruct (decide (state ax = AlarmSet)) as [Hsx|Hsx].
    + rewrite (OSCancelAlarm_armed w x ax) in Hrun; [|done|done|].
      2:{ intros q Hq. apply lookup_lt_is_Some. by eapply wf_owner. }
      cbn in Hrun. injection Hrun as <-. cbn.
      destruct (decide (x = p)) as [->|Hne].
      * rewrite lookup_insert_eq. assert (ax = a) as -> by congruence.
        eauto 6.
      * rewrite lookup_insert_ne by done. eauto.
    + rewrite (OSCancelAlarm_idle w x ax) in Hrun by done.
      cbn in Hrun. injection Hrun as <-. eauto.
  - destruct (decide (3 ≤ length (gAlarmQueue w))%nat) as [Hlen|Hlen].
    + destruct (OSCancelAlarms_records t w Hwf Hlen)
        as (w2 & Hr & _ & _ & Hrec & _).
      rewrite Hr in Hrun. injection Hrun as <-.
      destruct (Hrec p a Ha) as [H|(H1 & H2 & H3)]; eauto 6.
    + rewrite OSCancelAlarms_short in Hrun; [done|done|lia].
  - destruct (gAlarmQueue w !! c) as [l|] eqn:Hl.
    2:{ by rewrite OSCheckAlarms_oob in Hrun. }
    destruct (OSCheckAlarms_outcome run_callback callbacks_leave_alarms
                c ctx w l Hwf Hl)
      as (w2 & Hr & _ & _ & Hout & Hfr & _).
    rewrite Hr in Hrun. injection Hrun as <-.
    destruct (decide (p ∈ l)) as [Hp|Hp].
    + destruct (wf_member w Hwf c l p Hl Hp) as (a0 & Ha0 & Hs & Hq).
      assert (a0 = a) as -> by congruence.
      destruct (Hout p a Hp Ha) as (a' & Ha' & Hdue & Hskip).
      exists a'. split; [done|].
      destruct (decide (due (clock w (ticks w)) a)) as [Hd|Hd].
      * right. destruct (Hdue Hd) as [t ->]. eauto.
      * left. by apply Hskip.
    + rewrite Hfr by done. eauto.
  - destruct (mem w !! x) as [ax|] eqn:Hax.
    2:{ destruct (OSSetAlarmTag_fails x t w Hax) as [e He]. congruence. }
    rewrite (OSSetAlarmTag_run w x ax) in Hrun by done.
    injection Hrun as <-. cbn.
    destruct (decide (x = p)) as [->|Hne].
    + rewrite lookup_insert_eq. assert (ax = a) as -> by congruence. eauto.
    + rewrite lookup_insert_ne by done. eauto.
  - destruct (mem w !! x) as [ax|] eqn:Hax.
    2:{ destruct (OSSetAlarmUserData_fails x d w Hax) as [e He]. congruence. }
    rewrite (OSSetAlarmUserData_run w x ax) in Hrun by done.
    injection Hrun as <-. cbn.
    destruct (decide (x = p)) as [->|Hne].
    + rewrite lookup_insert_eq. assert (ax = a) as -> by congruence. eauto.
    + rewrite lookup_insert_ne by done. eauto.
Qed.

End Records.

(** ** The lock discipline *)

Lemma guarded_ret {A} P (a : A) : guarded P (mret a) P.
Proof. intros w r w' Hl [= _ <-]. done. Qed.

Lemma guarded_fault {A} P Q e : guarded P (fault e : M A) Q.
Proof. intros w r w' _ H. discriminate H. Qed.

Lemma guarded_bind {A B} P Q R (m : M A) (f : A → M B) :
  guarded P m Q → (∀ a, guarded Q (f a) R) → guarded P (m ≫= f) R.
Proof.
  intros Hm Hf w r w' Hl Hrun. unfold mbind, M_bind in Hrun.
  destruct (m w) as [a w1|] eqn:E; [|done].
  destruct (Hm w a w1 Hl E) as [Hl1 Hu1].
  destruct (Hf a w1 r w' Hl1 Hrun) as [Hl2 Hu2].
  split; [done|congruence].
Qed.

Lemma guarded_update P f :
  (∀ w, gAlarmLock (f w) = gAlarmLock w ∧ unguarded (f w) = unguarded w) →
  guarded P (update f) P.
Proof.
  intros Hf w r w' Hl [= _ <-]. destruct (Hf w) as [-> ->]. done.
Qed.

Lemma guarded_log P e : guarded P (log e) P.
Proof. by apply guarded_update. Qed.

Lemma guarded_assert P (c : Prop) `{Decision c} : guarded P (assert c) P.
Proof.
  unfold assert. destruct (decide c); [apply guarded_ret|apply guarded_fault].
Qed.

Lemma guarded_load p : guarded true (load p) true.
Proof.
  intros w r w' Hl Hrun. unfold load in Hrun.
  destruct (mem w !! p); [|done]. injection Hrun as _ <-.
  by rewrite touch_locked.
Qed.

Lemma guarded_store p f : guarded true (store p f) true.
Proof.
  intros w r w' Hl Hrun. unfold store in Hrun.
  destruct (mem w !! p); [|done]. injection Hrun as _ <-.
  by rewrite touch_locked.
Qed.

Lemma guarded_acquire P : guarded P acquire true.
Proof. intros w r w' _ [= _ <-]. done. Qed.

Lemma guarded_release P : guarded P release false.
Proof. intros w r w' _ [= _ <-]. done. Qed.

Lemma guarded_OSGetTime P : guarded P OSGetTime P.
Proof. intros w r w' Hl [= _ <-]. done. Qed.

Lemma guarded_OSGetCoreId P : guarded P OSGetCoreId P.
Proof. intros w r w' Hl [= _ <-]. done. Qed.

Lemma guarded_gAlarmQueue_at P i : guarded P (gAlarmQueue_at i) P.
Proof.
  intros w r w' Hl Hrun. unfold gAlarmQueue_at in Hrun.
  destruct (gAlarmQueue w !! i); [|done]. by injection Hrun as _ <-.
Qed.

Lemma guarded_queue_members P q : guarded P (queue_members q) P.
Proof.
  intros w r w' Hl Hrun. unfold queue_members in Hrun.
  destruct (gAlarmQueue w !! q); [|done]. by injection Hrun as _ <-.
Qed.

Lemma guarded_OSAppendQueue P q p : guarded P (OSAppendQueue q p) P.
Proof.
  intros w r w' Hl Hrun. unfold OSAppendQueue in Hrun.
  destruct (gAlarmQueue w !! q); [|done]. by injection Hrun as _ <-.
Qed.

Lemma guarded_OSEraseFromQueue P q p : guarded P (OSEraseFromQueue q p) P.
Proof.
  intros w r w' Hl Hrun. unfold OSEraseFromQueue in Hrun.
  destruct (gAlarmQueue w !! q); [|done]. by injection Hrun as _ <-.
Qed.

Lemma guarded_for_each {S} P (body : nat → S → M S) l acc :
  (∀ p acc, guarded P (body p acc) P) → guarded P (for_each body l acc) P.
Proof.
  intros Hb. revert acc. induction l as [|p l IH]; intros acc; cbn.
  - apply guarded_ret.
  - eapply guarded_bind; [apply Hb|]. intros acc'. apply IH.
Qed.

Lemma guarded_reschedule {A} others P R (k : M A) :
  quiet others →
  (∀ P', guarded P' k R) →
  guarded P (OSRescheduleNoLock others;; k) R.
Proof.
  intros Hq Hk w r w' _ Hrun. unfold OSRescheduleNoLock in Hrun.
  unfold mbind, M_bind, log, update in Hrun. cbn in Hrun.
  destruct (Hk _ _ _ _ eq_refl Hrun) as [Hl Hu]. split; [done|].
  rewrite Hu, Hq. done.
Qed.

Create HintDb guarded.

#[local] Hint Resolve guarded_ret guarded_fault guarded_log guarded_assert
  guarded_load guarded_store guarded_acquire guarded_release
  guarded_OSGetTime guarded_OSGetCoreId guarded_gAlarmQueue_at
  guarded_queue_members guarded_OSAppendQueue guarded_OSEraseFromQueue
  : guarded.

(** Decompose a computation along its binds and branches and close the
    leaves with the lemmas of the database. *)
Ltac guard_step :=
  lazymatch goal with
  | |- guarded _ ?m _ =>
      first
        [ solve [eauto with guarded]
        | lazymatch m with
          | OSRescheduleNoLock _ ≫= _ =>
              apply guarded_reschedule; [assumption|]
          | _ ≫= _ => eapply guarded_bind
          | if ?c then _ else _ => destruct c
          | match ?x with Some _ => _ | None => _ end => destruct x
          end ]
  | |- ∀ _, _ => intro
  end.

Ltac mguard := repeat guard_step.

Lemma guarded_erase_if_linked P q p : guarded P (erase_if_linked q p) P.
Proof. unfold erase_if_linked. mguard. Qed.

Lemma guarded_erase_from P q p : guarded P (erase_from q p) P.
Proof. unfold erase_from. mguard. Qed.

Lemma guarded_OSWakeupThreadNoLock p :
  guarded true (OSWakeupThreadNoLock p) true.
Proof.
  unfold OSWakeupThreadNoLock. mguard. by apply guarded_update.
Qed.

#[local] Hint Resolve guarded_erase_if_linked guarded_erase_from
  guarded_OSWakeupThreadNoLock : guarded.

Lemma guarded_OSWakeupThread p : guarded true (OSWakeupThread p) true.
Proof. unfold OSWakeupThread, OSLockScheduler, OSUnlockScheduler. mguard. Qed.

Lemma guarded_OSSleepThreadNoLock p :
  guarded true (OSSleepThreadNoLock p) true.
Proof.
  intros w r w' Hl Hrun. unfold OSSleepThreadNoLock in Hrun.
  revert Hl Hrun. apply (guarded_bind true true true); [apply guarded_store|].
  intros _. apply guarded_log.
Qed.

Lemma guarded_setInterruptTimer P core t :
  guarded P (setInterruptTimer core t) P.
Proof. unfold setInterruptTimer. mguard. by apply guarded_update. Qed.

#[local] Hint Resolve guarded_OSWakeupThread guarded_OSSleepThreadNoLock
  guarded_setInterruptTimer : guarded.

Lemma guarded_OSCancelAlarmNoLock p :
  guarded true (OSCancelAlarmNoLock p) true.
Proof. unfold OSCancelAlarmNoLock. mguard. Qed.

#[local] Hint Resolve guarded_OSCancelAlarmNoLock : guarded.

Lemma guarded_OSCancelAlarm P p : guarded P (OSCancelAlarm p) false.
Proof. unfold OSCancelAlarm. mguard. Qed.

Lemma guarded_OSCancelAlarms_core t i :
  guarded true (OSCancelAlarms_core t i) true.
Proof.
  unfold OSCancelAlarms_core. mguard. apply guarded_for_each.
  intros p []. unfold OSCancelAlarms_visit. mguard.
Qed.

#[local] Hint Resolve guarded_OSCancelAlarms_core : guarded.

Lemma guarded_OSCancelAlarms P t : guarded P (OSCancelAlarms t) false.
Proof. unfold OSCancelAlarms. mguard. Qed.

Lemma guarded_OSSetPeriodicAlarm P p start interval cb :
  guarded P (OSSetPeriodicAlarm p start interval cb) false.
Proof. unfold OSSetPeriodicAlarm. mguard. Qed.

Lemma guarded_OSSetAlarm P p time cb : guarded P (OSSetAlarm p time cb) false.
Proof.
  unfold OSSetAlarm. mguard. apply guarded_OSSetPeriodicAlarm.
Qed.

Lemma guarded_OSSetAlarmTag P p t : guarded P (OSSetAlarmTag p t) false.
Proof. unfold OSSetAlarmTag. mguard. Qed.

Lemma guarded_OSSetAlarmUserData P p d :
  guarded P (OSSetAlarmUserData p d) false.
Proof. unfold OSSetAlarmUserData. mguard. Qed.

Section GuardedCallbacks.

Variable Tag : Z.
Variable run_callback : nat → nat → option nat → World → World.
Variable others : World → World.
Hypothesis callbacks_keep_guard : callbacks_quiet run_callback.
Hypothesis others_keep_guard : quiet others.

Lemma guarded_within_nil {A} P (m : M A) Q :
  guarded P m Q → guarded_within [] P m Q.
Proof.
  intros Hm w r w' Hl Hrun. destruct (Hm w r w' Hl Hrun) as [Hl' Hu].
  split; [done|]. exists []. by rewrite app_nil_r.
Qed.

Lemma guarded_within_bind {A B} L1 L2 P Q R (m : M A) (f : A → M B) :
  guarded_within L1 P m Q → (∀ a, guarded_within L2 Q (f a) R) →
  guarded_within (L1 ++ L2) P (m ≫= f) R.
Proof.
  intros Hm Hf w r w' Hl Hrun. unfold mbind, M_bind in Hrun.
  destruct (m w) as [a w1|] eqn:E; [|done].
  destruct (Hm w a w1 Hl E) as (Hl1 & l1 & Hu1 & Hs1).
  destruct (Hf a w1 r w' Hl1 Hrun) as (Hl2 & l2 & Hu2 & Hs2).
  split; [done|]. exists (l1 ++ l2). split.
  - by rewrite Hu2, Hu1, <- app_assoc.
  - by apply sublist_app.
Qed.

Lemma guarded_within_weaken {A} L L' P (m : M A) Q :
  sublist L L' → guarded_within L P m Q → guarded_within L' P m Q.
Proof.
  intros Hs Hm w r w' Hl Hrun.
  destruct (Hm w r w' Hl Hrun) as (Hl' & l & Hu & Hsl).
  split; [done|]. exists l. split; [done|]. by etrans.
Qed.

Lemma guarded_within_for_each {S} (body : nat → S → M S) l acc :
  (∀ p acc, guarded_within [p] true (body p acc) true) →
  guarded_within l true (for_each body l acc) true.
Proof.
  intros Hb. revert acc. induction l as [|p l IH]; intros acc; cbn.
  - apply guarded_within_nil, guarded_ret.
  - apply (guarded_within_bind [p] l true true true); [apply Hb|].
    intros acc'. apply IH.
Qed.

(** With the lock held, [OSTriggerAlarmNoLock] reads the callback of
    the alarm once more without it when the alarm has one, and makes no
    other access without the lock. *)
Lemma OSTriggerAlarmNoLock_unguarded p ctx w w' a :
  gAlarmLock w = true → mem w !! p = Some a →
  OSTriggerAlarmNoLock run_callback p ctx w = Ok tt w' →
  gAlarmLock w' = true ∧
  unguarded w' =
    unguarded w ++ (match callback a with Some _ => [p] | None => [] end).
Proof.
  intros Hl Hm Hrun.
  pose proof (OSTriggerAlarmNoLock_returns run_callback w p a ctx w' Hl Hm
                Hrun) as Hq.
  destruct (callback a) as [cb|] eqn:Hcb.
  - destruct (OSTriggerAlarmNoLock_calls run_callback w p a ctx cb Hl Hm Hcb
                Hq) as (w_cb & Heq & _ & _ & _ & _ & _ & Hu).
    rewrite Heq in Hrun.
    assert (Hg : ∀ P, guarded P (acquire;; OSWakeupThreadNoLock p) true).
    { intros P. mguard. }
    destruct (Hg _ _ _ _ eq_refl Hrun) as [Hl' Hu'].
    split; [done|]. by rewrite Hu', callbacks_keep_guard.
  - destruct (OSTriggerAlarmNoLock_plain run_callback w p a ctx Hl Hm Hcb Hq)
      as (w1 & Hrun1 & Hl1 & _ & _ & _ & _ & Hu).
    rewrite Hrun1 in Hrun. injection Hrun as <-.
    split; [done|]. by rewrite app_nil_r.
Qed.

Lemma guarded_within_OSTriggerAlarmNoLock p ctx :
  guarded_within [p] true (OSTriggerAlarmNoLock run_callback p ctx) true.
Proof.
  intros w r w' Hl Hrun. destruct r.
  destruct (mem w !! p) as [a|] eqn:Hm.
  - destruct (OSTriggerAlarmNoLock_unguarded p ctx w w' a Hl Hm Hrun)
      as [Hl' Hu].
    split; [done|]. eexists. split; [exact Hu|].
    destruct (callback a); [done|apply sublist_nil_l].
  - exfalso. revert Hrun. unfold OSTriggerAlarmNoLock.
    unfold mbind at 1, M_bind at 1, store at 1. by rewrite Hm.
Qed.

Lemma guarded_within_OSCheckAlarms_visit now ctx p acc :
  guarded_within [p] true (OSCheckAlarms_visit run_callback now ctx p acc)
    true.
Proof.
  unfold OSCheckAlarms_visit.
  apply (guarded_within_bind [] [p] true true true).
  { apply guarded_within_nil. mguard. }
  intros a. apply (guarded_within_bind [p] [] true true true).
  - destruct (decide _).
    + apply guarded_within_OSTriggerAlarmNoLock.
    + apply (guarded_within_weaken []); [apply sublist_nil_l|].
      apply guarded_within_nil. mguard.
  - intros _. apply guarded_within_nil. mguard.
Qed.

(** A scan makes its accesses without the lock to the alarms its walk
    visits, in the order of the walk and at most one for each. *)
Lemma guarded_within_OSCheckAlarms_along visited core ctx w w' :
  gAlarmLock w = false →
  OSCheckAlarms_along run_callback visited core ctx w = Ok tt w' →
  gAlarmLock w' = false ∧
  ∃ l, unguarded w' = unguarded w ++ l ∧ sublist l visited.
Proof.
  intros Hl Hrun.
  destruct (gAlarmQueue w !! core) as [members|] eqn:Hq.
  2:{ revert Hrun. unfold OSCheckAlarms_along.
      unfold mbind at 1, M_bind at 1, gAlarmQueue_at. by rewrite Hq. }
  set (w1 := with_trace (trace w ++ [EvLockScheduler; EvAcquire])
               (with_lock true (with_ticks (S (ticks w)) w))).
  assert (Heq : OSCheckAlarms_along run_callback visited core ctx w =
                (next ← for_each
                          (OSCheckAlarms_visit run_callback
                             (clock w (ticks w)) ctx) visited TimeMax;
                 release;; OSUnlockScheduler;; setInterruptTimer core next)
                  w1).
  { unfold OSCheckAlarms_along, w1. clear Hrun. wopen w. munfold. mrun.
    by rewrite <- app_assoc. }
  rewrite Heq in Hrun.
  assert (Hg : guarded_within (visited ++ []) true
                 (next ← for_each
                           (OSCheckAlarms_visit run_callback
                              (clock w (ticks w)) ctx) visited TimeMax;
                  release;; OSUnlockScheduler;; setInterruptTimer core next)
                 false).
  { apply (guarded_within_bind visited [] true true false).
    - apply guarded_within_for_each. intros p acc.
      apply guarded_within_OSCheckAlarms_visit.
    - intros next. apply guarded_within_nil.
      unfold OSUnlockScheduler. mguard. }
  destruct (Hg w1 tt w' eq_refl Hrun) as (Hl' & l & Hu & Hs).
  rewrite app_nil_r in Hs.
  split; [done|]. by exists l.
Qed.

Lemma guarded_OSWaitAlarm P p : guarded P (OSWaitAlarm Tag others p) false.
Proof. unfold OSWaitAlarm, OSLockScheduler, OSUnlockScheduler. mguard. Qed.

Lemma guarded_OSCreateAlarmEx p name' w w' :
  gAlarmLock w = false →
  OSCreateAlarmEx Tag p name' w = Ok tt w' →
  gAlarmLock w' = false ∧ unguarded w' = unguarded w ++ [p; p; p; p].
Proof.
  intros Hl Hrun. destruct (decide (p = 0%nat)) as [->|Hp].
  { destruct (OSCreateAlarmEx_null Tag name' w) as [e He]. congruence. }
  rewrite OSCreateAlarmEx_run in Hrun by done. injection Hrun as <-.
  cbn. by rewrite Hl.
Qed.

(** Entered with the alarm lock free, an operation other than a scan
    that returns leaves the lock free and has made no access to a
    record without the lock, apart from the writes of create. *)
Lemma guarded_run_op op w w' :
  (∀ core ctx, op ≠ OpCheckAlarms core ctx) →
  gAlarmLock w = false →
  run_op Tag run_callback op w = Ok tt w' →
  gAlarmLock w' = false ∧ unguarded w' = unguarded w ++ unlocked_writes op.
Proof.
  intros Hop Hl Hrun.
  assert (Hg : ∀ m : M unit, guarded false m false → m w = Ok tt w' →
            gAlarmLock w' = false ∧ unguarded w' = unguarded w ++ []).
  { intros m Hm Hr. rewrite app_nil_r. by apply (Hm w tt w'). }
  destruct op; cbn [run_op unlocked_writes] in *.
  - by apply (guarded_OSCreateAlarmEx alarm None).
  - by apply (guarded_OSCreateAlarmEx alarm name').
  - refine (Hg _ _ Hrun). unfold discard, on_core. mguard.
    + by apply guarded_update.
    + apply guarded_OSSetAlarm.
  - refine (Hg _ _ Hrun). unfold discard, on_core. mguard.
    + by apply guarded_update.
    + apply guarded_OSSetPeriodicAlarm.
  - refine (Hg _ _ Hrun). unfold discard. mguard. apply guarded_OSCancelAlarm.
  - refine (Hg _ _ Hrun). apply guarded_OSCancelAlarms.
  - by destruct (Hop core ctx).
  - refine (Hg _ _ Hrun). apply guarded_OSSetAlarmTag.
  - refine (Hg _ _ Hrun). apply guarded_OSSetAlarmUserData.
Qed.

End GuardedCallbacks.
(** ** Callbacks that call back into the facility *)

Lemma idle_callback_frame : callbacks_frame idle_callback.
Proof. by intros cb alarm ctx w. Qed.

Lemma consistent_ext w1 w2 :
  mem w1 = mem w2 → gAlarmQueue w1 = gAlarmQueue w2 →
  consistent w1 → consistent w2.
Proof.
  intros Hm Hq [Hwf Hp]. split; [by apply (wf_ext w1)|].
  intros p a. rewrite <- Hm. apply Hp.
Qed.

(** The alarm at [p] changes in fields the invariant does not read. *)
Lemma consistent_record w w' p a a' :
  consistent w → mem w !! p = Some a →
  state a' = state a → alarmQueue a' = alarmQueue a →
  (state a ≠ AlarmSet → nextFire a' = 0 ∧ period a' = 0) →
  mem w' = <[p := a']> (mem w) → gAlarmQueue w' = gAlarmQueue w →
  consistent w'.
Proof.
  intros [Hwf Hper] Ha Hs Hqa Hn Hm Hq. split.
  - apply (wf_keep w w' p a a'); try done. intros H. by apply Hn.
  - intros x ax Hx Hsx. rewrite Hm in Hx.
    destruct (decide (x = p)) as [->|Hne].
    + rewrite lookup_insert_eq in Hx. injection Hx as <-.
      apply Hn. congruence.
    + rewrite lookup_insert_ne in Hx by done. by apply (Hper x).
Qed.

(** The alarm at [p] becomes idle and leaves the queue its back-pointer
    names. *)
Lemma consistent_retire w w' p a a' :
  consistent w → mem w !! p = Some a →
  state a' ≠ AlarmSet → nextFire a' = 0 → period a' = 0 →
  alarmQueue a' = alarmQueue a →
  mem w' = <[p := a']> (mem w) →
  gAlarmQueue w' = unlinked_from (alarmQueue a) p (gAlarmQueue w) →
  consistent w'.
Proof.
  intros [Hwf Hper] Ha Hs Hn Hp Hqa Hm Hq. split.
  - apply (wf_remove w w' p a'); try done.
    + intros q Hq'. rewrite Hqa in Hq'. by apply (wf_owner w Hwf p a).
    + rewrite Hq. by apply unlinked_from_everywhere.
  - intros x ax Hx Hsx. rewrite Hm in Hx.
    destruct (decide (x = p)) as [->|Hne].
    + rewrite lookup_insert_eq in Hx. by injection Hx as <-.
    + rewrite lookup_insert_ne in Hx by done. by apply (Hper x).
Qed.

(** The record [OSTriggerAlarmNoLock] writes before it calls the
    callback, and the one it leaves when there is no callback, keep the
    invariant: a periodic alarm is armed and stays in its queue, any
    other alarm becomes idle and leaves its queue. *)
Lemma consistent_triggered w w1 p a a1 ctx t :
  consistent w → mem w !! p = Some a →
  a1 = triggered ctx t a ∨ a1 = fired ctx t a →
  mem w1 = <[p := a1]> (mem w) →
  gAlarmQueue w1 =
    (if decide (period a ≠ 0) then gAlarmQueue w
     else unlinked_from (alarmQueue a) p (gAlarmQueue w)) →
  consistent w1.
Proof.
  intros Hc Ha Ha1 Hm Hq. pose proof Hc as [Hwf Hper].
  destruct (decide (period a ≠ 0)) as [Hp|Hp].
  - assert (Hs : state a = AlarmSet).
    { destruct (decide (state a = AlarmSet)) as [|Hn]; [done|].
      destruct Hp. by apply (Hper p). }
    apply (consistent_record w w1 p a a1); try done.
    + destruct Ha1 as [-> | ->]; unfold fired, triggered;
        rewrite decide_True by done; cbn; congruence.
    + destruct Ha1 as [-> | ->]; unfold fired, triggered;
        rewrite decide_True by done; done.
  - assert (Hp0 : period a = 0) by lia.
    apply (consistent_retire w w1 p a a1); try done;
      destruct Ha1 as [-> | ->]; unfold fired, triggered;
      rewrite decide_False by done; done.
Qed.

Lemma for_each_preserves {S} (body : nat → S → M S) (I : World → Prop)
    l acc w r w' :
  (∀ p acc w r w', I w → body p acc w = Ok r w' → I w') →
  I w → for_each body l acc w = Ok r w' → I w'.
Proof.
  intros Hb. revert acc w. induction l as [|p l IH]; intros acc w HI Hrun.
  - by injection Hrun as _ <-.
  - cbn in Hrun. unfold mbind, M_bind in Hrun.
    destruct (body p acc w) as [acc1 w1|] eqn:E; [|done].
    apply (IH acc1 w1); [|done]. by apply (Hb p acc w acc1 w1).
Qed.

(** [OSCheckAlarms] walks the members of the queue as they are when it
    takes the lock. *)
Lemma OSCheckAlarms_along_members run_callback core ctx w members :
  gAlarmQueue w !! core = Some members →
  OSCheckAlarms run_callback core ctx w =
  OSCheckAlarms_along run_callback members core ctx w.
Proof.
  intros Hq. unfold OSCheckAlarms, OSCheckAlarms_along.
  wopen w. munfold. by mrun.
Qed.

Section Reentrant.

Variable Tag : Z.
Variable run_callback : nat → nat → option nat → World → World.
Hypothesis callbacks_keep_invariant : callbacks_reenter run_callback.

(** The body of the loop keeps the invariant on whatever alarm it is
    run, due or not, armed or not. *)
Lemma OSCheckAlarms_visit_consistent now ctx p acc w r w' :
  consistent w ∧ gAlarmLock w = true →
  OSCheckAlarms_visit run_callback now ctx p acc w = Ok r w' →
  consistent w' ∧ gAlarmLock w' = true.
Proof.
  intros [Hc Hl] Hrun.
  destruct (mem w !! p) as [a|] eqn:Hm.
  2:{ exfalso. revert Hrun. unfold OSCheckAlarms_visit.
      unfold mbind at 1, M_bind at 1. by rewrite load_fails. }
  destruct (decide (due now a)) as [Hd|Hd].
  2:{ rewrite (OSCheckAlarms_visit_skip run_callback now ctx p acc w a)
        in Hrun by done.
      by injection Hrun as _ <-. }
  destruct (OSTriggerAlarmNoLock run_callback p ctx w) as [[] w2|e] eqn:Ht.
  2:{ exfalso. revert Hrun. unfold OSCheckAlarms_visit, due in *.
      erewrite bind_run by (by apply load_run).
      rewrite decide_True by done.
      unfold mbind at 1, M_bind at 1. by rewrite Ht. }
  pose proof (OSTriggerAlarmNoLock_returns run_callback w p a ctx w2 Hl Hm Ht)
    as Hq.
  assert (H2 : consistent w2 ∧ gAlarmLock w2 = true ∧
               is_Some (mem w2 !! p)).
  { destruct (callback a) as [cb|] eqn:Hcb.
    - destruct (OSTriggerAlarmNoLock_calls run_callback w p a ctx cb Hl Hm
                  Hcb Hq) as (w_cb & Heq & _ & Hmc & Hqc & _).
      rewrite Heq in Ht.
      assert (Hcc : consistent (run_callback cb p ctx w_cb)).
      { apply callbacks_keep_invariant.
        apply (consistent_triggered w w_cb p a
                 (triggered ctx (clock w (ticks w)) a) ctx
                 (clock w (ticks w))); try done.
        by left. }
      destruct (mem (run_callback cb p ctx w_cb) !! p) as [a2|] eqn:Hm2.
      2:{ rewrite wake_fails in Ht by done. done. }
      rewrite (wake_after_callback _ p a2) in Ht by done.
      injection Ht as <-. split; [|split; [done|]].
      + apply (consistent_record (run_callback cb p ctx w_cb) _ p a2
                 (set_threadQueue [] a2)); try done.
        intros Hs. destruct Hcc as [Hwf Hper]. cbn.
        split; [by apply (wf_idle _ Hwf p a2)|by apply (Hper p a2)].
      + cbn. rewrite lookup_insert_eq. by eexists.
    - destruct (OSTriggerAlarmNoLock_plain run_callback w p a ctx Hl Hm Hcb
                  Hq) as (w3 & Hrun3 & Hl3 & Hm3 & Hq3 & _).
      rewrite Hrun3 in Ht. injection Ht as <-.
      split; [|split; [done|]].
      + apply (consistent_triggered w w3 p a
                 (fired ctx (clock w (ticks w)) a) ctx (clock w (ticks w)));
          try done.
        by right.
      + rewrite Hm3, lookup_insert_eq. by eexists. }
  destruct H2 as (Hc2 & Hl2 & [a2 Hm2]).
  rewrite (OSCheckAlarms_visit_after run_callback now ctx p acc w a w2 a2)
    in Hrun by done.
  by injection Hrun as _ <-.
Qed.

(** A scan keeps the invariant, whichever alarms its walk visits. *)
Lemma OSCheckAlarms_along_consistent visited core ctx w w' :
  consistent w →
  OSCheckAlarms_along run_callback visited core ctx w = Ok tt w' →
  consistent w'.
Proof.
  intros Hc Hrun.
  destruct (gAlarmQueue w !! core) as [members|] eqn:Hq.
  2:{ exfalso. revert Hrun. unfold OSCheckAlarms_along.
      unfold mbind at 1, M_bind at 1, gAlarmQueue_at. by rewrite Hq. }
  set (w1 := with_trace (trace w ++ [EvLockScheduler; EvAcquire])
               (with_lock true (with_ticks (S (ticks w)) w))).
  assert (Heq : OSCheckAlarms_along run_callback visited core ctx w =
                (next ← for_each
                          (OSCheckAlarms_visit run_callback
                             (clock w (ticks w)) ctx) visited TimeMax;
                 release;; OSUnlockScheduler;; setInterruptTimer core next)
                  w1).
  { unfold OSCheckAlarms_along, w1. clear Hrun Hc. wopen w. munfold. mrun.
    by rewrite <- app_assoc. }
  rewrite Heq in Hrun. unfold mbind at 1, M_bind at 1 in Hrun.
  destruct (for_each _ visited TimeMax w1) as [next w2|] eqn:Hloop; [|done].
  assert (H2 : consistent w2 ∧ gAlarmLock w2 = true).
  { apply (for_each_preserves
             (OSCheckAlarms_visit run_callback (clock w (ticks w)) ctx)
             (λ w, consistent w ∧ gAlarmLock w = true)
             visited TimeMax w1 next w2).
    - intros p acc w3 r w4. apply OSCheckAlarms_visit_consistent.
    - split; [|done]. by apply (consistent_ext w w1).
    - exact Hloop. }
  destruct H2 as [Hc2 _].
  revert Hrun. clear -Hc2. wopen w2. munfold. mrun.
  intros [= <-]. revert Hc2. by apply consistent_ext.
Qed.

Lemma OSCheckAlarms_consistent core ctx w w' :
  consistent w → OSCheckAlarms run_callback core ctx w = Ok tt w' →
  consistent w'.
Proof.
  intros Hc Hrun.
  destruct (gAlarmQueue w !! core) as [members|] eqn:Hq.
  2:{ exfalso. revert Hrun. unfold OSCheckAlarms.
      unfold mbind at 1, M_bind at 1, gAlarmQueue_at. by rewrite Hq. }
  rewrite (OSCheckAlarms_along_members _ _ _ _ members Hq) in Hrun.
  by apply (OSCheckAlarms_along_consistent members core ctx w).
Qed.

End Reentrant.

(** Only a scan runs callbacks. *)
Lemma run_op_plain Tag run_callback op :
  (∀ core ctx, op ≠ OpCheckAlarms core ctx) →
  run_op Tag run_callback op = run_op Tag idle_callback op.
Proof. intros H. destruct op; try done. by destruct (H core ctx). Qed.

(** The operations other than a scan leave the period of an alarm that
    is not armed at zero. *)
Lemma run_op_period Tag op w w' :
  wf w → idle_period_cleared w →
  (∀ core ctx, op ≠ OpCheckAlarms core ctx) →
  run_op Tag idle_callback op w = Ok tt w' →
  idle_period_cleared w'.
Proof.
  intros Hwf Hper Hop Hrun.
  assert (Hput : ∀ p a' w1,
            mem w1 = <[p := a']> (mem w) →
            (state a' ≠ AlarmSet → period a' = 0) →
            idle_period_cleared w1).
  { intros p a' w1 Hm Ha' x ax Hx Hs. rewrite Hm in Hx.
    destruct (decide (x = p)) as [->|Hne].
    - rewrite lookup_insert_eq in Hx. injection Hx as <-. by apply Ha'.
    - rewrite lookup_insert_ne in Hx by done. by apply (Hper x). }
  assert (Hcreate : ∀ p name', OSCreateAlarmEx Tag p name' w = Ok tt w' →
            idle_period_cleared w').
  { intros p name' Hr. destruct (decide (p = 0%nat)) as [->|Hp0].
    { destruct (OSCreateAlarmEx_null Tag name' w) as [e He]. congruence. }
    rewrite OSCreateAlarmEx_run in Hr by done. injection Hr as <-.
    by apply (Hput p (set_name name' (set_tag Tag zero_alarm))). }
  assert (Hset : ∀ p start interval cb w1 r,
            mem w1 = mem w → gAlarmQueue w1 = gAlarmQueue w →
            OSSetPeriodicAlarm p start interval cb w1 = Ok r w' →
            idle_period_cleared w').
  { intros p start interval cb w1 r Hm1 Hq1 Hr.
    assert (Hwf1 : wf w1) by (by apply (wf_ext w w1)).
    destruct (OSSetPeriodicAlarm_Ok p start interval cb w1 w' r Hwf1 Hr)
      as (a & Ha & Hm').
    rewrite Hm1 in Hm'.
    by apply (Hput p (armed start interval cb (core_id w1) a)). }
  destruct op as [p|p name'|c p time cb|c p start interval cb|p|t|c ctx|p t|p d];
    cbn in Hrun.
  - by apply (Hcreate p None).
  - by apply (Hcreate p name').
  - unfold discard, on_core in Hrun.
    unfold mbind, M_bind, update in Hrun. rewrite OSSetAlarm_unfold in Hrun.
    destruct (OSSetPeriodicAlarm _ _ _ _ _) as [r w2|] eqn:Hr; [|done].
    cbn in Hrun. injection Hrun as <-. by apply Hset in Hr.
  - unfold discard, on_core in Hrun.
    unfold mbind, M_bind, update in Hrun.
    destruct (OSSetPeriodicAlarm _ _ _ _ _) as [r w2|] eqn:Hr; [|done].
    cbn in Hrun. injection Hrun as <-. by apply Hset in Hr.
  - unfold discard in Hrun. unfold mbind, M_bind in Hrun.
    destruct (mem w !! p) as [a|] eqn:Ha.
    2:{ destruct (OSCancelAlarm_fails p w Ha) as [e He].
        by rewrite He in Hrun. }
    destruct (decide (state a = AlarmSet)) as [Hs|Hs].
    + rewrite (OSCancelAlarm_armed w p a) in Hrun; [|done|done|].
      2:{ intros q Hq. apply lookup_lt_is_Some. by eapply wf_owner. }
      cbn in Hrun. injection Hrun as <-.
      by apply (Hput p (cancelled a)).
    + rewrite (OSCancelAlarm_idle w p a) in Hrun by done.
      cbn in Hrun. by injection Hrun as <-.
  - destruct (decide (3 ≤ length (gAlarmQueue w))%nat) as [Hlen|Hlen].
    2:{ rewrite OSCancelAlarms_short in Hrun; [done|done|lia]. }
    destruct (OSCancelAlarms_spec t w Hwf Hlen)
      as (w2 & Hr & _ & _ & _ & Hnone & _).
    destruct (OSCancelAlarms_records t w Hwf Hlen)
      as (w3 & Hr3 & _ & _ & Hrec & _).
    rewrite Hr in Hrun, Hr3. injection Hrun as <-. injection Hr3 as <-.
    intros x ax Hx Hs.
    destruct (mem w !! x) as [a|] eqn:Ha.
    + destruct (Hrec x a Ha) as [Hsame|(_ & _ & Hcan)].
      * rewrite Hsame in Hx. injection Hx as <-. by apply (Hper x).
      * rewrite Hcan in Hx. by injection Hx as <-.
    + rewrite (Hnone x Ha) in Hx. done.
  - by destruct (Hop c ctx).
  - destruct (mem w !! p) as [a|] eqn:Ha.
    2:{ destruct (OSSetAlarmTag_fails p t w Ha) as [e He].
        by rewrite He in Hrun. }
    rewrite (OSSetAlarmTag_run w p a) in Hrun by done.
    injection Hrun as <-.
    apply (Hput p (set_alarmTag t a)); [done|]. cbn. by apply (Hper p).
  - destruct (mem w !! p) as [a|] eqn:Ha.
    2:{ destruct (OSSetAlarmUserData_fails p d w Ha) as [e He].
        by rewrite He in Hrun. }
    rewrite (OSSetAlarmUserData_run w p a) in Hrun by done.
    injection Hrun as <-.
    apply (Hput p (set_userData d a)); [done|]. cbn. by apply (Hper p).
Qed.

Section ReentrantRuns.

Variable Tag : Z.
Variable run_callback : nat → nat → option nat → World → World.
Hypothesis callbacks_keep_invariant : callbacks_reenter run_callback.

(** Every operation keeps the invariant, whatever the callbacks of a
    scan do through the facility. *)
Lemma run_op_consistent op w w' :
  consistent w → create_unlinked w op →
  run_op Tag run_callback op w = Ok tt w' → consistent w'.
Proof.
  intros Hc Hop Hrun.
  assert (Hscan : (∃ core ctx, op = OpCheckAlarms core ctx) ∨
                  ∀ core ctx, op ≠ OpCheckAlarms core ctx).
  { destruct op; try (by right); left; eauto. }
  destruct Hscan as [(core & ctx & ->)|Hplain].
  - by apply (OSCheckAlarms_consistent run_callback callbacks_keep_invariant
                core ctx w).
  - rewrite run_op_plain in Hrun by done. destruct Hc as [Hwf Hper]. split.
    + by destruct (run_op_wf Tag idle_callback idle_callback_frame op w w').
    + by apply (run_op_period Tag op w w').
Qed.

Lemma runs_consistent w0 w :
  consistent w0 → runs Tag run_callback create_unlinked w0 w → consistent w.
Proof.
  intros Hc0 Hruns.
  induction Hruns as [|w1 op w2 _ IH Hop Hrun|w1 visited core ctx w2 _ IH Hrun].
  - done.
  - by apply (run_op_consistent op w1).
  - by apply (OSCheckAlarms_along_consistent run_callback
                callbacks_keep_invariant visited core ctx w1).
Qed.

End ReentrantRuns.

Lemma boot_consistent n clock' : consistent (boot n clock').
Proof.
  split; [apply boot_wf|]. intros p a Ha. cbn in Ha.
  by rewrite lookup_empty in Ha.
Qed.

(** Callbacks that leave the alarms alone are among those that keep the
    invariant. *)
Lemma callbacks_frame_reenter run_callback :
  callbacks_frame run_callback → callbacks_reenter run_callback.
Proof.
  intros Hf cb alarm ctx w. destruct (Hf cb alarm ctx w) as [Hm Hq].
  by apply consistent_ext.
Qed.

(** Callbacks made of operations of the facility keep the invariant,
    as long as they create alarms in unlinked storage only. *)
Lemma run_ops_consistent Tag ops w w' :
  consistent w → admissible Tag ops w →
  run_ops Tag idle_callback ops w = Ok tt w' → consistent w'.
Proof.
  revert w. induction ops as [|op rest IH]; intros w Hc Hadm Hrun.
  - by injection Hrun as <-.
  - cbn in Hrun, Hadm. destruct Hadm as [Hop Hrest].
    unfold mbind, M_bind in Hrun.
    destruct (run_op Tag idle_callback op w) as [[] w1|] eqn:E; [|done].
    apply (IH w1); [|by apply Hrest|done].
    apply (run_op_consistent Tag idle_callback
             (callbacks_frame_reenter _ idle_callback_frame) op w); done.
Qed.

Lemma callbacks_of_operations Tag script :
  (∀ cb alarm ctx w, consistent w → admissible Tag (script cb alarm ctx w) w) →
  callbacks_reenter (calls Tag script).
Proof.
  intros Hadm cb alarm ctx w Hc. unfold calls.
  destruct (run_ops _ _ _ w) as [[] w'|] eqn:E; [|done].
  apply (run_ops_consistent Tag (script cb alarm ctx w) w); [done| |done].
  by apply Hadm.
Qed.

Lemma reentrant_callback_reenters : callbacks_reenter reentrant_callback.
Proof.
  apply callbacks_of_operations. intros cb alarm ctx w _.
  unfold reentrant_script.
  destruct cb as [|[|[|[|[|[|[|cb]]]]]]];
    cbn [admissible create_unlinked]; try done;
    (split; [done|]); intros; done.
Qed.

(** ** The claims *)

(** C2.  [OSCancelAlarm] on an alarm that is not armed returns failure
    and leaves the records, the queues, the ready list and the timers
    as they are.  On an armed alarm it returns success: the state is
    [Cancelled], fire time and period are zero, the wait set is empty
    and its threads are on the ready list, and the alarm is no longer a
    member of the queue its back pointer names (the queues are
    otherwise unchanged).  Cancelling again returns failure and changes
    nothing. *)
Theorem OSCancelAlarm_spec w p a :
  mem w !! p = Some a →
  (∀ q, alarmQueue a = Some q → is_Some (gAlarmQueue w !! q)) →
  ∃ w',
    OSCancelAlarm p w = Ok (bool_decide (state a = AlarmSet)) w' ∧
    (state a ≠ AlarmSet →
       mem w' = mem w ∧ gAlarmQueue w' = gAlarmQueue w ∧
       ready w' = ready w ∧ timers w' = timers w) ∧
    (state a = AlarmSet →
       ∃ a', mem w' = <[p := a']> (mem w) ∧
         state a' = AlarmCancelled ∧ nextFire a' = 0 ∧ period a' = 0 ∧
         threadQueue a' = [] ∧
         tag a' = tag a ∧ name a' = name a ∧ callback a' = callback a ∧
         alarmTag a' = alarmTag a ∧ context a' = context a ∧
         alarmQueue a' = alarmQueue a ∧ userData a' = userData a ∧
         gAlarmQueue w' = unlinked_from (alarmQueue a) p (gAlarmQueue w) ∧
         (∀ q, alarmQueue a = Some q → ¬ linked w' p q) ∧
         ((∀ q, linked w p q → alarmQueue a = Some q) →
          ∀ q, ¬ linked w' p q) ∧
         ready w' = ready w ++ threadQueue a ∧ timers w' = timers w) ∧
    ∃ w'', OSCancelAlarm p w' = Ok false w'' ∧
           mem w'' = mem w' ∧ gAlarmQueue w'' = gAlarmQueue w' ∧
           ready w'' = ready w' ∧ timers w'' = timers w'.
Proof.
  intros Hm Hq. destruct (decide (state a = AlarmSet)) as [Hs|Hs].
  - rewrite bool_decide_eq_true_2 by done.
    eexists. split; [by apply (OSCancelAlarm_armed w p a)|].
    set (w' := with_lock _ _).
    split; [done|]. split.
    + intros _. exists (cancelled a).
      assert (Hgone : ∀ q, alarmQueue a = Some q → ¬ linked w' p q).
      { intros q Eq (l & Hl & Hp). revert Hl. unfold w'. cbn. rewrite Eq.
        unfold unlinked_from. destruct (Hq q Eq) as [l0 Hl0]. rewrite Hl0.
        rewrite list_lookup_insert_eq by (by eapply lookup_lt_Some).
        intros [= <-]. apply elem_of_unlink in Hp. tauto. }
      repeat split; try done.
      intros Hback q Hlk. destruct (decide (alarmQueue a = Some q)) as [Eq|Ne].
      * by apply (Hgone q).
      * apply Ne, Hback. destruct Hlk as (l & Hl & Hp). exists l.
        split; [|done]. revert Hl. unfold w'. cbn. unfold unlinked_from.
        destruct (alarmQueue a) as [q0|]; [|done].
        destruct (gAlarmQueue w !! q0); [|done].
        rewrite list_lookup_insert_ne; [done|congruence].
    + eexists. split.
      * apply (OSCancelAlarm_idle w' p (cancelled a)); [|done].
        unfold w'. cbn. by rewrite lookup_insert_eq.
      * done.
  - rewrite bool_decide_eq_false_2 by done.
    eexists. split; [by apply (OSCancelAlarm_idle w p a)|].
    split; [done|]. split; [done|].
    eexists. split; [by apply (OSCancelAlarm_idle _ p a)|done].
Qed.

(** C6.  [OSSetPeriodicAlarm] stores the fire time, the period and the
    callback, clears the context, sets the state to [Set], removes the
    alarm from the queue its back pointer names, points it at the queue
    of the executing core and links it there, asks the processor for
    an interrupt of that core at the fire time whatever timer was
    requested before, and returns success.  [OSSetAlarm] is
    [OSSetPeriodicAlarm] with period zero and the start time
    [OSGetTime() + time], the sum of the clock reading and the delay
    in 64 bits (the plain sum when it is in range): it arms the alarm
    for that time in the same way. *)
Theorem OSSetPeriodicAlarm_spec w p a start interval cb time members :
  mem w !! p = Some a →
  (∀ q, alarmQueue a = Some q → is_Some (gAlarmQueue w !! q)) →
  gAlarmQueue w !! core_id w = Some members →
  (∃ w' a',
    OSSetPeriodicAlarm p start interval cb w = Ok true w' ∧
    mem w' = <[p := a']> (mem w) ∧
    nextFire a' = start ∧ period a' = interval ∧ callback a' = cb ∧
    context a' = None ∧ state a' = AlarmSet ∧
    alarmQueue a' = Some (core_id w) ∧
    tag a' = tag a ∧ name a' = name a ∧ alarmTag a' = alarmTag a ∧
    threadQueue a' = threadQueue a ∧ userData a' = userData a ∧
    gAlarmQueue w' =
      linked_into (core_id w) p
        (unlinked_from (alarmQueue a) p (gAlarmQueue w)) ∧
    linked w' p (core_id w) ∧
    (∀ q, alarmQueue a = Some q → q ≠ core_id w → ¬ linked w' p q) ∧
    ((∀ q, linked w p q → alarmQueue a = Some q) →
     ∀ q, linked w' p q → q = core_id w) ∧
    timers w' = <[core_id w := TimeAt start]> (timers w) ∧
    trace w' = trace w ++ EvAcquire :: erase_events (alarmQueue a) p ++
                 [EvAppendQueue (core_id w) p;
                  EvSetInterruptTimer (core_id w) (TimeAt start);
                  EvRelease]) ∧
  (∃ now start w'' a'',
    OSGetTime w = Ok now (with_ticks (S (ticks w)) w) ∧
    start = (now + time + 2 ^ 63) mod 2 ^ 64 - 2 ^ 63 ∧
    (- 2 ^ 63 ≤ now + time < 2 ^ 63 → start = now + time) ∧
    OSSetAlarm p time cb w =
      OSSetPeriodicAlarm p start 0 cb (with_ticks (S (ticks w)) w) ∧
    OSSetAlarm p time cb w = Ok true w'' ∧
    mem w'' = <[p := a'']> (mem w) ∧
    nextFire a'' = start ∧ period a'' = 0 ∧ callback a'' = cb ∧
    context a'' = None ∧ state a'' = AlarmSet ∧
    alarmQueue a'' = Some (core_id w) ∧
    tag a'' = tag a ∧ name a'' = name a ∧ alarmTag a'' = alarmTag a ∧
    threadQueue a'' = threadQueue a ∧ userData a'' = userData a ∧
    gAlarmQueue w'' =
      linked_into (core_id w) p
        (unlinked_from (alarmQueue a) p (gAlarmQueue w)) ∧
    timers w'' = <[core_id w := TimeAt start]> (timers w)).
Proof.
  intros Hm Hq Hc. split.
  2:{ exists (clock w (ticks w)), (OSTime_add (clock w (ticks w)) time).
      eexists. exists (armed (OSTime_add (clock w (ticks w)) time) 0 cb
                         (core_id w) a).
      split; [done|]. split; [done|]. split.
      { intros Hrange. unfold OSTime_add, wrap64.
        rewrite Z.mod_small; lia. }
      split; [apply OSSetAlarm_unfold|]. split.
      { rewrite OSSetAlarm_unfold.
        by apply (OSSetPeriodicAlarm_run _ p a _ _ _ members). }
      done. }
  eexists. exists (armed start interval cb (core_id w) a).
  split; [by eapply OSSetPeriodicAlarm_run|].
  assert (Hmid : ∀ i, is_Some (gAlarmQueue w !! i) →
            ∃ l, unlinked_from (alarmQueue a) p (gAlarmQueue w) !! i = Some l ∧
                 (alarmQueue a = Some i → p ∉ l)).
  { intros i [l Hl]. unfold unlinked_from.
    destruct (alarmQueue a) as [q|] eqn:Eq; [|by exists l].
    destruct (Hq q eq_refl) as [lq Hlq]. rewrite Hlq.
    destruct (decide (i = q)) as [->|Hne].
    - rewrite list_lookup_insert_eq by (by eapply lookup_lt_Some).
      eexists. split; [done|]. intros _ Hp. apply elem_of_unlink in Hp. tauto.
    - rewrite list_lookup_insert_ne by done. exists l. split; [done|].
      congruence. }
  set (w' := with_lock _ _).
  assert (Hout : ∀ q, alarmQueue a = Some q → q ≠ core_id w →
                      ¬ linked w' p q).
  { intros q Eq Hne (l & Hl & Hp). revert Hl. cbn. unfold linked_into.
    destruct (Hmid (core_id w)) as (lc & Hlc & _); [by eexists|].
    rewrite Hlc. rewrite list_lookup_insert_ne by done.
    destruct (Hmid q (Hq q Eq)) as (lq & Hlq & Hnot).
    rewrite Hlq. intros [= <-]. by apply Hnot. }
  repeat split; try done.
  - unfold linked. cbn. unfold linked_into.
    destruct (Hmid (core_id w)) as (l & Hl & _); [by eexists|].
    rewrite Hl. exists (l ++ [p]).
    rewrite list_lookup_insert_eq by (by eapply lookup_lt_Some).
    split; [done|]. apply elem_of_app. right. by apply list_elem_of_singleton.
  - intros Hback q Hlk.
    destruct (decide (q = core_id w)) as [|Hne]; [done|]. exfalso.
    destruct (decide (alarmQueue a = Some q)) as [Eq|Ne].
    + by apply (Hout q).
    + apply Ne, Hback. destruct Hlk as (l & Hl & Hp). exists l.
      split; [|done]. revert Hl. cbn. unfold linked_into.
      destruct (Hmid (core_id w)) as (lc & Hlc & _); [by eexists|].
      rewrite Hlc. rewrite list_lookup_insert_ne by done.
      unfold unlinked_from.
      destruct (alarmQueue a) as [q0|]; [|done].
      destruct (gAlarmQueue w !! q0); [|done].
      rewrite list_lookup_insert_ne; [done|congruence].
Qed.

(** C3.  For an alarm initialised by [OSCreateAlarm]: if it is not
    armed, [OSWaitAlarm] returns failure at once, the caller is not put
    on the wait set and is not descheduled (the world only shows the
    two locks taken and released).  If it is armed, the caller is
    suspended and, once it runs again, the result is success exactly
    when the state found under the lock is not [Cancelled].  After a
    call of [OSCancelAlarm], whatever it returned, and any further
    operations that do not arm the alarm, [OSWaitAlarm] returns failure
    without suspending. *)
Theorem OSWaitAlarm_spec Tag run_callback others w p a :
  p ≠ 0%nat → mem w !! p = Some a → tag a = Tag →
  (state a ≠ AlarmSet →
     OSWaitAlarm Tag others p w =
     Ok false
       (with_lock false
          (with_trace (trace w ++ [EvLockScheduler; EvAcquire; EvRelease;
                                   EvUnlockScheduler]) w))) ∧
  (state a = AlarmSet →
     ∀ a', mem (others (suspended p a w)) !! p = Some a' →
       ∃ w', OSWaitAlarm Tag others p w =
               Ok (bool_decide (state a' ≠ AlarmCancelled)) w') ∧
  (callbacks_frame run_callback → wf w →
     ∀ r w1 w2,
       OSCancelAlarm p w = Ok r w1 →
       steps Tag run_callback (leaves_idle p) w1 w2 →
       OSWaitAlarm Tag others p w2 =
       Ok false
         (with_lock false
            (with_trace (trace w2 ++ [EvLockScheduler; EvAcquire; EvRelease;
                                      EvUnlockScheduler]) w2))).
Proof.
  intros Hp Hm Ht. split; [|split].
  - intros Hs. by apply (OSWaitAlarm_idle Tag others w p a).
  - intros Hs a' Ha'. eexists.
    by apply (OSWaitAlarm_armed Tag others w p a a').
  - intros Hf Hwf r w1 w2 Hcan Hsteps.
    assert (Hq : ∀ q, alarmQueue a = Some q → is_Some (gAlarmQueue w !! q)).
    { intros q Hq. apply lookup_lt_is_Some. by eapply wf_owner. }
    assert (Hwf1 : wf w1).
    { eapply (run_op_wf Tag run_callback Hf (OpCancelAlarm p) w w1); eauto.
      - done.
      - cbn. unfold discard, mbind, M_bind. by rewrite Hcan. }
    assert (H1 : ∃ a1, mem w1 !! p = Some a1 ∧ state a1 ≠ AlarmSet ∧
                       tag a1 = Tag).
    { destruct (OSCancelAlarm_spec w p a Hm Hq) as (w' & Hr & Hidle & Harmed & _).
      rewrite Hr in Hcan. injection Hcan as _ <-.
      destruct (decide (state a = AlarmSet)) as [Hs|Hs].
      - destruct (Harmed Hs) as (a' & -> & Hs' & _ & _ & _ & Ht' & _).
        exists a'. rewrite lookup_insert_eq. repeat split; congruence.
      - destruct (Hidle Hs) as (-> & _). eauto. }
    destruct H1 as (a1 & Ha1 & Hs1 & Ht1).
    destruct (steps_keep_idle Tag run_callback Hf w1 w2 p a1 Hwf1 Hsteps
                Ha1 Hs1 Ht1) as (_ & a2 & Ha2 & Hs2 & Ht2).
    by apply (OSWaitAlarm_idle Tag others w2 p a2).
Qed.

(** C1.  When the scan of [OSCheckAlarms] reaches an alarm whose fire
    time is at most [now] and whose state is not [Cancelled], the alarm
    fires, whatever its callback does; an alarm whose period is zero is
    taken to point back to a queue.  First the record is updated
    ([a1], the queues being [Q1]): its context is the one handed to the
    trigger engine; if its period is not zero, its fire time is the
    64-bit sum of the period and the clock reading taken while it
    fires, its state is [Set] and the queues are untouched; if its
    period is zero, its fire time is zero, its state is [None] and it
    is no longer a member of the queue its back pointer names; the
    other fields, the wait set among them, are as before.  Without a
    callback the wait set is then woken, which ends the visit.  With a
    callback, the callback is called in that state with the alarm lock
    released, and when it has returned the wait set of the record as
    the callback left it is woken, which ends the visit. *)
Theorem OSCheckAlarms_fires_due run_callback now ctx p next w a :
  gAlarmLock w = true → mem w !! p = Some a →
  nextFire a ≤ now → state a ≠ AlarmCancelled →
  (period a = 0 → ∃ q, alarmQueue a = Some q ∧ is_Some (gAlarmQueue w !! q)) →
  ∃ a1 Q1,
    context a1 = ctx ∧
    (period a ≠ 0 →
       nextFire a1 =
         (clock w (ticks w) + period a + 2 ^ 63) mod 2 ^ 64 - 2 ^ 63 ∧
       (- 2 ^ 63 ≤ clock w (ticks w) + period a < 2 ^ 63 →
        nextFire a1 = clock w (ticks w) + period a) ∧
       state a1 = AlarmSet ∧ Q1 = gAlarmQueue w) ∧
    (period a = 0 →
       nextFire a1 = 0 ∧ state a1 = AlarmNone ∧
       Q1 = unlinked_from (alarmQueue a) p (gAlarmQueue w) ∧
       ∀ q l, alarmQueue a = Some q → Q1 !! q = Some l → p ∉ l) ∧
    threadQueue a1 = threadQueue a ∧
    tag a1 = tag a ∧ name a1 = name a ∧ callback a1 = callback a ∧
    alarmTag a1 = alarmTag a ∧ period a1 = period a ∧
    alarmQueue a1 = alarmQueue a ∧ userData a1 = userData a ∧
    (callback a = None →
       ∃ next' w',
         OSCheckAlarms_visit run_callback now ctx p next w = Ok next' w' ∧
         mem w' = <[p := set_threadQueue [] a1]> (mem w) ∧
         gAlarmQueue w' = Q1 ∧
         (∀ th, th ∈ threadQueue a → th ∈ ready w') ∧
         (∃ tr, trace w' = tr ++ [EvWakeupThread p (threadQueue a)])) ∧
    (∀ cb, callback a = Some cb →
       ∃ w1,
         gAlarmLock w1 = false ∧
         mem w1 = <[p := a1]> (mem w) ∧ gAlarmQueue w1 = Q1 ∧
         ready w1 = ready w ∧
         (∃ tr, trace w1 = tr ++ [EvRelease; EvCallback cb p ctx]) ∧
         ∀ a2, mem (run_callback cb p ctx w1) !! p = Some a2 →
           ∃ next' w',
             OSCheckAlarms_visit run_callback now ctx p next w
               = Ok next' w' ∧
             mem w' = <[p := set_threadQueue [] a2]>
                        (mem (run_callback cb p ctx w1)) ∧
             gAlarmQueue w' = gAlarmQueue (run_callback cb p ctx w1) ∧
             (∀ th, th ∈ threadQueue a2 → th ∈ ready w') ∧
             (∃ tr, trace w' = tr ++ [EvWakeupThread p (threadQueue a2)])).
Proof.
  intros Hl Hm Hn Hs Hq.
  set (t := clock w (ticks w)).
  set (a1 := triggered ctx t a).
  set (Q1 := if decide (period a ≠ 0) then gAlarmQueue w
             else unlinked_from (alarmQueue a) p (gAlarmQueue w)).
  assert (Hfields :
            context a1 = ctx ∧ threadQueue a1 = threadQueue a ∧
            tag a1 = tag a ∧ name a1 = name a ∧ callback a1 = callback a ∧
            alarmTag a1 = alarmTag a ∧ period a1 = period a ∧
            alarmQueue a1 = alarmQueue a ∧ userData a1 = userData a).
  { unfold a1, triggered. by destruct (decide _). }
  assert (Hfired : fired ctx t a = set_threadQueue [] a1).
  { unfold a1, fired, triggered. by destruct (decide _). }
  destruct Hfields as (H1 & H2 & H3 & H4 & H5 & H6 & H7 & H8 & H9).
  exists a1, Q1. split; [done|].
  split; [|split; [|repeat (split; [done|])]].
  - intros Hp. unfold a1, Q1, triggered. rewrite !decide_True by done.
    cbn. unfold OSTime_add, wrap64. split; [done|]. split; [|done].
    intros Hrange. rewrite Z.mod_small; lia.
  - intros Hp. unfold a1, Q1, triggered. rewrite !decide_False by lia.
    cbn. split; [done|]. split; [done|]. split; [done|].
    intros q l Eq. rewrite Eq. unfold unlinked_from.
    destruct (Hq Hp) as (q' & Eq' & l0 & Hl0).
    assert (q' = q) by congruence. subst q'. rewrite Hl0.
    rewrite list_lookup_insert_eq by (by eapply lookup_lt_Some).
    intros [= <-] Hin. apply elem_of_unlink in Hin. tauto.
  - split.
    + intros Hcb.
      destruct (OSTriggerAlarmNoLock_plain run_callback w p a ctx
                  Hl Hm Hcb Hq)
        as (w' & Hrun & Hl' & Hm' & Hq' & Hr' & Htr' & _).
      fold t in Hm'. rewrite Hfired in Hm'.
      exists (earlier (set_threadQueue [] a1) next), w'.
      split.
      { apply (OSCheckAlarms_visit_after run_callback now ctx p next w a);
          try done.
        by rewrite Hm', lookup_insert_eq. }
      split; [done|]. split; [done|]. split.
      * intros th Hth. rewrite Hr'. apply elem_of_app. by right.
      * eexists. rewrite Htr', app_assoc. done.
    + intros cb Hcb.
      destruct (OSTriggerAlarmNoLock_calls run_callback w p a ctx cb
                  Hl Hm Hcb Hq)
        as (w1 & Hrun & Hl1 & Hm1 & Hq1 & Hr1 & Htr1 & _).
      exists w1. split; [done|]. split; [done|]. split; [done|].
      split; [done|]. split.
      { eexists. rewrite Htr1, app_assoc. done. }
      intros a2 Ha2.
      rewrite (wake_after_callback _ p a2 Ha2) in Hrun.
      match type of Hrun with _ = Ok tt ?x => set (w' := x) in * end.
      exists (earlier (set_threadQueue [] a2) next), w'.
      split.
      { apply (OSCheckAlarms_visit_after run_callback now ctx p next w a);
          try done.
        unfold w'. cbn. by rewrite lookup_insert_eq. }
      split; [done|]. split; [done|]. split.
      * intros th Hth. unfold w'. cbn. apply elem_of_app. by right.
      * eexists. unfold w'. cbn.
        change [EvAcquire; EvWakeupThread p (threadQueue a2)]
          with ([EvAcquire] ++ [EvWakeupThread p (threadQueue a2)]).
        by rewrite app_assoc.
Qed.

(** C10.  Neither a successful [OSCancelAlarm] nor a one-shot fire
    resets the back pointer [alarmQueue] of the alarm: it still names
    the queue the alarm was just removed from.  Arming the alarm again
    therefore starts with a call of [OSEraseFromQueue] on that queue,
    of which the alarm is not a member. *)
Theorem alarmQueue_survives_unlink run_callback w p a q ctx :
  mem w !! p = Some a → alarmQueue a = Some q →
  is_Some (gAlarmQueue w !! q) →
  (state a = AlarmSet →
     ∃ w1 a1,
       OSCancelAlarm p w = Ok true w1 ∧
       mem w1 !! p = Some a1 ∧ alarmQueue a1 = Some q ∧ ¬ linked w1 p q ∧
       ∀ start interval cb members,
         gAlarmQueue w1 !! core_id w1 = Some members →
         ∃ w2, OSSetPeriodicAlarm p start interval cb w1 = Ok true w2 ∧
               trace w2 = trace w1 ++
                 [EvAcquire; EvEraseFromQueue q p;
                  EvAppendQueue (core_id w1) p;
                  EvSetInterruptTimer (core_id w1) (TimeAt start);
                  EvRelease]) ∧
  (callbacks_frame run_callback → gAlarmLock w = true → period a = 0 →
     ∃ w1 a1,
       OSTriggerAlarmNoLock run_callback p ctx w = Ok tt w1 ∧
       mem w1 !! p = Some a1 ∧ alarmQueue a1 = Some q ∧ ¬ linked w1 p q ∧
       ∀ start interval cb members,
         gAlarmQueue w1 !! core_id w1 = Some members →
         ∃ w2, OSSetPeriodicAlarm p start interval cb w1 = Ok true w2 ∧
               trace w2 = trace w1 ++
                 [EvAcquire; EvEraseFromQueue q p;
                  EvAppendQueue (core_id w1) p;
                  EvSetInterruptTimer (core_id w1) (TimeAt start);
                  EvRelease]).
Proof.
  intros Hm Eq [l Hl].
  assert (Hgone : ∀ w1, gAlarmQueue w1 =
                          unlinked_from (Some q) p (gAlarmQueue w) →
                        ¬ linked w1 p q ∧ is_Some (gAlarmQueue w1 !! q)).
  { intros w1 Hq1. unfold unlinked_from in Hq1. rewrite Hl in Hq1.
    assert (Hlq : gAlarmQueue w1 !! q = Some (filter (λ x, x ≠ p) l)).
    { rewrite Hq1. apply list_lookup_insert_eq. by eapply lookup_lt_Some. }
    split; [|by eexists].
    intros (l' & Hl' & Hin). rewrite Hlq in Hl'. injection Hl' as <-.
    apply elem_of_unlink in Hin. tauto. }
  assert (Hrearm : ∀ w1 a1,
            mem w1 !! p = Some a1 → alarmQueue a1 = Some q →
            is_Some (gAlarmQueue w1 !! q) →
            ∀ start interval cb members,
              gAlarmQueue w1 !! core_id w1 = Some members →
              ∃ w2, OSSetPeriodicAlarm p start interval cb w1 = Ok true w2 ∧
                    trace w2 = trace w1 ++
                      [EvAcquire; EvEraseFromQueue q p;
                       EvAppendQueue (core_id w1) p;
                       EvSetInterruptTimer (core_id w1) (TimeAt start);
                       EvRelease]).
  { intros w1 a1 Ha1 Eq1 Hq1 start interval cb members Hc.
    eexists. split.
    - eapply OSSetPeriodicAlarm_run; [done| |done].
      intros q' Hq'. assert (q' = q) by congruence. by subst q'.
    - cbn. by rewrite Eq1. }
  split.
  - intros Hs.
    eexists. exists (cancelled a). split.
    { apply (OSCancelAlarm_armed w p a); [done|done|].
      intros q' Hq'. assert (q' = q) by congruence. subst q'. by eexists. }
    set (w1 := with_lock _ _).
    assert (Ha1 : mem w1 !! p = Some (cancelled a))
      by (unfold w1; cbn; by rewrite lookup_insert_eq).
    destruct (Hgone w1) as [Hno Hq1]; [unfold w1; cbn; by rewrite Eq|].
    split; [done|]. split; [done|]. split; [done|].
    by apply (Hrearm w1 (cancelled a)).
  - intros Hf Hlock Hp.
    destruct (OSTriggerAlarmNoLock_spec run_callback Hf w p a ctx Hlock Hm)
      as (w1 & Hrun & _ & Hm1 & Hq1 & _).
    { intros _. exists q. split; [done|]. by eexists. }
    rewrite decide_False, Eq in Hq1 by lia.
    exists w1, (fired ctx (clock w (ticks w)) a).
    assert (Ha1 : mem w1 !! p = Some (fired ctx (clock w (ticks w)) a))
      by (by rewrite Hm1, lookup_insert_eq).
    assert (Eq1 : alarmQueue (fired ctx (clock w (ticks w)) a) = Some q)
      by (by rewrite fired_alarmQueue).
    destruct (Hgone w1 Hq1) as [Hno Hqs].
    split; [done|]. split; [done|]. split; [done|]. split; [done|].
    by apply (Hrearm w1 _ Ha1 Eq1).
Qed.


(** C5.  On a well-formed world of three cores, [OSCancelAlarms]
    takes the alarm lock once, and afterwards every alarm that was
    armed with the given tag, on whichever core, is cancelled the way
    [OSCancelAlarm] cancels it: its record is [cancelled], it is a
    member of no queue and the threads of its wait set are on the
    ready list.  Every other alarm, in particular every alarm with
    another tag, has the record and the links it had. *)
Theorem OSCancelAlarms_cancels_tagged t w :
  wf w → length (gAlarmQueue w) = 3%nat →
  ∃ w',
    OSCancelAlarms t w = Ok tt w' ∧
    (∃ evs, trace w' = trace w ++ [EvAcquire] ++ evs ++ [EvRelease] ∧
            lock_untouched evs) ∧
    (∀ p a, mem w !! p = Some a → state a = AlarmSet → alarmTag a = t →
       mem w' !! p = Some (cancelled a) ∧ (∀ q, ¬ linked w' p q) ∧
       ∀ th, th ∈ threadQueue a → th ∈ ready w') ∧
    (∀ p a, mem w !! p = Some a → alarmTag a ≠ t →
       mem w' !! p = Some a ∧ ∀ q, linked w' p q ↔ linked w p q) ∧
    (∀ p a, mem w !! p = Some a → state a ≠ AlarmSet →
       mem w' !! p = Some a ∧ ∀ q, linked w' p q ↔ linked w p q) ∧
    (∀ p, mem w !! p = None → mem w' !! p = None).
Proof.
  intros Hwf Hlen.
  destruct (OSCancelAlarms_spec t w Hwf) as
    (w' & Hrun & _ & _ & _ & Hnone & Hcan & Hsame & _ & Htr); [lia|].
  exists w'. split; [done|]. split; [done|].
  split; [|split; [|split; [|done]]].
  - intros p a Ha Hs Ht. apply Hcan; try done.
    intros q (l & Hl & _). apply lookup_lt_Some in Hl. lia.
  - intros p a Ha Ht. apply Hsame; tauto.
  - intros p a Ha Hs. apply Hsame; tauto.
Qed.

(** C7.  After any sequence of operations in which [OSCreateAlarm] and
    [OSCreateAlarmEx] are only applied to storage that is not linked
    into a queue, an alarm is a member of exactly one queue if and only
    if its state is [Set], no queue holds an alarm twice, and the fire
    time of an alarm that is not armed is zero.  The callbacks may call
    back into the facility, as long as they leave the records and the
    queues consistent, which they do when they run operations of the
    facility under the same condition on create
    ([callbacks_of_operations]); and the scans may visit any alarms on
    their walk. *)
Theorem armed_iff_linked_invariant Tag run_callback CoreCount clock' w :
  callbacks_reenter run_callback →
  runs Tag run_callback create_unlinked (boot CoreCount clock') w →
  armed_iff_linked w ∧
  (∀ q l, gAlarmQueue w !! q = Some l → NoDup l) ∧
  idle_time_cleared w.
Proof.
  intros Hcb Hruns.
  destruct (runs_consistent Tag run_callback Hcb _ w
              (boot_consistent CoreCount clock') Hruns) as [Hwf _].
  split; [by apply wf_armed_iff_linked|].
  split; [by apply wf_nodup|]. intros p a. by apply wf_idle.
Qed.

(** [OSCancelAlarm] does not look at the tag of the record: on an armed
    record whose tag is not [OSAlarm::Tag], on which [OSWaitAlarm]
    stops, it cancels the alarm and returns success. *)
Lemma OSCancelAlarm_ignores_tag Tag others w p a :
  p ≠ 0%nat → mem w !! p = Some a → tag a ≠ Tag →
  state a = AlarmSet →
  (∀ q, alarmQueue a = Some q → is_Some (gAlarmQueue w !! q)) →
  OSWaitAlarm Tag others p w = Err AssertionFailed ∧
  ∃ w', OSCancelAlarm p w = Ok true w' ∧
        mem w' = <[p := cancelled a]> (mem w) ∧
        gAlarmQueue w' = unlinked_from (alarmQueue a) p (gAlarmQueue w).
Proof.
  intros Hp Hm Ht Hs Hq. split.
  - by apply (OSWaitAlarm_bad_tag Tag others w p a).
  - eexists. split; [by apply (OSCancelAlarm_armed w p a)|done].
Qed.

(** C8.  [OSWaitAlarm] validates the record it is given: on a null
    pointer and on a record whose tag is not [OSAlarm::Tag] it stops on
    its assertion, in whatever state the alarm is.  [OSCreateAlarm] and
    [OSCreateAlarmEx] take any storage, whatever it holds, and make it
    an initialised record; they zero its links with it, which leaves
    the queues as they are when the storage is not linked. *)
Theorem identity_tag_checked_by_wait Tag others w :
  OSWaitAlarm Tag others 0 w = Err AssertionFailed ∧
  (∀ p a, p ≠ 0%nat → mem w !! p = Some a → tag a ≠ Tag →
     OSWaitAlarm Tag others p w = Err AssertionFailed) ∧
  (∀ p name', p ≠ 0%nat →
     ∃ w', OSCreateAlarmEx Tag p name' w = Ok tt w' ∧
           mem w' = <[p := set_name name' (set_tag Tag zero_alarm)]> (mem w) ∧
           gAlarmQueue w' = cut_behind p <$> gAlarmQueue w ∧
           ((∀ q, ¬ linked w p q) → gAlarmQueue w' = gAlarmQueue w)) ∧
  (∀ p, OSCreateAlarm Tag p w = OSCreateAlarmEx Tag p None w).
Proof.
  split; [apply OSWaitAlarm_null|]. split; [|split; [|done]].
  - intros p a Hp Hm Ht. by apply (OSWaitAlarm_bad_tag Tag others w p a).
  - intros p name' Hp. eexists.
    split; [by apply OSCreateAlarmEx_run|]. split; [done|]. split; [done|].
    intros Hun. cbn. by apply cut_behind_unlinked.
Qed.

(** C9.  Called with the alarm lock free, [OSSetAlarmTag] and
    [OSSetAlarmUserData] take the lock, write their one field and
    release the lock: no access to the record is made without the
    lock.  [OSGetAlarmUserData] returns the user data but never takes
    the lock: its read of the record is made without it.  None of the
    three changes the state, the fire time, the period, the callback or
    the queues. *)
Theorem accessors_spec w p a t d :
  mem w !! p = Some a → gAlarmLock w = false →
  OSSetAlarmTag p t w =
    Ok tt (with_trace (trace w ++ [EvAcquire; EvRelease])
             (with_mem (<[p := set_alarmTag t a]> (mem w)) w)) ∧
  OSSetAlarmUserData p d w =
    Ok tt (with_trace (trace w ++ [EvAcquire; EvRelease])
             (with_mem (<[p := set_userData d a]> (mem w)) w)) ∧
  OSGetAlarmUserData p w =
    Ok (userData a) (with_unguarded (unguarded w ++ [p]) w).
Proof.
  intros Hm Hl. split; [|split].
  - rewrite (OSSetAlarmTag_run w p a) by done. f_equal.
    wopen w. by wsimp.
  - rewrite (OSSetAlarmUserData_run w p a) by done. f_equal.
    wopen w. by wsimp.
  - rewrite (OSGetAlarmUserData_run w p a) by done. f_equal.
    wopen w. by wsimp.
Qed.

(** ** Examples *)

Lemma demo_wf : wf demo_world.
Proof.
  assert (Hmem : ∀ p a, mem demo_world !! p = Some a →
            (p = 1%nat ∧ a = demo_alarm1) ∨ (p = 2%nat ∧ a = demo_alarm2) ∨
            (p = 3%nat ∧ a = demo_alarm3)).
  { intros p a H. unfold demo_world in H. cbn in H.
    apply lookup_insert_Some in H as [[<- <-]|[_ H]]; [tauto|].
    apply lookup_insert_Some in H as [[<- <-]|[_ H]]; [tauto|].
    apply lookup_insert_Some in H as [[<- <-]|[_ H]]; [tauto|].
    by rewrite lookup_empty in H. }
  assert (Hq : ∀ q l, gAlarmQueue demo_world !! q = Some l →
            (q = 0%nat ∧ l = [1%nat; 2%nat]) ∨ (q = 1%nat ∧ l = [3%nat]) ∨
            (q = 2%nat ∧ l = [])).
  { intros q l H. destruct q as [|[|[|q]]]; cbn in H; naive_solver. }
  split.
  - intros q l p Hl Hp.
    destruct (Hq q l Hl) as [[-> ->]|[[-> ->]|[-> ->]]].
    + apply elem_of_cons in Hp as [->|Hp]; [by exists demo_alarm1|].
      apply list_elem_of_singleton in Hp as ->. by exists demo_alarm2.
    + apply list_elem_of_singleton in Hp as ->. by exists demo_alarm3.
    + by apply not_elem_of_nil in Hp.
  - intros p a Ha _.
    destruct (Hmem p a Ha) as [[-> ->]|[[-> ->]|[-> ->]]].
    + exists 0%nat. split; [done|]. exists [1%nat; 2%nat]. split; [done|].
      set_solver.
    + exists 0%nat. split; [done|]. exists [1%nat; 2%nat]. split; [done|].
      set_solver.
    + exists 1%nat. split; [done|]. exists [3%nat]. split; [done|].
      set_solver.
  - intros p a q Ha Hqa.
    destruct (Hmem p a Ha) as [[-> ->]|[[-> ->]|[-> ->]]];
      cbn in Hqa; injection Hqa as <-; cbn; lia.
  - intros q l Hl.
    destruct (Hq q l Hl) as [[-> ->]|[[-> ->]|[-> ->]]].
    + apply NoDup_cons. split; [|apply NoDup_singleton].
      rewrite list_elem_of_singleton. lia.
    + apply NoDup_singleton.
    + apply NoDup_nil_2.
  - intros p a Ha Hs.
    destruct (Hmem p a Ha) as [[-> ->]|[[-> ->]|[-> ->]]]; by destruct Hs.
Qed.

(** The hypotheses of C2 hold for the first alarm of the example: it is
    cancelled, its waiter is resumed and it leaves queue 0. *)
Lemma OSCancelAlarm_spec_witness :
  mem demo_world !! 1%nat = Some demo_alarm1 ∧
  ∃ w', OSCancelAlarm 1 demo_world = Ok true w' ∧
        ready w' = [11%nat] ∧ ¬ linked w' 1 0.
Proof.
  split; [reflexivity|].
  destruct (OSCancelAlarm_spec demo_world 1 demo_alarm1) as
    (w' & Hrun & _ & Harmed & _).
  - reflexivity.
  - intros q [= <-]. by eexists.
  - destruct (Harmed eq_refl) as (a' & _ & _ & _ & _ & _ & _ & _ & _ & _ & _ & _
                                  & _ & _ & Hgone & _ & Hready & _).
    exists w'. split; [exact Hrun|]. split; [exact Hready|].
    by apply Hgone.
Defined.

(** The hypotheses of C3 hold for the first alarm of the example: a
    waiter that is resumed after the alarm was cancelled gets
    failure. *)
Lemma OSWaitAlarm_spec_witness :
  mem demo_world !! 1%nat = Some demo_alarm1 ∧
  tag demo_alarm1 = demo_tag ∧
  ∃ w', OSWaitAlarm demo_tag (after (OSCancelAlarm 1)) 1 demo_world
        = Ok false w'.
Proof.
  split; [reflexivity|]. split; [reflexivity|].
  destruct (OSWaitAlarm_spec demo_tag idle_callback (after (OSCancelAlarm 1))
              demo_world 1 demo_alarm1) as (_ & Harmed & _).
  - lia.
  - reflexivity.
  - reflexivity.
  - destruct (Harmed eq_refl
                (cancelled (set_threadQueue [11%nat; 20%nat] demo_alarm1)))
      as (w' & Hrun).
    + vm_compute. reflexivity.
    + exists w'. exact Hrun.
Defined.

(** The hypotheses of C1 hold when the scan reaches the first alarm of
    the example at time 100, which fires as a periodic alarm without
    callback, and when it reaches the third alarm at time 600, which
    fires as a one-shot alarm with a callback. *)
Lemma OSCheckAlarms_fires_due_witness :
  nextFire demo_alarm1 ≤ 100 ∧ state demo_alarm1 ≠ AlarmCancelled ∧
  (∃ next' w' a',
     OSCheckAlarms_visit idle_callback 100 (Some 4%nat) 1 TimeMax
       (with_lock true demo_world) = Ok next' w' ∧
     mem w' !! 1%nat = Some a' ∧ context a' = Some 4%nat ∧
     nextFire a' = 110 ∧ state a' = AlarmSet ∧ 11%nat ∈ ready w') ∧
  (∃ next' w' a',
     OSCheckAlarms_visit idle_callback 600 (Some 4%nat) 3 TimeMax
       (with_lock true demo_world) = Ok next' w' ∧
     mem w' !! 3%nat = Some a' ∧ context a' = Some 4%nat ∧
     nextFire a' = 0 ∧ state a' = AlarmNone ∧ ¬ linked w' 3 1 ∧
     12%nat ∈ ready w').
Proof.
  split; [vm_compute; discriminate|]. split; [discriminate|]. split.
  - destruct (OSCheckAlarms_fires_due idle_callback 100 (Some 4%nat) 1
                TimeMax (with_lock true demo_world) demo_alarm1)
      as (a1 & Q1 & Hctx & Hper & _ & _ & _ & _ & _ & _ & _ & _ & _ & Hnone
          & _).
    + reflexivity.
    + reflexivity.
    + vm_compute. discriminate.
    + discriminate.
    + discriminate.
    + destruct Hper as (_ & Hplain & Hs & _); [discriminate|].
      destruct (Hnone eq_refl) as (next' & w' & Hrun & Hm & _ & Hready & _).
      exists next', w', (set_threadQueue [] a1). split; [exact Hrun|].
      split; [by rewrite Hm, lookup_insert_eq|].
      split; [exact Hctx|]. split.
      { cbn. rewrite Hplain; [reflexivity|].
        vm_compute. split; [discriminate|reflexivity]. }
      split; [exact Hs|]. apply Hready. set_solver.
  - destruct (OSCheckAlarms_fires_due idle_callback 600 (Some 4%nat) 3
                TimeMax (with_lock true demo_world) demo_alarm3)
      as (a1 & Q1 & Hctx & _ & Hone & Htq & _ & _ & _ & _ & _ & _ & _ & _
          & Hcb).
    + reflexivity.
    + reflexivity.
    + vm_compute. discriminate.
    + discriminate.
    + intros _. exists 1%nat. split; [reflexivity|]. by eexists.
    + destruct (Hone eq_refl) as (Hn & Hs & _ & Hout).
      destruct (Hcb 5%nat eq_refl) as (w1 & _ & Hm1 & Hq1 & _ & _ & Hafter).
      destruct (Hafter a1) as (next' & w' & Hrun & Hm & Hq & Hready & _).
      { unfold idle_callback. by rewrite Hm1, lookup_insert_eq. }
      exists next', w', (set_threadQueue [] a1). split; [exact Hrun|].
      split; [by rewrite Hm, lookup_insert_eq|].
      split; [exact Hctx|]. split; [exact Hn|]. split; [exact Hs|]. split.
      * intros (l & Hl & Hin). rewrite Hq in Hl. unfold idle_callback in Hl.
        rewrite Hq1 in Hl. by apply (Hout 1%nat l eq_refl Hl).
      * apply Hready. rewrite Htq. set_solver.
Defined.


(** The hypotheses of C5 hold for the example: cancelling the tag 7
    cancels the first and the third alarm and leaves the second. *)
Lemma OSCancelAlarms_cancels_tagged_witness :
  wf demo_world ∧ length (gAlarmQueue demo_world) = 3%nat ∧
  ∃ w', OSCancelAlarms 7 demo_world = Ok tt w' ∧
        mem w' !! 1%nat = Some (cancelled demo_alarm1) ∧
        mem w' !! 2%nat = Some demo_alarm2 ∧
        mem w' !! 3%nat = Some (cancelled demo_alarm3).
Proof.
  split; [exact demo_wf|]. split; [reflexivity|].
  destruct (OSCancelAlarms_cancels_tagged 7 demo_world demo_wf eq_refl)
    as (w' & Hrun & _ & Hcan & Hother & _).
  exists w'. split; [exact Hrun|].
  split; [|split].
  - by apply (Hcan 1%nat demo_alarm1).
  - by apply (Hother 2%nat demo_alarm2).
  - by apply (Hcan 3%nat demo_alarm3).
Defined.

(** The hypotheses of C6 hold for the third alarm of the example, armed
    again on core 0: it moves from queue 1 to queue 0; and armed by
    [OSSetAlarm] with the delay 50 when the clock reads 100, it is
    armed for the time 150. *)
Lemma OSSetPeriodicAlarm_spec_witness :
  mem demo_world !! 3%nat = Some demo_alarm3 ∧
  gAlarmQueue demo_world !! core_id demo_world = Some [1%nat; 2%nat] ∧
  (∃ w', OSSetPeriodicAlarm 3 900 30 None demo_world = Ok true w' ∧
         linked w' 3 0 ∧ ¬ linked w' 3 1 ∧
         timers w' !! 0%nat = Some (TimeAt 900)) ∧
  (∃ w' a', OSSetAlarm 3 50 None demo_world = Ok true w' ∧
            mem w' !! 3%nat = Some a' ∧ nextFire a' = 150 ∧ period a' = 0 ∧
            timers w' !! 0%nat = Some (TimeAt 150)).
Proof.
  split; [reflexivity|]. split; [reflexivity|].
  destruct (OSSetPeriodicAlarm_spec demo_world 3 demo_alarm3 900 30 None 50
              [1%nat; 2%nat]) as [(w' & a' & Hrun & H) Hset].
  - reflexivity.
  - intros q [= <-]. by eexists.
  - reflexivity.
  - split.
    + destruct H as (_ & _ & _ & _ & _ & _ & _ & _ & _ & _ & _ & _ & _ & Hin
                     & Hout & _ & Ht & _).
      exists w'. split; [exact Hrun|]. split; [exact Hin|].
      split; [by apply Hout|].
      rewrite Ht. apply lookup_insert_eq.
    + destruct Hset as (now & start & w2 & a2 & Hnow & _ & Hplain & _ & Hrun2
                        & Hm2 & Hn2 & Hp2 & _ & _ & _ & _ & _ & _ & _ & _
                        & _ & _ & Ht2).
      injection Hnow as <-.
      assert (Hstart : start = 150) by (apply Hplain; vm_compute; split; [discriminate|reflexivity]).
      exists w2, a2. split; [exact Hrun2|].
      split; [by rewrite Hm2, lookup_insert_eq|].
      split; [by rewrite Hn2|]. split; [exact Hp2|].
      rewrite Ht2, Hstart. apply lookup_insert_eq.
Defined.

(** The hypotheses of C7 hold for callbacks that arm alarms, and for a
    run in which the callback of a one-shot alarm arms another alarm
    while the scan that fired the first is under way. *)
Lemma armed_iff_linked_invariant_witness :
  callbacks_reenter reentrant_callback ∧
  ∃ w, runs demo_tag reentrant_callback create_unlinked (boot 3 steady) w ∧
       linked w 4 0 ∧ ¬ linked w 1 0 ∧ armed_iff_linked w.
Proof.
  split; [exact reentrant_callback_reenters|].
  assert (Hfresh : ∀ p w, gAlarmQueue w = [[]; []; []] → ∀ q, ¬ linked w p q).
  { intros p w Hq q (l & Hl & Hp). rewrite Hq in Hl.
    destruct q as [|[|[|q]]]; cbn in Hl; try done;
      injection Hl as <-; by apply not_elem_of_nil in Hp. }
  assert (Hruns : ∃ w,
            runs demo_tag reentrant_callback create_unlinked (boot 3 steady) w ∧
            gAlarmQueue w = [[4%nat]; []; []]).
  { eexists. split.
    - eapply (runs_step _ _ _ _ _ (OpCheckAlarms 0 None)).
      + eapply (runs_step _ _ _ _ _ (OpSetAlarm 0 1 (-50) (Some 5%nat))).
        * eapply (runs_step _ _ _ _ _ (OpCreateAlarm 4)).
          -- eapply (runs_step _ _ _ _ _ (OpCreateAlarm 1)).
             ++ apply runs_refl.
             ++ unfold create_unlinked. by apply Hfresh.
             ++ vm_compute. reflexivity.
          -- unfold create_unlinked. by apply Hfresh.
          -- vm_compute. reflexivity.
        * exact I.
        * vm_compute. reflexivity.
      + exact I.
      + vm_compute. reflexivity.
    - reflexivity. }
  destruct Hruns as (w & Hruns & Hq).
  exists w. split; [exact Hruns|]. split; [|split].
  - exists [4%nat]. rewrite Hq. split; [reflexivity|]. set_solver.
  - intros (l & Hl & Hin). rewrite Hq in Hl. injection Hl as <-. set_solver.
  - by destruct (armed_iff_linked_invariant demo_tag reentrant_callback 3
                   steady w reentrant_callback_reenters Hruns) as [H _].
Defined.

(** The hypotheses of C10 hold for the first alarm of the example. *)
Lemma alarmQueue_survives_unlink_witness :
  mem demo_world !! 1%nat = Some demo_alarm1 ∧
  alarmQueue demo_alarm1 = Some 0%nat ∧
  ∃ w1 a1, OSCancelAlarm 1 demo_world = Ok true w1 ∧
           mem w1 !! 1%nat = Some a1 ∧ alarmQueue a1 = Some 0%nat ∧
           ¬ linked w1 1 0.
Proof.
  split; [reflexivity|]. split; [reflexivity|].
  destruct (alarmQueue_survives_unlink idle_callback demo_world 1 demo_alarm1
              0 None) as [Hcancel _].
  - reflexivity.
  - reflexivity.
  - by eexists.
  - destruct (Hcancel eq_refl) as (w1 & a1 & Hrun & Ha1 & Hq1 & Hno & _).
    exists w1, a1. split; [exact Hrun|]. split; [exact Ha1|].
    split; [exact Hq1|exact Hno].
Defined.

(** The hypotheses of C9 hold for the first alarm of the example. *)
Lemma accessors_spec_witness :
  mem demo_world !! 1%nat = Some demo_alarm1 ∧
  gAlarmLock demo_world = false ∧
  (∃ w', OSSetAlarmUserData 1 8 demo_world = Ok tt w' ∧ unguarded w' = []) ∧
  (∃ w', OSGetAlarmUserData 1 demo_world = Ok 0%nat w' ∧
         unguarded w' = [1%nat]).
Proof.
  split; [reflexivity|]. split; [reflexivity|].
  destruct (accessors_spec demo_world 1 demo_alarm1 7 8 eq_refl eq_refl)
    as (_ & Hset & Hget).
  split.
  - eexists. split; [exact Hset|reflexivity].
  - eexists. split; [exact Hget|reflexivity].
Defined.

(** ** Where the specification and the code part *)

(** C1 as stated fails.  The trigger engine reads the clock at entry
    (100 in the example) and tests the alarms against that reading, but
    a periodic alarm that fires gets its new fire time from a second
    reading (107): the first alarm of the example, due at 50 with
    period 10, ends with fire time 117 and not 100 + 10.  And what the
    alarm is like when the scan is over is up to its callback: a
    one-shot alarm whose callback arms it again ends armed and queued,
    with the context arm left; and when the callback creates the alarm
    anew, the wait set is gone when the trigger engine comes to wake
    it, and the waiters sleep on.  And an alarm that was created anew
    while it was in its queue is due with a null back pointer: the
    scan stops on it. *)
Lemma fired_alarm_counterexample :
  (∃ w' a',
     OSCheckAlarms idle_callback 0 None demo_world = Ok tt w' ∧
     clock demo_world (ticks demo_world) = 100 ∧
     mem demo_world !! 1%nat = Some demo_alarm1 ∧
     nextFire demo_alarm1 ≤ 100 ∧ state demo_alarm1 ≠ AlarmCancelled ∧
     period demo_alarm1 = 10 ∧
     mem w' !! 1%nat = Some a' ∧ nextFire a' = 117 ∧
     nextFire a' ≠ OSTime_add 100 (period demo_alarm1)) ∧
  (∃ w' a',
     OSCheckAlarms reentrant_callback 0 (Some 9%nat) (callback_world 6)
       = Ok tt w' ∧
     mem (callback_world 6) !! 1%nat = Some (callback_alarm 6) ∧
     nextFire (callback_alarm 6) ≤ 100 ∧
     state (callback_alarm 6) ≠ AlarmCancelled ∧
     period (callback_alarm 6) = 0 ∧
     mem w' !! 1%nat = Some a' ∧ state a' = AlarmSet ∧ nextFire a' = 1000 ∧
     context a' = None ∧ linked w' 1 0) ∧
  (∃ w' a',
     OSCheckAlarms recreating_callback 0 (Some 9%nat) (callback_world 7)
       = Ok tt w' ∧
     mem (callback_world 7) !! 1%nat = Some (callback_alarm 7) ∧
     nextFire (callback_alarm 7) ≤ 100 ∧
     state (callback_alarm 7) ≠ AlarmCancelled ∧
     threadQueue (callback_alarm 7) = [12%nat; 13%nat] ∧
     mem w' !! 1%nat = Some a' ∧ context a' = None ∧ ready w' = []) ∧
  (∃ a,
     gAlarmQueue recreated_world !! 0%nat = Some [1%nat] ∧
     mem recreated_world !! 1%nat = Some a ∧
     nextFire a ≤ clock recreated_world (ticks recreated_world) ∧
     state a ≠ AlarmCancelled ∧ period a = 0 ∧ alarmQueue a = None ∧
     OSCheckAlarms idle_callback 0 None recreated_world
       = Err InvalidPointer).
Proof.
  split; [|split; [|split]].
  - eexists. eexists.
    split; [vm_compute; reflexivity|].
    split; [reflexivity|]. split; [reflexivity|].
    split; [vm_compute; discriminate|]. split; [discriminate|].
    split; [reflexivity|].
    split; [vm_compute; reflexivity|].
    split; [reflexivity|]. vm_compute. discriminate.
  - eexists. eexists.
    split; [vm_compute; reflexivity|]. split; [reflexivity|].
    split; [vm_compute; discriminate|]. split; [discriminate|].
    split; [reflexivity|].
    split; [vm_compute; reflexivity|].
    split; [reflexivity|]. split; [reflexivity|]. split; [reflexivity|].
    exists [1%nat]. split; [reflexivity|]. set_solver.
  - eexists. eexists.
    split; [vm_compute; reflexivity|]. split; [reflexivity|].
    split; [vm_compute; discriminate|]. split; [discriminate|].
    split; [reflexivity|].
    split; [vm_compute; reflexivity|]. split; reflexivity.
  - eexists.
    split; [vm_compute; reflexivity|].
    split; [vm_compute; reflexivity|].
    split; [vm_compute; discriminate|]. split; [discriminate|].
    split; [reflexivity|]. split; [reflexivity|].
    vm_compute. reflexivity.
Qed.


(** C5 as stated fails.  [OSCancelAlarms] finds the alarms by walking
    the links of the queues, and [OSCreateAlarm] on an armed alarm
    zeroes its links: after create, create, arm, arm on core 0 and
    create of the first alarm again, the walk ends at the first alarm,
    and the second, which is armed and carries the tag 0, is still
    armed after [OSCancelAlarms] with the tag 0. *)
Lemma recreated_head_counterexample :
  ∃ a2 w',
    steps demo_tag idle_callback any_op (boot 3 ticking)
      recreated_head_world ∧
    mem recreated_head_world !! 2%nat = Some a2 ∧
    state a2 = AlarmSet ∧ alarmTag a2 = 0 ∧
    OSCancelAlarms 0 recreated_head_world = Ok tt w' ∧
    mem w' !! 2%nat = Some a2.
Proof.
  eexists. eexists. split; [|split; [|split; [|split; [|split]]]].
  - eapply (steps_step _ _ _ _ _ (OpCreateAlarm 1)).
    + eapply (steps_step _ _ _ _ _ (OpSetAlarm 0 2 100 None)).
      * eapply (steps_step _ _ _ _ _ (OpSetAlarm 0 1 100 None)).
        -- eapply (steps_step _ _ _ _ _ (OpCreateAlarm 2)).
           ++ eapply (steps_step _ _ _ _ _ (OpCreateAlarm 1)).
              ** apply steps_refl.
              ** exact I.
              ** vm_compute. reflexivity.
           ++ exact I.
           ++ vm_compute. reflexivity.
        -- exact I.
        -- vm_compute. reflexivity.
      * exact I.
      * vm_compute. reflexivity.
    + exact I.
    + vm_compute. reflexivity.
  - vm_compute. reflexivity.
  - reflexivity.
  - reflexivity.
  - vm_compute. reflexivity.
  - vm_compute. reflexivity.
Qed.

(** C7 as stated fails.  [OSCreateAlarm] on an alarm that is armed
    zeroes the record and leaves it in its queue: after create, arm,
    create the alarm is linked into queue 0 and its state is [None].
    It is the same when it is the callback of a periodic alarm that
    creates the alarm anew while the alarm is in its queue. *)
Lemma create_armed_counterexample :
  (∃ w a,
     steps demo_tag idle_callback any_op (boot 3 ticking) w ∧
     mem w !! 1%nat = Some a ∧ state a = AlarmNone ∧ linked w 1 0 ∧
     ¬ armed_iff_linked w) ∧
  (∃ w a,
     steps demo_tag recreating_callback create_unlinked (boot 3 steady) w ∧
     mem w !! 1%nat = Some a ∧ state a = AlarmNone ∧ linked w 1 0 ∧
     ¬ armed_iff_linked w).
Proof.
  assert (Hqueue : ∀ w, gAlarmQueue w = [[1%nat]; []; []] →
            linked w 1 0 ∧ ∀ q, linked w 1 q → q = 0%nat).
  { intros w Hq. split.
    - exists [1%nat]. rewrite Hq. split; [reflexivity|]. set_solver.
    - intros q (l & Hl & Hp). rewrite Hq in Hl.
      destruct q as [|[|[|q]]]; cbn in Hl; [done| | |done];
        injection Hl as <-; by apply not_elem_of_nil in Hp. }
  assert (Hbroken : ∀ w a, mem w !! 1%nat = Some a → state a = AlarmNone →
            gAlarmQueue w = [[1%nat]; []; []] → ¬ armed_iff_linked w).
  { intros w a Ha Hs Hq Hinv. destruct (Hqueue w Hq) as [Hlk Huniq].
    destruct (Hinv 1%nat a Ha) as [_ Hback].
    assert (state a = AlarmSet) as Hset.
    { apply Hback. exists 0%nat. split; [exact Hlk|exact Huniq]. }
    congruence. }
  split.
  - assert (Hsteps : ∃ w a,
              steps demo_tag idle_callback any_op (boot 3 ticking) w ∧
              mem w !! 1%nat = Some a ∧ state a = AlarmNone ∧
              gAlarmQueue w = [[1%nat]; []; []]).
    { eexists. eexists. split; [|split; [|split]].
      - eapply (steps_step _ _ _ _ _ (OpCreateAlarm 1)).
        + eapply (steps_step _ _ _ _ _ (OpSetAlarm 0 1 100 None)).
          * eapply (steps_step _ _ _ _ _ (OpCreateAlarm 1)).
            -- apply steps_refl.
            -- exact I.
            -- vm_compute. reflexivity.
          * exact I.
          * vm_compute. reflexivity.
        + exact I.
        + vm_compute. reflexivity.
      - vm_compute. reflexivity.
      - reflexivity.
      - reflexivity. }
    destruct Hsteps as (w & a & Hsteps & Ha & Hs & Hq).
    exists w, a. repeat (split; [assumption|]).
    split; [by apply Hqueue|by apply (Hbroken w a)].
  - assert (Hsteps : ∃ w a,
              steps demo_tag recreating_callback create_unlinked
                (boot 3 steady) w ∧
              mem w !! 1%nat = Some a ∧ state a = AlarmNone ∧
              gAlarmQueue w = [[1%nat]; []; []]).
    { eexists. eexists. split; [|split; [|split]].
      - eapply (steps_step _ _ _ _ _ (OpCheckAlarms 0 None)).
        + eapply (steps_step _ _ _ _ _
                    (OpSetPeriodicAlarm 0 1 50 10 (Some 7%nat))).
          * eapply (steps_step _ _ _ _ _ (OpCreateAlarm 1)).
            -- apply steps_refl.
            -- intros q (l & Hl & Hp). apply lookup_replicate in Hl as [-> _].
               by apply not_elem_of_nil in Hp.
            -- vm_compute. reflexivity.
          * exact I.
          * vm_compute. reflexivity.
        + exact I.
        + vm_compute. reflexivity.
      - vm_compute. reflexivity.
      - reflexivity.
      - reflexivity. }
    destruct Hsteps as (w & a & Hsteps & Ha & Hs & Hq).
    exists w, a. repeat (split; [assumption|]).
    split; [by apply Hqueue|by apply (Hbroken w a)].
Qed.

(** C8 as stated fails.  [OSCreateAlarm] is handed storage whose tag
    does not match and initialises it, as it is meant to; and
    [OSCancelAlarm] on the same storage does not stop either. *)
Lemma identity_tag_counterexample :
  ∃ w1 w2,
    mem foreign_world !! 1%nat = Some foreign_alarm ∧
    tag foreign_alarm ≠ demo_tag ∧
    OSCreateAlarm demo_tag 1 foreign_world = Ok tt w1 ∧
    OSCancelAlarm 1 foreign_world = Ok true w2.
Proof.
  eexists. eexists.
  split; [reflexivity|]. split; [discriminate|].
  split; vm_compute; reflexivity.
Qed.

(** C9 as stated fails.  [OSGetAlarmUserData] called with the lock free
    returns with the lock never taken: the trace shows no call and the
    record was read without the lock. *)
Lemma unlocked_getter_counterexample :
  ∃ w',
    gAlarmLock demo_world = false ∧
    OSGetAlarmUserData 1 demo_world = Ok 0%nat w' ∧
    trace w' = trace demo_world ∧ gAlarmLock w' = false ∧
    unguarded w' = [1%nat].
Proof.
  eexists. split; [reflexivity|].
  split; [vm_compute; reflexivity|]. by repeat split.
Qed.

(** ** Further properties of cancelling by tag *)

Lemma four_core_wf : wf four_core_world.
Proof.
  assert (Hmem : ∀ p a, mem four_core_world !! p = Some a →
            p = 1%nat ∧ a = fourth_core_alarm).
  { intros p a H. unfold four_core_world in H. cbn in H.
    apply lookup_insert_Some in H as [[<- <-]|[_ H]]; [done|].
    by rewrite lookup_empty in H. }
  assert (Hq : ∀ q l p, gAlarmQueue four_core_world !! q = Some l → p ∈ l →
            q = 3%nat ∧ l = [1%nat] ∧ p = 1%nat).
  { intros q l p H Hp. destruct q as [|[|[|[|q]]]]; cbn in H;
      try injection H as <-; try done; try (by apply not_elem_of_nil in Hp).
    by apply list_elem_of_singleton in Hp as ->. }
  split.
  - intros q l p Hl Hp. destruct (Hq q l p Hl Hp) as (-> & -> & ->).
    by exists fourth_core_alarm.
  - intros p a Ha _. destruct (Hmem p a Ha) as [-> ->].
    exists 3%nat. split; [done|]. exists [1%nat]. split; [done|].
    by apply list_elem_of_singleton.
  - intros p a q Ha Hqa. destruct (Hmem p a Ha) as [-> ->].
    cbn in Hqa. injection Hqa as <-. cbn. lia.
  - intros q l Hl. destruct q as [|[|[|[|q]]]]; cbn in Hl;
      try injection Hl as <-; try done;
      try apply NoDup_nil_2. apply NoDup_singleton.
  - intros p a Ha Hs. destruct (Hmem p a Ha) as [-> ->]. by destruct Hs.
Qed.

(** X2.  [OSCancelAlarms] walks the queues 0, 1 and 2 whatever
    [CoreCount] is.  On a well-formed world with fewer than three
    queues it indexes [gAlarmQueue] out of range.  With more than three
    queues, the alarms linked into a queue from the fourth on are not
    looked at: such an alarm keeps its record and its link even if it
    is armed with the tag that is cancelled. *)
Theorem OSCancelAlarms_walks_three_queues t w :
  wf w →
  ((length (gAlarmQueue w) < 3)%nat →
     OSCancelAlarms t w = Err OutOfBounds) ∧
  ((3 ≤ length (gAlarmQueue w))%nat →
     ∃ w', OSCancelAlarms t w = Ok tt w' ∧
       ∀ p a q, (3 ≤ q)%nat → linked w p q → mem w !! p = Some a →
         mem w' !! p = Some a ∧ linked w' p q).
Proof.
  intros Hwf. split; [by apply OSCancelAlarms_short|]. intros Hlen.
  destruct (OSCancelAlarms_records t w Hwf Hlen)
    as (w' & Hrun & Hwf' & Hfr & Hrec & Hlk & _).
  exists w'. split; [done|]. intros p a q Hq Hpq Ha.
  assert (Hpq' : linked w' p q).
  { destruct Hpq as (l & Hl & Hp). exists l. split; [|done].
    by rewrite Hfr. }
  split; [|done].
  apply Hlk in Hpq' as (_ & a' & Ha' & Hs').
  destruct (Hrec p a Ha) as [H|(_ & _ & H)]; [done|].
  rewrite H in Ha'. by injection Ha' as <-.
Qed.

(** The hypotheses hold on a machine of four cores whose fourth core
    has an armed alarm with the tag 7: cancelling the tag 7 leaves that
    alarm armed and linked. *)
Lemma OSCancelAlarms_walks_three_queues_witness :
  wf four_core_world ∧ alarmTag fourth_core_alarm = 7 ∧
  ∃ w', OSCancelAlarms 7 four_core_world = Ok tt w' ∧
        mem w' !! 1%nat = Some fourth_core_alarm ∧ linked w' 1 3.
Proof.
  split; [exact four_core_wf|]. split; [reflexivity|].
  destruct (OSCancelAlarms_walks_three_queues 7 four_core_world four_core_wf)
    as [_ Hlong].
  destruct Hlong as (w' & Hrun & Hkeep); [cbn; lia|].
  exists w'. split; [exact Hrun|].
  apply (Hkeep 1%nat fourth_core_alarm 3%nat); [lia| |reflexivity].
  exists [1%nat]. split; [reflexivity|]. by apply list_elem_of_singleton.
Defined.

(** X11.  An alarm that was created and never tagged carries the tag 0,
    which is what [memset] leaves: once armed it is cancelled by
    [OSCancelAlarms] of the tag 0. *)
Theorem untagged_alarm_cancelled_by_tag_zero
    Tag w p start interval cb members :
  wf w → length (gAlarmQueue w) = 3%nat →
  p ≠ 0%nat → (∀ q, ¬ linked w p q) →
  gAlarmQueue w !! core_id w = Some members →
  ∃ w1 w2 w3,
    OSCreateAlarm Tag p w = Ok tt w1 ∧
    OSSetPeriodicAlarm p start interval cb w1 = Ok true w2 ∧
    OSCancelAlarms 0 w2 = Ok tt w3 ∧
    mem w3 !! p =
      Some (cancelled (armed start interval cb (core_id w)
                         (set_tag Tag zero_alarm))) ∧
    ∀ q, ¬ linked w3 p q.
Proof.
  intros Hwf Hlen Hp Hun Hcore.
  pose proof (OSCreateAlarmEx_fresh Tag w p None Hp Hun) as Hcreate.
  match type of Hcreate with _ = Ok tt ?x => set (w1 := x) in * end.
  destruct (run_op_wf Tag idle_callback idle_callback_frame
              (OpCreateAlarm p) w w1 Hwf Hun Hcreate) as [Hwf1 Hlen1].
  set (a1 := set_tag Tag zero_alarm).
  assert (Ha1 : mem w1 !! p = Some a1)
    by (unfold w1; cbn; by rewrite lookup_insert_eq).
  assert (Hcore1 : gAlarmQueue w1 !! core_id w1 = Some members) by done.
  pose proof (OSSetPeriodicAlarm_run w1 p a1 start interval cb members Ha1)
    as Harm.
  specialize (Harm ltac:(done) Hcore1).
  match type of Harm with _ = Ok true ?x => set (w2 := x) in * end.
  destruct (OSSetPeriodicAlarm_wf p start interval cb w1 w2 true Hwf1 Harm)
    as [Hwf2 Hlen2].
  assert (Ha2 : mem w2 !! p = Some (armed start interval cb (core_id w) a1))
    by (unfold w2; cbn; by rewrite lookup_insert_eq).
  destruct (OSCancelAlarms_spec 0 w2 Hwf2)
    as (w3 & Hcancel & _ & _ & _ & _ & Hcan & _); [lia|].
  destruct (Hcan p _ Ha2) as (Ha3 & Hun3 & _); [done|done| |].
  { intros q (l & Hl & _). apply lookup_lt_Some in Hl. lia. }
  exists w1, w2, w3. done.
Qed.

(** The hypotheses hold for fresh storage at address 4 of the
    example. *)
Lemma untagged_alarm_cancelled_by_tag_zero_witness :
  wf demo_world ∧ length (gAlarmQueue demo_world) = 3%nat ∧
  (∀ q, ¬ linked demo_world 4 q) ∧
  ∃ w1 w2 w3 a3,
    OSCreateAlarm demo_tag 4 demo_world = Ok tt w1 ∧
    OSSetPeriodicAlarm 4 900 0 None w1 = Ok true w2 ∧
    OSCancelAlarms 0 w2 = Ok tt w3 ∧
    mem w3 !! 4%nat = Some a3 ∧ state a3 = AlarmCancelled.
Proof.
  assert (Hun : ∀ q, ¬ linked demo_world 4 q).
  { intros q (l & Hl & Hp).
    destruct (wf_member demo_world demo_wf q l 4 Hl Hp) as (a & Ha & _).
    vm_compute in Ha. discriminate Ha. }
  split; [exact demo_wf|]. split; [reflexivity|]. split; [exact Hun|].
  destruct (untagged_alarm_cancelled_by_tag_zero demo_tag demo_world 4
              900 0 None [1%nat; 2%nat] demo_wf eq_refl)
    as (w1 & w2 & w3 & H1 & H2 & H3 & Ha3 & _).
  - lia.
  - exact Hun.
  - reflexivity.
  - exists w1, w2, w3. eexists.
    split; [exact H1|]. split; [exact H2|]. split; [exact H3|].
    split; [exact Ha3|reflexivity].
Defined.

(** ** Further properties of the trigger engine *)

(** X3.  On a well-formed world [OSCheckAlarms] fires exactly the
    members of the queue of the core whose fire time is at most the
    clock reading taken on entry: such a member has the record [fired],
    and it is still a member afterwards exactly when it is periodic; a
    member whose fire time is later has the record it had and stays a
    member.  Alarms outside the queue, in particular those armed on
    other cores, and the queues of the other cores are untouched. *)
Theorem OSCheckAlarms_fires_exactly_due run_callback core ctx w members :
  callbacks_frame run_callback → wf w →
  gAlarmQueue w !! core = Some members →
  ∃ w',
    OSCheckAlarms run_callback core ctx w = Ok tt w' ∧
    (∀ p, p ∈ members →
       ∃ a a', mem w !! p = Some a ∧ mem w' !! p = Some a' ∧
         (nextFire a ≤ clock w (ticks w) →
            (∃ t, a' = fired ctx t a) ∧
            (linked w' p core ↔ period a ≠ 0)) ∧
         (clock w (ticks w) < nextFire a → a' = a ∧ linked w' p core)) ∧
    (∀ p, p ∉ members → mem w' !! p = mem w !! p ∧ ¬ linked w' p core) ∧
    (∀ q, q ≠ core → gAlarmQueue w' !! q = gAlarmQueue w !! q).
Proof.
  intros Hf Hwf Hq.
  destruct (OSCheckAlarms_outcome run_callback Hf core ctx w members Hwf Hq)
    as (w' & Hrun & Hwf' & _ & Hout & Hfr & Hoq & Hin & _).
  exists w'. split; [done|]. split; [|split; [|done]].
  - intros p Hp.
    destruct (wf_member w Hwf core members p Hq Hp) as (a & Ha & Hs & Hqa).
    destruct (Hout p a Hp Ha) as (a' & Ha' & Hdue & Hskip).
    exists a, a'. split; [done|]. split; [done|]. split.
    + intros Hle. destruct Hdue as [t ->]; [split; [done|congruence]|].
      split; [by exists t|].
      split.
      * intros (l' & Hl' & Hpl') Hp0.
        destruct (wf_member w' Hwf' core l' p Hl' Hpl') as (a2 & Ha2 & Hs2 & _).
        rewrite Ha' in Ha2. injection Ha2 as <-.
        destruct (fired_oneshot ctx t a) as [Hn _]; [lia|]. congruence.
      * intros Hp0.
        destruct (wf_armed w' Hwf' p _ Ha') as (q & Hq' & Hlk).
        { by apply fired_state_periodic. }
        rewrite fired_alarmQueue in Hq'. congruence.
    + intros Hlt. assert (a' = a) as ->.
      { apply Hskip. intros [Hle _]. lia. }
      split; [done|].
      destruct (wf_armed w' Hwf' p a Ha' Hs) as (q & Hq' & Hlk). congruence.
  - intros p Hp. split; [by apply Hfr|]. intros Hlk. by apply Hp, Hin.
Qed.

(** The hypotheses hold for core 0 of the example, scanned at time 100:
    the periodic alarm fires and stays, the one-shot alarm fires and
    leaves, the alarm of core 1 is as it was. *)
Lemma OSCheckAlarms_fires_exactly_due_witness :
  wf demo_world ∧ gAlarmQueue demo_world !! 0%nat = Some [1%nat; 2%nat] ∧
  ∃ w', OSCheckAlarms idle_callback 0 None demo_world = Ok tt w' ∧
        linked w' 1 0 ∧ ¬ linked w' 2 0 ∧
        mem w' !! 3%nat = Some demo_alarm3.
Proof.
  split; [exact demo_wf|]. split; [reflexivity|].
  destruct (OSCheckAlarms_fires_exactly_due idle_callback 0 None demo_world
              [1%nat; 2%nat] idle_callback_frame demo_wf eq_refl)
    as (w' & Hrun & Hin & Hout & _).
  exists w'. split; [exact Hrun|]. split; [|split].
  - destruct (Hin 1%nat) as (a & a' & Ha & _ & Hdue & _).
    { rewrite elem_of_cons. by left. }
    injection Ha as <-. destruct Hdue as [_ Hlk]; [vm_compute; discriminate|].
    apply Hlk. discriminate.
  - destruct (Hin 2%nat) as (a & a' & Ha & _ & Hdue & _).
    { rewrite !elem_of_cons. tauto. }
    injection Ha as <-. destruct Hdue as [_ Hlk]; [vm_compute; discriminate|].
    intros H. by apply Hlk in H.
  - destruct (Hout 3%nat) as [-> _]; [|reflexivity].
    rewrite !elem_of_cons. intros [?|[?|H]]; [lia|lia|].
    by apply not_elem_of_nil in H.
Defined.

(** X4.  Arming and scanning compose as follows on a well-formed world,
    with callbacks that leave the alarm records and the queues as they
    are.  An alarm armed by [OSSetPeriodicAlarm] is left alone by a
    scan of any other core, whatever its start time, and by a scan of
    its own core whose clock reading is before the start time; the
    first scan of its own core whose clock reading has reached the
    start time fires it, after which it is still a member of the queue
    exactly when the interval is not zero. *)
Theorem OSSetPeriodicAlarm_then_OSCheckAlarms
    run_callback w p a start interval cb members :
  callbacks_frame run_callback → wf w →
  mem w !! p = Some a → gAlarmQueue w !! core_id w = Some members →
  ∃ w1,
    OSSetPeriodicAlarm p start interval cb w = Ok true w1 ∧
    ∀ core ctx, (core < length (gAlarmQueue w))%nat →
      ∃ w2 a2,
        OSCheckAlarms run_callback core ctx w1 = Ok tt w2 ∧
        mem w2 !! p = Some a2 ∧
        (core ≠ core_id w →
           a2 = armed start interval cb (core_id w) a ∧
           linked w2 p (core_id w)) ∧
        (core = core_id w → clock w (ticks w) < start →
           a2 = armed start interval cb (core_id w) a ∧
           linked w2 p (core_id w)) ∧
        (core = core_id w → start ≤ clock w (ticks w) →
           (∃ t, a2 = fired ctx t (armed start interval cb (core_id w) a)) ∧
           (linked w2 p (core_id w) ↔ interval ≠ 0)).
Proof.
  intros Hf Hwf Ha Hq.
  assert (Hback : ∀ q, alarmQueue a = Some q → is_Some (gAlarmQueue w !! q)).
  { intros q Hqa. apply lookup_lt_is_Some. by eapply wf_owner. }
  pose proof (OSSetPeriodicAlarm_run w p a start interval cb members
                Ha Hback Hq) as Hrun.
  set (a1 := armed start interval cb (core_id w) a) in *.
  match type of Hrun with _ = Ok true ?x => set (w1 := x) in * end.
  destruct (OSSetPeriodicAlarm_wf p start interval cb w w1 true Hwf Hrun)
    as [Hwf1 Hlen1].
  assert (Ha1 : mem w1 !! p = Some a1) by (unfold w1; cbn; by rewrite lookup_insert_eq).
  assert (Hs1 : state a1 = AlarmSet) by done.
  assert (Hq1 : alarmQueue a1 = Some (core_id w)) by done.
  assert (Hlk1 : linked w1 p (core_id w)).
  { destruct (wf_armed w1 Hwf1 p a1 Ha1 Hs1) as (q & Hq' & Hlk). congruence. }
  exists w1. split; [done|]. intros core ctx Hcore.
  destruct (lookup_lt_is_Some_2 (gAlarmQueue w1) core) as [l Hl]; [lia|].
  destruct (OSCheckAlarms_outcome run_callback Hf core ctx w1 l Hwf1 Hl)
    as (w2 & Hrun2 & Hwf2 & _ & Hout & Hfr & Hoq & Hin & _).
  assert (Hclock : clock w1 (ticks w1) = clock w (ticks w)) by done.
  rewrite Hclock in Hout.
  destruct (decide (core = core_id w)) as [->|Hne].
  - assert (Hp : p ∈ l).
    { destruct Hlk1 as (l' & Hl' & Hp). congruence. }
    destruct (Hout p a1 Hp Ha1) as (a2 & Ha2 & Hdue & Hskip).
    exists w2, a2. split; [done|]. split; [done|].
    split; [done|]. split.
    + intros _ Hlt. assert (a2 = a1) as ->.
      { apply Hskip. intros [Hle _]. cbn in Hle. lia. }
      split; [done|].
      destruct (wf_armed w2 Hwf2 p a1 Ha2 Hs1) as (q & Hq' & Hlk). congruence.
    + intros _ Hle. destruct Hdue as [t ->]; [split; [done|congruence]|].
      split; [by exists t|]. split.
      * intros (l' & Hl' & Hpl') Hp0.
        destruct (wf_member w2 Hwf2 _ l' p Hl' Hpl') as (a3 & Ha3 & Hs3 & _).
        rewrite Ha2 in Ha3. injection Ha3 as <-.
        destruct (fired_oneshot ctx t a1) as [Hn _]; [done|]. congruence.
      * intros Hp0.
        destruct (wf_armed w2 Hwf2 p _ Ha2) as (q & Hq' & Hlk).
        { by apply fired_state_periodic. }
        rewrite fired_alarmQueue in Hq'. congruence.
  - assert (Hp : p ∉ l).
    { intros Hp.
      destruct (wf_member w1 Hwf1 core l p Hl Hp) as (a3 & Ha3 & _ & Hq3).
      congruence. }
    exists w2, a1. split; [done|]. split; [by rewrite Hfr|].
    split; [|split; [done|done]].
    intros _. split; [done|].
    destruct Hlk1 as (l' & Hl' & Hpl'). exists l'. split; [|done].
    rewrite Hoq; [done|congruence].
Qed.

(** The hypotheses hold for the third alarm of the example, armed anew
    on core 0 for the time 900: a scan of core 1 and a scan of core 0
    at time 100 both leave it armed. *)
Lemma OSSetPeriodicAlarm_then_OSCheckAlarms_witness :
  wf demo_world ∧ mem demo_world !! 3%nat = Some demo_alarm3 ∧
  gAlarmQueue demo_world !! core_id demo_world = Some [1%nat; 2%nat] ∧
  ∃ w1, OSSetPeriodicAlarm 3 900 30 None demo_world = Ok true w1 ∧
    (∃ w2, OSCheckAlarms idle_callback 1 None w1 = Ok tt w2 ∧ linked w2 3 0) ∧
    (∃ w2, OSCheckAlarms idle_callback 0 None w1 = Ok tt w2 ∧ linked w2 3 0).
Proof.
  split; [exact demo_wf|]. split; [reflexivity|]. split; [reflexivity|].
  destruct (OSSetPeriodicAlarm_then_OSCheckAlarms idle_callback demo_world 3
              demo_alarm3 900 30 None [1%nat; 2%nat] idle_callback_frame
              demo_wf eq_refl eq_refl) as (w1 & Hrun & Hscan).
  exists w1. split; [exact Hrun|]. split.
  - destruct (Hscan 1%nat None) as (w2 & a2 & Hrun2 & _ & Hother & _).
    { cbn. lia. }
    exists w2. split; [exact Hrun2|]. apply Hother. discriminate.
  - destruct (Hscan 0%nat None) as (w2 & a2 & Hrun2 & _ & _ & Hearly & _).
    { cbn. lia. }
    exists w2. split; [exact Hrun2|]. apply Hearly; [reflexivity|].
    vm_compute. reflexivity.
Defined.

(** X5.  A scan that finds no member due (in particular a scan of an
    empty queue, which disarms the timer) calls no callback, wakes no
    thread and writes no record and no queue: it reads the clock once,
    takes and releases the two locks and sets the timer of the core.
    This holds for any callbacks and on any world. *)
Theorem OSCheckAlarms_nothing_due run_callback core ctx w members :
  gAlarmQueue w !! core = Some members →
  (∀ p, p ∈ members →
     ∃ a, mem w !! p = Some a ∧
          ¬ (nextFire a ≤ clock w (ticks w) ∧ state a ≠ AlarmCancelled)) →
  ∃ T,
    OSCheckAlarms run_callback core ctx w =
    Ok tt (with_trace
             (trace w ++ [EvLockScheduler; EvAcquire; EvRelease;
                          EvUnlockScheduler; EvSetInterruptTimer core T])
             (with_timers (<[core := T]> (timers w))
                (with_lock false (with_ticks (S (ticks w)) w)))) ∧
    (members = [] → T = TimeMax).
Proof.
  intros Hq Hmem.
  set (w1 := with_trace (trace w ++ [EvLockScheduler; EvAcquire])
               (with_lock true (with_ticks (S (ticks w)) w))).
  destruct (for_each_skip run_callback (clock w (ticks w)) ctx members
              TimeMax w1) as (T & Hrun & HT); [done|exact Hmem|].
  exists T. split; [|done].
  unfold OSCheckAlarms, w1 in *. clear Hmem HT.
  wopen w. wsimp_in Hrun. munfold. mrun. rewrite <- app_assoc. cbn.
  rewrite Hrun. mrun. wdone.
Qed.

(** The hypotheses hold for core 2 of the example, whose queue is
    empty: the timer of the core is disarmed. *)
Lemma OSCheckAlarms_nothing_due_witness :
  gAlarmQueue demo_world !! 2%nat = Some [] ∧
  ∃ w', OSCheckAlarms idle_callback 2 None demo_world = Ok tt w' ∧
        timers w' !! 2%nat = Some TimeMax ∧ mem w' = mem demo_world.
Proof.
  split; [reflexivity|].
  destruct (OSCheckAlarms_nothing_due idle_callback 2 None demo_world [])
    as (T & Hrun & HT).
  - reflexivity.
  - intros p Hp. by apply not_elem_of_nil in Hp.
  - eexists. split; [exact Hrun|]. rewrite (HT eq_refl). split; reflexivity.
Defined.

(** X6.  [OSTriggerAlarmNoLock] unlinks a one-shot alarm through its
    back pointer without the null test that [OSCancelAlarmNoLock]
    makes.  When the first member of the scanned queue is due, has
    period zero and a null back pointer, which is what [OSCreateAlarm]
    leaves of an alarm that was armed, the scan hands the null queue to
    [OSEraseFromQueue] and stops there. *)
Theorem OSCheckAlarms_null_back_pointer run_callback core ctx w p rest a :
  gAlarmQueue w !! core = Some (p :: rest) →
  mem w !! p = Some a →
  nextFire a ≤ clock w (ticks w) → state a ≠ AlarmCancelled →
  period a = 0 → alarmQueue a = None →
  OSCheckAlarms run_callback core ctx w = Err InvalidPointer.
Proof.
  intros Hq Ha Hn Hs Hp Hqa.
  wopen w. unfold OSCheckAlarms. munfold. mrun. unfold mbind, M_bind.
  by erewrite OSCheckAlarms_visit_null.
Qed.

(** The hypotheses hold for the world left by create, arm, create: the
    next scan of core 0 stops on the null queue. *)
Lemma OSCheckAlarms_null_back_pointer_witness :
  gAlarmQueue recreated_world !! 0%nat = Some [1%nat] ∧
  mem recreated_world !! 1%nat = Some (set_tag demo_tag zero_alarm) ∧
  OSCheckAlarms idle_callback 0 None recreated_world = Err InvalidPointer.
Proof.
  split; [reflexivity|]. split; [vm_compute; reflexivity|].
  apply (OSCheckAlarms_null_back_pointer idle_callback 0 None recreated_world
           1 [] (set_tag demo_tag zero_alarm)).
  - reflexivity.
  - vm_compute. reflexivity.
  - vm_compute. discriminate.
  - discriminate.
  - reflexivity.
  - reflexivity.
Defined.

(** X7.  [OSTriggerAlarmNoLock] on an alarm with a callback, whatever
    the callback does: the callback is called with the alarm lock
    released, after the record was rescheduled (periodic) or retired
    and unlinked (one-shot), and before the wait set is woken; when it
    returns the lock is taken again and the wait set of the record, as
    the callback left it, is woken. *)
Theorem OSTriggerAlarmNoLock_callback run_callback w p a ctx cb :
  gAlarmLock w = true → mem w !! p = Some a → callback a = Some cb →
  (period a = 0 → ∃ q, alarmQueue a = Some q ∧ is_Some (gAlarmQueue w !! q)) →
  ∃ w_cb,
    OSTriggerAlarmNoLock run_callback p ctx w =
      (acquire;; OSWakeupThreadNoLock p) (run_callback cb p ctx w_cb) ∧
    gAlarmLock w_cb = false ∧
    mem w_cb = <[p := triggered ctx (clock w (ticks w)) a]> (mem w) ∧
    threadQueue (triggered ctx (clock w (ticks w)) a) = threadQueue a ∧
    gAlarmQueue w_cb =
      (if decide (period a ≠ 0) then gAlarmQueue w
       else unlinked_from (alarmQueue a) p (gAlarmQueue w)) ∧
    ready w_cb = ready w ∧
    trace w_cb =
      trace w ++
      (if decide (period a ≠ 0) then [] else erase_events (alarmQueue a) p) ++
      [EvRelease; EvCallback cb p ctx].
Proof.
  intros Hl Hm Hcb Hq. wopen w. unfold OSTriggerAlarmNoLock, triggered.
  munfold. mrun.
  destruct (decide (period a ≠ 0)) as [Hp|Hp].
  - mrun. eexists. split; [reflexivity|]. mrun. repeat split; try done.
    by rewrite <- app_assoc.
  - assert (period a = 0) as Hp0 by lia.
    destruct (Hq Hp0) as (q & Eq & l & Hlq). mrun.
    eexists. split; [reflexivity|]. mrun. repeat split; try done.
    by rewrite <- !app_assoc.
Qed.

(** The hypotheses hold for the third alarm of the example, a one-shot
    alarm with the callback 5: the callback runs with the lock released
    and finds the alarm out of queue 1 with its two waiters still
    asleep. *)
Lemma OSTriggerAlarmNoLock_callback_witness :
  mem demo_world !! 3%nat = Some demo_alarm3 ∧
  callback demo_alarm3 = Some 5%nat ∧
  ∃ w_cb,
    OSTriggerAlarmNoLock idle_callback 3 None (with_lock true demo_world) =
      (acquire;; OSWakeupThreadNoLock 3) (idle_callback 5 3 None w_cb) ∧
    gAlarmLock w_cb = false ∧ gAlarmQueue w_cb !! 1%nat = Some [] ∧
    ready w_cb = [].
Proof.
  split; [reflexivity|]. split; [reflexivity|].
  destruct (OSTriggerAlarmNoLock_callback idle_callback
              (with_lock true demo_world) 3 demo_alarm3 None 5)
    as (w_cb & Hrun & Hl & _ & _ & Hq & Hr & _).
  - reflexivity.
  - reflexivity.
  - reflexivity.
  - intros _. exists 1%nat. split; [reflexivity|]. by eexists.
  - exists w_cb. split; [exact Hrun|]. split; [exact Hl|].
    split; [by rewrite Hq|exact Hr].
Defined.

(** ** Further properties of waiting *)

(** [OSWaitAlarm] on an armed alarm that is cancelled, or cancelled and
    armed again, while the caller sleeps: the worlds it returns in the
    model of the scheduler. *)
Lemma OSWaitAlarm_cancel_run Tag w p a members :
  p ≠ 0%nat → mem w !! p = Some a → tag a = Tag → state a = AlarmSet →
  (∀ q, alarmQueue a = Some q → is_Some (gAlarmQueue w !! q)) →
  gAlarmQueue w !! core_id w = Some members →
  (∃ w',
     OSWaitAlarm Tag (after (OSCancelAlarm p)) p w = Ok false w' ∧
     ready w' = ready w ++ threadQueue a ++ [current_thread w] ∧
     mem w' = <[p := cancelled a]> (mem w) ∧
     gAlarmQueue w' = unlinked_from (alarmQueue a) p (gAlarmQueue w) ∧
     gAlarmLock w' = false) ∧
  (∀ start interval cb,
     ∃ w',
       OSWaitAlarm Tag
         (after (OSCancelAlarm p;; OSSetPeriodicAlarm p start interval cb))
         p w = Ok true w' ∧
       ready w' = ready w ++ threadQueue a ++ [current_thread w] ∧
       mem w' =
         <[p := armed start interval cb (core_id w) (cancelled a)]> (mem w)).
Proof.
  intros Hp Ha Ht Hs Hback Hcore.
  set (a_s := set_threadQueue (threadQueue a ++ [current_thread w]) a).
  set (ws := suspended p a w).
  assert (Has : mem ws !! p = Some a_s)
    by (unfold ws; cbn; by rewrite lookup_insert_eq).
  assert (Hc : cancelled a_s = cancelled a) by done.
  pose proof (OSCancelAlarm_armed ws p a_s Has Hs Hback) as Hcancel.
  rewrite Hc in Hcancel.
  match type of Hcancel with _ = Ok true ?x => set (w1 := x) in * end.
  split.
  - assert (Hafter : after (OSCancelAlarm p) ws = w1)
      by (unfold after; by rewrite Hcancel).
    eexists. split.
    + apply (OSWaitAlarm_armed Tag _ w p a (cancelled a) Hp Ha Ht Hs).
      fold ws. rewrite Hafter. unfold w1. cbn. by rewrite lookup_insert_eq.
    + fold ws. rewrite Hafter. unfold w1, ws. cbn.
      by rewrite insert_insert_eq.
  - intros start interval cb.
    assert (Ha1 : mem w1 !! p = Some (cancelled a))
      by (unfold w1; cbn; by rewrite lookup_insert_eq).
    assert (Hcore1 : ∃ l, gAlarmQueue w1 !! core_id w1 = Some l).
    { apply lookup_lt_is_Some. unfold w1, ws. cbn.
      rewrite length_unlinked_from. by eapply lookup_lt_Some. }
    destruct Hcore1 as [l Hl].
    assert (Hback1 : ∀ q, alarmQueue (cancelled a) = Some q →
                          is_Some (gAlarmQueue w1 !! q)).
    { intros q Hq. apply lookup_lt_is_Some. unfold w1, ws. cbn.
      rewrite length_unlinked_from. apply lookup_lt_is_Some.
      by apply Hback. }
    pose proof (OSSetPeriodicAlarm_run w1 p (cancelled a) start interval cb l
                  Ha1 Hback1 Hl) as Harm.
    match type of Harm with _ = Ok true ?x => set (w2 := x) in * end.
    assert (Hafter :
      after (OSCancelAlarm p;; OSSetPeriodicAlarm p start interval cb) ws
      = w2).
    { unfold after, mbind, M_bind. by rewrite Hcancel, Harm. }
    eexists. split.
    + rewrite (OSWaitAlarm_armed Tag _ w p a
                 (armed start interval cb (core_id w) (cancelled a))
                 Hp Ha Ht Hs).
      * reflexivity.
      * fold ws. rewrite Hafter. unfold w2. cbn. by rewrite lookup_insert_eq.
    + fold ws. rewrite Hafter. unfold w2, w1, ws. cbn.
      by rewrite !insert_insert_eq.
Qed.

(** X8.  A thread that waits on an armed alarm which is cancelled while
    the thread sleeps is resumed by the cancel, together with the
    threads that waited before it, and gets failure; the alarm is then
    cancelled, its wait set empty, and the alarm lock free.  The result
    is read off the state found at wake-up, not off the cause of the
    wake-up: if the alarm is armed again before the thread runs, the
    thread gets success although it was the cancel that resumed it. *)
Theorem OSWaitAlarm_cancelled_while_asleep Tag w p a members :
  p ≠ 0%nat → mem w !! p = Some a → tag a = Tag → state a = AlarmSet →
  (∀ q, alarmQueue a = Some q → is_Some (gAlarmQueue w !! q)) →
  gAlarmQueue w !! core_id w = Some members →
  (∃ w',
     OSWaitAlarm Tag (after (OSCancelAlarm p)) p w = Ok false w' ∧
     current_thread w ∈ ready w' ∧
     (∀ th, th ∈ threadQueue a → th ∈ ready w') ∧
     mem w' = <[p := cancelled a]> (mem w) ∧
     gAlarmQueue w' = unlinked_from (alarmQueue a) p (gAlarmQueue w) ∧
     gAlarmLock w' = false) ∧
  (∀ start interval cb,
     ∃ w',
       OSWaitAlarm Tag
         (after (OSCancelAlarm p;; OSSetPeriodicAlarm p start interval cb))
         p w = Ok true w' ∧
       current_thread w ∈ ready w' ∧
       (∀ th, th ∈ threadQueue a → th ∈ ready w') ∧
       mem w' =
         <[p := armed start interval cb (core_id w) (cancelled a)]> (mem w)).
Proof.
  intros Hp Ha Ht Hs Hback Hcore.
  destruct (OSWaitAlarm_cancel_run Tag w p a members Hp Ha Ht Hs Hback Hcore)
    as [(w1 & Hrun1 & Hr1 & Hrest1) Hagain].
  assert (Hin : ∀ w', ready w' = ready w ++ threadQueue a ++ [current_thread w] →
            current_thread w ∈ ready w' ∧
            ∀ th, th ∈ threadQueue a → th ∈ ready w').
  { intros w' ->. rewrite !elem_of_app. split.
    - right. right. by apply list_elem_of_singleton.
    - intros th Hth. rewrite !elem_of_app. right. by left. }
  split.
  - exists w1. split; [done|]. destruct (Hin w1 Hr1) as [H1 H2]. done.
  - intros start interval cb.
    destruct (Hagain start interval cb) as (w2 & Hrun2 & Hr2 & Hm2).
    exists w2. split; [done|]. destruct (Hin w2 Hr2) as [H1 H2]. done.
Qed.

(** The hypotheses hold for the first alarm of the example, on which
    thread 11 waits already: the caller, thread 20, is resumed as
    well. *)
Lemma OSWaitAlarm_cancelled_while_asleep_witness :
  mem demo_world !! 1%nat = Some demo_alarm1 ∧
  tag demo_alarm1 = demo_tag ∧ state demo_alarm1 = AlarmSet ∧
  ∃ w', OSWaitAlarm demo_tag (after (OSCancelAlarm 1)) 1 demo_world
        = Ok false w' ∧
        20%nat ∈ ready w' ∧ 11%nat ∈ ready w'.
Proof.
  split; [reflexivity|]. split; [reflexivity|]. split; [reflexivity|].
  destruct (OSWaitAlarm_cancelled_while_asleep demo_tag demo_world 1
              demo_alarm1 [1%nat; 2%nat])
    as [(w' & Hrun & Hself & Hothers & _) _].
  - lia.
  - reflexivity.
  - reflexivity.
  - reflexivity.
  - intros q [= <-]. by eexists.
  - reflexivity.
  - exists w'. split; [exact Hrun|]. split; [exact Hself|].
    apply Hothers. set_solver.
Defined.

Section WaitAndFire.

Variable run_callback : nat → nat → option nat → World → World.
Hypothesis callbacks_leave_alarms : callbacks_frame run_callback.

(** X9.  A thread that waits on an armed alarm gets success when the
    scan of the core of the alarm that runs while the thread sleeps
    finds the alarm due, whether the alarm is periodic or not; the wait
    set of the alarm is then empty. *)
Theorem OSWaitAlarm_fired_while_asleep Tag w p a core ctx :
  wf w →
  p ≠ 0%nat → mem w !! p = Some a → tag a = Tag → state a = AlarmSet →
  alarmQueue a = Some core → nextFire a ≤ clock w (ticks w) →
  ∃ w' t,
    OSWaitAlarm Tag (after (OSCheckAlarms run_callback core ctx)) p w
      = Ok true w' ∧
    mem w' !! p = Some (fired ctx t a) ∧
    gAlarmLock w' = false.
Proof.
  intros Hwf Hp Ha Ht Hs Hqa Hdue.
  set (a_s := set_threadQueue (threadQueue a ++ [current_thread w]) a).
  set (ws := suspended p a w).
  assert (Has : mem ws !! p = Some a_s)
    by (unfold ws; cbn; by rewrite lookup_insert_eq).
  assert (Hwfs : wf ws) by (by apply (wf_keep w ws p a a_s)).
  destruct (wf_armed ws Hwfs p a_s Has Hs) as (q & Hq & l & Hl & Hpl).
  assert (q = core) as -> by (cbn in Hq; congruence).
  destruct (OSCheckAlarms_outcome run_callback callbacks_leave_alarms
              core ctx ws l Hwfs Hl)
    as (w1 & Hrun & _ & _ & Hout & _).
  destruct (Hout p a_s Hpl Has) as (a' & Ha' & Hfire & _).
  destruct Hfire as [t ->]; [split; [done|cbn; congruence]|].
  assert (Hafter : after (OSCheckAlarms run_callback core ctx) ws = w1)
    by (unfold after; by rewrite Hrun).
  eexists. exists t. split; [|split].
  - rewrite (OSWaitAlarm_armed Tag _ w p a (fired ctx t a_s) Hp Ha Ht Hs).
    + rewrite bool_decide_eq_true_2; [reflexivity|].
      unfold fired. destruct (decide (period a_s ≠ 0)); done.
    + fold ws. by rewrite Hafter.
  - cbn. fold ws. rewrite Hafter, Ha'. f_equal.
    unfold fired, a_s. cbn. by destruct (decide (period a ≠ 0)).
  - done.
Qed.

End WaitAndFire.

(** The hypotheses hold for the second alarm of the example, a one-shot
    alarm due at time 80, when core 0 is scanned at time 100. *)
Lemma OSWaitAlarm_fired_while_asleep_witness :
  wf demo_world ∧ mem demo_world !! 2%nat = Some demo_alarm2 ∧
  nextFire demo_alarm2 ≤ clock demo_world (ticks demo_world) ∧
  ∃ w', OSWaitAlarm demo_tag (after (OSCheckAlarms idle_callback 0 None))
          2 demo_world = Ok true w'.
Proof.
  split; [exact demo_wf|]. split; [reflexivity|].
  split; [vm_compute; discriminate|].
  destruct (OSWaitAlarm_fired_while_asleep idle_callback idle_callback_frame
              demo_tag demo_world 2 demo_alarm2 0 None demo_wf)
    as (w' & t & Hrun & _).
  - lia.
  - reflexivity.
  - reflexivity.
  - reflexivity.
  - reflexivity.
  - vm_compute. discriminate.
  - exists w'. exact Hrun.
Defined.

(** ** Further properties of arming *)

(** X10.  [OSSetPeriodicAlarm] overrides the timer request of the core:
    when the queue of the core already holds another armed alarm whose
    fire time is earlier than the new start time, the timer of the core
    is afterwards set to the new start time, later than the earliest
    fire time in its queue, until the next scan sets it again. *)
Theorem OSSetPeriodicAlarm_overrides_timer
    w p a start interval cb members p' a' :
  mem w !! p = Some a →
  (∀ q, alarmQueue a = Some q → is_Some (gAlarmQueue w !! q)) →
  gAlarmQueue w !! core_id w = Some members →
  p' ∈ members → p' ≠ p → mem w !! p' = Some a' →
  state a' = AlarmSet → nextFire a' ≠ 0 → nextFire a' < start →
  ∃ w' members',
    OSSetPeriodicAlarm p start interval cb w = Ok true w' ∧
    timers w' !! core_id w = Some (TimeAt start) ∧
    gAlarmQueue w' !! core_id w = Some members' ∧
    p' ∈ members' ∧ pending w' p' (nextFire a') ∧
    ¬ earliest w' members' nonzero (TimeAt start).
Proof.
  intros Ha Hback Hq Hp' Hne Ha' Hs' Hn0 Hlt.
  pose proof (OSSetPeriodicAlarm_run w p a start interval cb members
                Ha Hback Hq) as Hrun.
  match type of Hrun with _ = Ok true ?x => set (w' := x) in * end.
  assert (H1 : ∃ l1, unlinked_from (alarmQueue a) p (gAlarmQueue w)
                       !! core_id w = Some l1 ∧ p' ∈ l1).
  { unfold unlinked_from. destruct (alarmQueue a) as [q|]; [|by eauto].
    destruct (gAlarmQueue w !! q) as [l|] eqn:Hl; [|by eauto].
    destruct (decide (q = core_id w)) as [->|Hq'].
    - rewrite list_lookup_insert_eq by (by eapply lookup_lt_Some).
      eexists. split; [done|]. apply elem_of_unlink. split; congruence.
    - rewrite list_lookup_insert_ne by done. eauto. }
  destruct H1 as (l1 & Hl1 & Hp1).
  assert (Hq' : gAlarmQueue w' !! core_id w = Some (l1 ++ [p])).
  { unfold w'. cbn. unfold linked_into. rewrite Hl1.
    by rewrite list_lookup_insert_eq by (by eapply lookup_lt_Some). }
  assert (Hpend : pending w' p' (nextFire a')).
  { exists a'. split; [|done]. unfold w'. cbn.
    by rewrite lookup_insert_ne. }
  exists w', (l1 ++ [p]). split; [done|]. split.
  { unfold w'. cbn. by rewrite lookup_insert_eq. }
  split; [done|]. split; [apply elem_of_app; by left|]. split; [done|].
  intros (_ & _ & Hmin).
  specialize (Hmin p' (nextFire a')). unfold nonzero in Hmin.
  assert (start ≤ nextFire a'); [|lia].
  apply Hmin; [apply elem_of_app; by left|done|done].
Qed.

(** The hypotheses hold for the third alarm of the example, armed on
    core 0 for the time 900 while the first alarm waits there for the
    time 50. *)
Lemma OSSetPeriodicAlarm_overrides_timer_witness :
  mem demo_world !! 3%nat = Some demo_alarm3 ∧
  mem demo_world !! 1%nat = Some demo_alarm1 ∧
  nextFire demo_alarm1 < 900 ∧
  ∃ w', OSSetPeriodicAlarm 3 900 30 None demo_world = Ok true w' ∧
        timers w' !! 0%nat = Some (TimeAt 900) ∧
        pending w' 1 50.
Proof.
  split; [reflexivity|]. split; [reflexivity|]. split; [reflexivity|].
  destruct (OSSetPeriodicAlarm_overrides_timer demo_world 3 demo_alarm3
              900 30 None [1%nat; 2%nat] 1 demo_alarm1)
    as (w' & l' & Hrun & Ht & _ & _ & Hpend & _).
  - reflexivity.
  - intros q [= <-]. by eexists.
  - reflexivity.
  - rewrite elem_of_cons. by left.
  - lia.
  - reflexivity.
  - reflexivity.
  - discriminate.
  - reflexivity.
  - exists w'. split; [exact Hrun|]. split; [exact Ht|exact Hpend].
Defined.

(** ** Further properties of runs *)

Section RecordsOverRuns.

Variable Tag : Z.
Variable run_callback : nat → nat → option nat → World → World.
Hypothesis callbacks_leave_alarms : callbacks_frame run_callback.

(** X12.  On a well-formed world no operation removes a record, and an
    operation leaves alone every record it does not concern: the
    record of an alarm is unchanged by any operation on another alarm,
    by cancelling another tag, by cancelling its tag while it is not
    armed, and by a scan of a core in whose queue it is not armed. *)
Theorem run_op_frame op w w' p a :
  wf w → run_op Tag run_callback op w = Ok tt w' →
  mem w !! p = Some a →
  ∃ a', mem w' !! p = Some a' ∧ (¬ concerns p a op → a' = a).
Proof.
  intros Hwf Hrun Ha.
  destruct (run_op_record Tag run_callback callbacks_leave_alarms
              op w w' p a Hwf Hrun Ha) as (a' & Ha' & Hstep).
  exists a'. split; [done|]. intros Hno.
  destruct Hstep as [->|Hstep]; [done|].
  exfalso. apply Hno. destruct op; cbn in *; tauto.
Qed.

(** X13.  The user data written by [OSSetAlarmUserData] is what
    [OSGetAlarmUserData] returns after any run of operations that
    neither create the alarm nor set its user data again: arming,
    cancelling and firing the alarm leave it. *)
Theorem user_data_round_trip w p a d :
  wf w → mem w !! p = Some a →
  ∃ w1,
    OSSetAlarmUserData p d w = Ok tt w1 ∧
    ∀ w2, steps Tag run_callback (keeps_user_data p) w1 w2 →
      ∃ w3, OSGetAlarmUserData p w2 = Ok d w3.
Proof.
  intros Hwf Ha. eexists. split; [by apply (OSSetAlarmUserData_run w p a)|].
  set (w1 := with_lock _ _).
  assert (Hwf1 : wf w1).
  { eapply (wf_keep w w1 p a (set_userData d a));
      [done|done|done|done| |reflexivity|done].
    intros Hs. cbn. by eapply wf_idle. }
  assert (Ha1 : mem w1 !! p = Some (set_userData d a))
    by (unfold w1; cbn; by rewrite lookup_insert_eq).
  intros w2 Hsteps.
  assert (Hinv : wf w2 ∧ ∃ a2, mem w2 !! p = Some a2 ∧ userData a2 = d).
  { induction Hsteps as [|w2 op w3 _ [IHwf (a2 & Ha2 & Hd2)] [Hcu Hop] Hrun].
    - eauto.
    - split.
      { by eapply (run_op_wf Tag run_callback callbacks_leave_alarms op w2). }
      destruct (run_op_record Tag run_callback callbacks_leave_alarms
                  op w2 w3 p a2 IHwf Hrun Ha2) as (a3 & Ha3 & [->|Hstep]);
        [by eauto|].
      exists a3. split; [done|].
      destruct op; cbn in Hstep, Hop;
        try (destruct Hstep as [? _]; congruence).
      + by destruct Hstep as (_ & start & ->).
      + by destruct Hstep as (_ & ->).
      + by destruct Hstep as (_ & _ & ->).
      + by destruct Hstep as (_ & _ & ->).
      + destruct Hstep as (_ & _ & t & ->). rewrite <- Hd2.
        unfold fired. by destruct (decide (period a2 ≠ 0)).
      + by destruct Hstep as (_ & ->). }
  destruct Hinv as (_ & a2 & Ha2 & <-).
  eexists. by apply OSGetAlarmUserData_run.
Qed.

(** X14.  A periodic alarm keeps running: an armed alarm whose period
    is not zero is still armed, with the same period and callback and
    in the same queue, after any run of operations that neither create,
    arm or cancel it nor cancel the tag it carries, however many scans
    fire it. *)
Theorem periodic_alarm_keeps_running w w' p a q :
  wf w → mem w !! p = Some a →
  state a = AlarmSet → period a ≠ 0 → alarmQueue a = Some q →
  steps Tag run_callback (lets_run p) w w' →
  ∃ a', mem w' !! p = Some a' ∧
        state a' = AlarmSet ∧ period a' = period a ∧
        callback a' = callback a ∧ linked w' p q.
Proof.
  intros Hwf Ha Hs Hp Hq Hsteps.
  assert (Hinv : wf w' ∧ ∃ a', mem w' !! p = Some a' ∧
            state a' = AlarmSet ∧ period a' = period a ∧
            callback a' = callback a ∧ alarmQueue a' = Some q).
  { induction Hsteps
      as [|w1 op w2 _ [IHwf (a1 & Ha1 & Hs1 & Hp1 & Hc1 & Hq1)] [Hcu Hop] Hrun].
    - eauto 8.
    - split.
      { by eapply (run_op_wf Tag run_callback callbacks_leave_alarms op w1). }
      destruct (run_op_record Tag run_callback callbacks_leave_alarms
                  op w1 w2 p a1 IHwf Hrun Ha1) as (a2 & Ha2 & [->|Hstep]);
        [by eauto 8|].
      exists a2. split; [done|].
      destruct op; cbn in Hstep, Hop;
        try (destruct Hstep as [? _]; congruence).
      + destruct Hstep as [Ht _]. by destruct (Hop a1 Ha1).
      + destruct Hstep as (_ & _ & t & ->).
        rewrite fired_alarmQueue.
        rewrite fired_state_periodic by congruence.
        unfold fired. rewrite decide_True by congruence. done.
      + by destruct Hstep as (_ & ->).
      + by destruct Hstep as (_ & ->). }
  destruct Hinv as (Hwf' & a' & Ha' & Hs' & Hp' & Hc' & Hq').
  exists a'. repeat (split; [done|]).
  destruct (wf_armed w' Hwf' p a' Ha' Hs') as (q' & Hq'' & Hlk). congruence.
Qed.

End RecordsOverRuns.

(** The hypotheses of [run_op_frame] hold for the first alarm of the
    example, armed on core 0, and a scan of core 1. *)
Lemma run_op_frame_witness :
  wf demo_world ∧ mem demo_world !! 1%nat = Some demo_alarm1 ∧
  ¬ concerns 1 demo_alarm1 (OpCheckAlarms 1 None) ∧
  ∃ w', run_op demo_tag idle_callback (OpCheckAlarms 1 None) demo_world
          = Ok tt w' ∧
        mem w' !! 1%nat = Some demo_alarm1.
Proof.
  split; [exact demo_wf|]. split; [reflexivity|].
  assert (Hno : ¬ concerns 1 demo_alarm1 (OpCheckAlarms 1 None)).
  { intros [H _]. discriminate H. }
  split; [exact Hno|].
  assert (Hrun : ∃ w', run_op demo_tag idle_callback (OpCheckAlarms 1 None)
                         demo_world = Ok tt w').
  { eexists. vm_compute. reflexivity. }
  destruct Hrun as [w' Hrun]. exists w'. split; [exact Hrun|].
  destruct (run_op_frame demo_tag idle_callback idle_callback_frame
              (OpCheckAlarms 1 None) demo_world w' 1 demo_alarm1 demo_wf
              Hrun eq_refl) as (a' & Ha' & Hsame).
  rewrite Ha'. f_equal. exact (Hsame Hno).
Defined.

(** The hypotheses of [user_data_round_trip] hold for the second alarm
    of the example: the user data 42 is read back after the alarm was
    cancelled. *)
Lemma user_data_round_trip_witness :
  wf demo_world ∧ mem demo_world !! 2%nat = Some demo_alarm2 ∧
  ∃ w1 w2 w3,
    OSSetAlarmUserData 2 42 demo_world = Ok tt w1 ∧
    run_op demo_tag idle_callback (OpCancelAlarm 2) w1 = Ok tt w2 ∧
    OSGetAlarmUserData 2 w2 = Ok 42%nat w3.
Proof.
  split; [exact demo_wf|]. split; [reflexivity|].
  destruct (user_data_round_trip demo_tag idle_callback idle_callback_frame
              demo_world 2 demo_alarm2 42 demo_wf eq_refl)
    as (w1 & Hset & Hget).
  pose proof Hset as Hw1. vm_compute in Hw1. injection Hw1 as Hw1.
  exists w1.
  assert (Hrun : ∃ w2, run_op demo_tag idle_callback (OpCancelAlarm 2) w1
                       = Ok tt w2).
  { rewrite <- Hw1. eexists. vm_compute. reflexivity. }
  destruct Hrun as [w2 Hrun].
  destruct (Hget w2) as [w3 Hw3].
  { eapply steps_step; [apply steps_refl| |exact Hrun].
    split; [exact I|]. exact I. }
  exists w2, w3. split; [exact Hset|]. split; [exact Hrun|exact Hw3].
Defined.

(** The hypotheses of [periodic_alarm_keeps_running] hold for the first
    alarm of the example, whose period is 10, and a scan of core 0 that
    fires it. *)
Lemma periodic_alarm_keeps_running_witness :
  wf demo_world ∧ mem demo_world !! 1%nat = Some demo_alarm1 ∧
  period demo_alarm1 ≠ 0 ∧
  ∃ w' a',
    run_op demo_tag idle_callback (OpCheckAlarms 0 None) demo_world
      = Ok tt w' ∧
    mem w' !! 1%nat = Some a' ∧ state a' = AlarmSet ∧ linked w' 1 0.
Proof.
  split; [exact demo_wf|]. split; [reflexivity|]. split; [discriminate|].
  assert (Hrun : ∃ w', run_op demo_tag idle_callback (OpCheckAlarms 0 None)
                         demo_world = Ok tt w').
  { eexists. vm_compute. reflexivity. }
  destruct Hrun as [w' Hrun].
  destruct (periodic_alarm_keeps_running demo_tag idle_callback
              idle_callback_frame demo_world w' 1 demo_alarm1 0 demo_wf)
    as (a' & Ha' & Hs' & _ & _ & Hlk).
  - reflexivity.
  - reflexivity.
  - discriminate.
  - reflexivity.
  - eapply steps_step; [apply steps_refl| |exact Hrun].
    split; exact I.
  - exists w', a'. split; [exact Hrun|]. split; [exact Ha'|].
    split; [exact Hs'|exact Hlk].
Defined.

(** ** Further properties of the lock *)

(** X15.  Entered with the alarm lock free, every operation that
    returns has released the lock, and so has [OSWaitAlarm].  The
    accesses to alarm records that are made without the lock are
    these: [OSCreateAlarm] and [OSCreateAlarmEx], which never take the
    lock, write the record four times; a scan reads the callback of an
    alarm once more when it calls it, after it has released the lock,
    so its accesses are to alarms its walk visits, in the order of the
    walk and at most one for each, whichever alarms that are; the
    other operations and [OSWaitAlarm] make none.  With the lock held,
    [OSTriggerAlarmNoLock] makes that one access when the alarm has a
    callback and none when it has not.  The callbacks and the threads
    that run while the caller of [OSWaitAlarm] sleeps are taken not to
    touch records without the lock themselves. *)
Theorem entry_points_guard_records Tag run_callback others w :
  callbacks_quiet run_callback → quiet others →
  gAlarmLock w = false →
  (∀ op w', (∀ core ctx, op ≠ OpCheckAlarms core ctx) →
     run_op Tag run_callback op w = Ok tt w' →
     gAlarmLock w' = false ∧
     unguarded w' = unguarded w ++ unlocked_writes op) ∧
  (∀ visited core ctx w',
     OSCheckAlarms_along run_callback visited core ctx w = Ok tt w' →
     gAlarmLock w' = false ∧
     ∃ l, unguarded w' = unguarded w ++ l ∧ sublist l visited) ∧
  (∀ core ctx members, gAlarmQueue w !! core = Some members →
     OSCheckAlarms run_callback core ctx w =
     OSCheckAlarms_along run_callback members core ctx w) ∧
  (∀ p r w', OSWaitAlarm Tag others p w = Ok r w' →
     gAlarmLock w' = false ∧ unguarded w' = unguarded w) ∧
  (∀ p ctx a w1 w', gAlarmLock w1 = true → mem w1 !! p = Some a →
     OSTriggerAlarmNoLock run_callback p ctx w1 = Ok tt w' →
     gAlarmLock w' = true ∧
     unguarded w' =
       unguarded w1 ++ (match callback a with Some _ => [p] | None => [] end)).
Proof.
  intros Hcb Hothers Hl. split; [|split; [|split; [|split]]].
  - intros op w' Hop Hrun.
    by apply (guarded_run_op Tag run_callback op w).
  - intros visited core ctx w' Hrun.
    by apply (guarded_within_OSCheckAlarms_along run_callback Hcb visited
                core ctx w).
  - intros core ctx members Hq. by apply OSCheckAlarms_along_members.
  - intros p r w' Hrun.
    by apply (guarded_OSWaitAlarm Tag others Hothers false p w r w').
  - intros p ctx a w1 w' Hl1 Hm Hrun.
    by apply (OSTriggerAlarmNoLock_unguarded run_callback Hcb p ctx w1 w' a).
Qed.

(** The hypotheses hold for the example: cancelling the tag 7 is done
    under the lock, creating an alarm at address 4 is not; and a scan
    that calls the callback of the alarm at address 1 reads that
    record once without the lock. *)
Lemma entry_points_guard_records_witness :
  callbacks_quiet idle_callback ∧ gAlarmLock demo_world = false ∧
  (∃ w', run_op demo_tag idle_callback (OpCancelAlarms 7) demo_world
           = Ok tt w' ∧
         gAlarmLock w' = false ∧ unguarded w' = []) ∧
  (∃ w', run_op demo_tag idle_callback (OpCreateAlarm 4) demo_world
           = Ok tt w' ∧
         unguarded w' = [4%nat; 4%nat; 4%nat; 4%nat]) ∧
  (∃ w', OSCheckAlarms idle_callback 0 None (callback_world 5) = Ok tt w' ∧
         gAlarmLock w' = false ∧ unguarded w' = [1%nat]).
Proof.
  assert (Hcb : callbacks_quiet idle_callback) by (by intros cb p ctx w).
  assert (Hid : quiet (λ w, w)) by (by intros w).
  destruct (entry_points_guard_records demo_tag idle_callback (λ w, w)
              demo_world Hcb Hid eq_refl) as [Hops _].
  destruct (entry_points_guard_records demo_tag idle_callback (λ w, w)
              (callback_world 5) Hcb Hid eq_refl) as (_ & Hscan & Halong & _).
  split; [exact Hcb|]. split; [reflexivity|]. split; [|split].
  - assert (Hrun : ∃ w', run_op demo_tag idle_callback (OpCancelAlarms 7)
                           demo_world = Ok tt w').
    { eexists. vm_compute. reflexivity. }
    destruct Hrun as [w' Hrun]. exists w'. split; [exact Hrun|].
    exact (Hops (OpCancelAlarms 7) w' ltac:(done) Hrun).
  - assert (Hrun : ∃ w', run_op demo_tag idle_callback (OpCreateAlarm 4)
                           demo_world = Ok tt w').
    { eexists. vm_compute. reflexivity. }
    destruct Hrun as [w' Hrun]. exists w'. split; [exact Hrun|].
    exact (proj2 (Hops (OpCreateAlarm 4) w' ltac:(done) Hrun)).
  - assert (Hrun : ∃ w', OSCheckAlarms idle_callback 0 None (callback_world 5)
                           = Ok tt w' ∧ unguarded w' = [1%nat]).
    { eexists. split; [vm_compute; reflexivity|reflexivity]. }
    destruct Hrun as (w' & Hrun & Hu). exists w'. split; [exact Hrun|].
    split; [|exact Hu].
    rewrite (Halong 0%nat None [1%nat] eq_refl) in Hrun.
    by destruct (Hscan [1%nat] 0%nat None w' Hrun) as [Hl _].
Defined.

(** The hypotheses of [run_op_total] hold for a scan of core 0 of the
    example, which runs to completion. *)
Lemma run_op_total_witness :
  wf demo_world ∧ addressed demo_world (OpCheckAlarms 0 None) ∧
  ∃ w', run_op demo_tag idle_callback (OpCheckAlarms 0 None) demo_world
        = Ok tt w'.
Proof.
  split; [exact demo_wf|]. split; [cbn; lia|].
  apply (run_op_total demo_tag idle_callback idle_callback_frame
           (OpCheckAlarms 0 None) demo_world demo_wf).
  cbn. lia.
Defined.

(** ** Further properties of arming and cancelling together *)

(** X16.  Arming an idle alarm and cancelling it again gives back the
    queues as they were, but not the rest: the record is left in state
    [Cancelled] with its back pointer on the queue of the core, the
    threads that waited on it are resumed, and the timer request made
    for the start time is not withdrawn. *)
Theorem OSSetPeriodicAlarm_then_OSCancelAlarm
    w p a start interval cb members :
  wf w → mem w !! p = Some a → state a ≠ AlarmSet →
  gAlarmQueue w !! core_id w = Some members →
  ∃ w1 w2,
    OSSetPeriodicAlarm p start interval cb w = Ok true w1 ∧
    OSCancelAlarm p w1 = Ok true w2 ∧
    gAlarmQueue w2 = gAlarmQueue w ∧
    mem w2 = <[p := cancelled (armed start interval cb (core_id w) a)]>
               (mem w) ∧
    ready w2 = ready w ++ threadQueue a ∧
    timers w2 = <[core_id w := TimeAt start]> (timers w).
Proof.
  intros Hwf Ha Hs Hcore.
  assert (Hback : ∀ q, alarmQueue a = Some q → is_Some (gAlarmQueue w !! q)).
  { intros q Hqa. apply lookup_lt_is_Some. by eapply wf_owner. }
  assert (Hun : ∀ q, ¬ linked w p q).
  { intros q (l & Hl & Hp).
    destruct (wf_member w Hwf q l p Hl Hp) as (a' & Ha' & Hs' & _).
    congruence. }
  pose proof (OSSetPeriodicAlarm_run w p a start interval cb members
                Ha Hback Hcore) as Harm.
  set (a1 := armed start interval cb (core_id w) a) in *.
  match type of Harm with _ = Ok true ?x => set (w1 := x) in * end.
  assert (Hq0 : unlinked_from (alarmQueue a) p (gAlarmQueue w)
                = gAlarmQueue w).
  { rewrite (unlinked_from_everywhere w p a Hwf Ha).
    by apply unlinked_everywhere_id. }
  assert (Hq1 : gAlarmQueue w1 = <[core_id w := members ++ [p]]> (gAlarmQueue w)).
  { unfold w1. cbn. rewrite Hq0. unfold linked_into. by rewrite Hcore. }
  assert (Ha1 : mem w1 !! p = Some a1)
    by (unfold w1; cbn; by rewrite lookup_insert_eq).
  assert (Hlen : (core_id w < length (gAlarmQueue w))%nat)
    by (by eapply lookup_lt_Some).
  pose proof (OSCancelAlarm_armed w1 p a1 Ha1 eq_refl) as Hcancel.
  assert (Hback1 : ∀ q, alarmQueue a1 = Some q →
                        is_Some (gAlarmQueue w1 !! q)).
  { intros q [= <-]. apply lookup_lt_is_Some.
    by rewrite Hq1, length_insert. }
  specialize (Hcancel Hback1).
  match type of Hcancel with _ = Ok true ?x => set (w2 := x) in * end.
  exists w1, w2. split; [done|]. split; [done|].
  split; [|split; [|split]].
  - unfold w2. cbn -[w1]. unfold unlinked_from. rewrite Hq1.
    rewrite list_lookup_insert_eq by done.
    rewrite list_insert_insert_eq.
    rewrite filter_app, unlink_absent.
    + rewrite filter_cons_False by (intros H; by apply H).
      rewrite filter_nil, app_nil_r. by apply list_insert_id.
    + intros Hp. apply (Hun (core_id w)). by exists members.
  - unfold w2, w1. cbn. by rewrite insert_insert_eq.
  - done.
  - done.
Qed.

(** The hypotheses hold on a machine of three cores for an alarm that
    was just created. *)
Lemma OSSetPeriodicAlarm_then_OSCancelAlarm_witness :
  wf (after (OSCreateAlarm demo_tag 4) demo_world) ∧
  ∃ w1 w2,
    OSSetPeriodicAlarm 4 900 0 None (after (OSCreateAlarm demo_tag 4) demo_world)
      = Ok true w1 ∧
    OSCancelAlarm 4 w1 = Ok true w2 ∧
    gAlarmQueue w2 = [[1%nat; 2%nat]; [3%nat]; []] ∧
    timers w2 !! 0%nat = Some (TimeAt 900).
Proof.
  assert (Hun : ∀ q, ¬ linked demo_world 4 q).
  { intros q (l & Hl & Hp).
    destruct (wf_member demo_world demo_wf q l 4 Hl Hp) as (a & Ha & _).
    vm_compute in Ha. discriminate Ha. }
  assert (Hwf : wf (after (OSCreateAlarm demo_tag 4) demo_world)).
  { apply (run_op_wf demo_tag idle_callback idle_callback_frame
             (OpCreateAlarm 4) demo_world _ demo_wf Hun).
    vm_compute. reflexivity. }
  split; [exact Hwf|].
  destruct (OSSetPeriodicAlarm_then_OSCancelAlarm
              (after (OSCreateAlarm demo_tag 4) demo_world) 4
              (set_tag demo_tag zero_alarm) 900 0 None [1%nat; 2%nat] Hwf)
    as (w1 & w2 & H1 & H2 & Hq & _ & _ & Ht).
  - vm_compute. reflexivity.
  - discriminate.
  - reflexivity.
  - exists w1, w2. split; [exact H1|]. split; [exact H2|].
    split; [exact Hq|]. rewrite Ht. reflexivity.
Defined.

(** X17.  [CoreInit::initialiseAlarm] gives every core below
    [CoreCount] an empty queue and no other: on the machine it leaves,
    a scan of such a core returns and disarms the timer of the core,
    and a scan of any other core indexes [gAlarmQueue] out of range. *)
Theorem initialiseAlarm_queues CoreCount clock' run_callback core ctx :
  ((core < CoreCount)%nat →
     ∃ w', OSCheckAlarms run_callback core ctx (boot CoreCount clock')
             = Ok tt w' ∧
           timers w' !! core = Some TimeMax ∧
           mem w' = ∅ ∧ gAlarmQueue w' = replicate CoreCount [] ∧
           gAlarmLock w' = false) ∧
  ((CoreCount ≤ core)%nat →
     OSCheckAlarms run_callback core ctx (boot CoreCount clock')
       = Err OutOfBounds).
Proof.
  split.
  - intros Hc.
    assert (Hq : gAlarmQueue (boot CoreCount clock') !! core = Some []).
    { cbn. by apply lookup_replicate_2. }
    eexists. split.
    + unfold OSCheckAlarms, gAlarmQueue_at, queue_members.
      unfold mbind at 1, M_bind at 1. rewrite Hq.
      unfold OSGetTime, OSLockScheduler, acquire, release, OSUnlockScheduler,
        setInterruptTimer, log, update, mbind, M_bind. cbn.
      rewrite lookup_replicate_2 by done. cbn. reflexivity.
    + cbn. by rewrite lookup_insert_eq.
  - intros Hc. apply OSCheckAlarms_oob. cbn.
    apply lookup_ge_None_2. by rewrite length_replicate.
Qed.

(** The hypotheses hold for core 2 and core 3 of a machine of three
    cores. *)
Lemma initialiseAlarm_queues_witness :
  (∃ w', OSCheckAlarms idle_callback 2 None (boot 3 steady) = Ok tt w' ∧
         timers w' !! 2%nat = Some TimeMax) ∧
  OSCheckAlarms idle_callback 3 None (boot 3 steady) = Err OutOfBounds.
Proof.
  split.
  - destruct (initialiseAlarm_queues 3 steady idle_callback 2 None)
      as [Hin _].
    destruct Hin as (w' & Hrun & Ht & _); [lia|].
    exists w'. split; [exact Hrun|exact Ht].
  - destruct (initialiseAlarm_queues 3 steady idle_callback 3 None)
      as [_ Hout].
    apply Hout. lia.
Defined.
